(** * speedy-vision: the keypoint codec and the matrix routines

    A shallow embedding of three source files of the repository:

    - [src/core/math/matrix-math.js]: the stateless routines of the matrix
      interpreter, over column-major strided typed arrays;
    - [src/core/pipeline/nodes/keypoints/sink.js]: the host-side decoder of
      the packed keypoint texture;
    - [src/gpu/shaders/encoders/encode-keypoints.glsl]: the fragment shader
      that packs a sparse keypoint image into cells.

    Typed arrays are lists read with [!!] and written with [<[_:=_]>]: a
    write past the end of a typed array is ignored by JavaScript, and so it
    is by the list update; a read past the end is [undefined]. *)

From Stdlib Require Import ZArith QArith Lia Lqa List.
From stdpp Require Import base tactics option list numbers.

Open Scope nat_scope.

(** ** Counting loops *)

(** [for(j = 0; j < n; j++) body]: the loop state is threaded through the
    iterations [0], [1], ..., [n-1]. *)
Definition for_loop {S : Type} (n : nat) (body : nat -> S -> S) (s : S) : S :=
  foldl (fun s j => body j s) s (seq 0 n).

Lemma for_loop_0 {S : Type} (body : nat -> S -> S) (s : S) :
  for_loop 0 body s = s.
Proof. reflexivity. Qed.

Lemma for_loop_S {S : Type} (n : nat) (body : nat -> S -> S) (s : S) :
  for_loop (Datatypes.S n) body s = body n (for_loop n body s).
Proof.
  unfold for_loop. rewrite seq_S, foldl_app. reflexivity.
Qed.

(** The invariant rule of the counting loop. *)
Lemma for_loop_inv {S : Type} (P : nat -> S -> Prop) n (body : nat -> S -> S) s :
  P 0 s ->
  (forall j t, j < n -> P j t -> P (Datatypes.S j) (body j t)) ->
  P n (for_loop n body s).
Proof.
  intros H0 Hstep. induction n as [|n IH].
  - exact H0.
  - rewrite for_loop_S. apply Hstep; [lia|].
    apply IH. intros j t Hj. apply Hstep. lia.
Qed.

(** What a loop does to one cell of an array, when every iteration acts on
    that cell as a function of its old content alone. *)
Lemma for_loop_lookup {A : Type} n (body : nat -> list A -> list A)
    (F : nat -> option A -> option A) (p : nat) (out : list A) :
  (forall j o, j < n -> body j o !! p = F j (o !! p)) ->
  for_loop n body out !! p = foldl (fun v j => F j v) (out !! p) (seq 0 n).
Proof.
  intros HF. induction n as [|n IH].
  - reflexivity.
  - rewrite for_loop_S, seq_S, foldl_app. cbn [foldl Nat.add].
    rewrite HF by lia. f_equal. apply IH. intros j o Hj. apply HF. lia.
Qed.

(** A loop none of whose iterations touches the cell leaves it alone. *)
Lemma for_loop_preserves {A : Type} n (body : nat -> list A -> list A)
    (p : nat) (out : list A) :
  (forall j o, j < n -> body j o !! p = o !! p) ->
  for_loop n body out !! p = out !! p.
Proof.
  intros H. apply (for_loop_inv (fun _ o => o !! p = out !! p)).
  - reflexivity.
  - intros j t Hj Ht. rewrite H by exact Hj. exact Ht.
Qed.

(** A loop only one of whose iterations touches the cell. *)
Lemma for_loop_lookup_once {A : Type} n (body : nat -> list A -> list A)
    (G : option A -> option A) (j0 p : nat) (out : list A) :
  j0 < n ->
  (forall o, body j0 o !! p = G (o !! p)) ->
  (forall j o, j < n -> j <> j0 -> body j o !! p = o !! p) ->
  for_loop n body out !! p = G (out !! p).
Proof.
  intros Hj0 HG Hother. induction n as [|n IH]; [lia|].
  rewrite for_loop_S. destruct (decide (n = j0)) as [->|Hne].
  - rewrite HG. f_equal. apply for_loop_preserves.
    intros j o Hj. apply Hother; lia.
  - rewrite Hother by lia. apply IH; [lia|].
    intros j o Hj. apply Hother. lia.
Qed.

Lemma for_loop_length {A : Type} n (body : nat -> list A -> list A) (out : list A) :
  (forall j o, length (body j o) = length o) ->
  length (for_loop n body out) = length out.
Proof.
  intros H. apply (for_loop_inv (fun _ o => length o = length out)).
  - reflexivity.
  - intros j t _ Ht. rewrite H. exact Ht.
Qed.

(** ** matrix-math.js *)

Module MatrixMath.

Section Routines.

(** The element type of the typed arrays, with the arithmetic the routines
    use. The operations are those of the array's element type, rounding
    included, so nothing below relies on an algebraic law. [nan] is what a
    read past the end of an array contributes to a computation. *)
Context {num : Type}.
Variables (zero nan : num) (plus minus times : num -> num -> num).

(** The header the interpreter hands to a routine. [length_] is the source's
    [header.length]; [value] and [scalar] are the entries of [header.custom]. *)
Record Header : Type := {
  rows : nat;
  columns : nat;
  stride : nat;
  length_ : nat;
  rowsOfInputs : list nat;
  columnsOfInputs : list nat;
  strideOfInputs : list nat;
  lengthOfInputs : list nat;
  value : num;
  scalar : num
}.

(** [a[k]] in an arithmetic expression. *)
Definition get (a : list num) (k : nat) : num := default nan (a !! k).

(** [TypedArray.prototype.fill(v, start, end)]: the cells from [start] up to
    [end], as far as the array goes. *)
Definition fill_range (v : num) (start end_ : nat) (output : list num) : list num :=
  for_loop (end_ - start) (fun d out => <[start + d := v]> out) output.

(** [TypedArray.prototype.set(source, 0)]: copies the whole source, and
    throws a RangeError ([None]) when the source is longer than the target. *)
Definition typed_set (output input : list num) : option (list num) :=
  if decide (length input <= length output)
  then Some (input ++ drop (length input) output)
  else None.

(** Every routine returns the output array after the call. [None] is a call
    that throws, or one that the model leaves out: a call whose [inputs] or
    header arrays are shorter than the routine destructures, where the source
    goes on with [undefined]. Every statement below is about calls whose
    header arrays have an entry per input. The output and the inputs are distinct buffers.
    The running offsets of the source's loop headers ([oj += stride] and the
    like) are written as the products they hold, [j * stride]. *)

Definition nop (header : Header) (output : list num) (inputs : list (list num))
  : option (list num) :=
  Some output.

Definition fill (header : Header) (output : list num) (inputs : list (list num))
  : option (list num) :=
  let '(rows, columns, stride, length) :=
    (rows header, columns header, stride header, length_ header) in
  let value := value header in
  if decide (rows * columns = length)
  then Some (fill_range value 0 length output)
  else Some (for_loop columns (fun j out =>
               fill_range value (j * stride) (j * stride + rows) out) output).

Definition copy (header : Header) (output : list num) (inputs : list (list num))
  : option (list num) :=
  let '(rows, columns, stride, length) :=
    (rows header, columns header, stride header, length_ header) in
  match strideOfInputs header, inputs with
  | strideI :: _, input :: _ =>
      if decide (lengthOfInputs header !! 0 = Some length /\ rows * columns = length)
      then typed_set output input
      else Some (for_loop columns (fun j out =>
                   for_loop rows (fun i out =>
                     <[j * stride + i := get input (j * strideI + i)]> out) out) output)
  | _, _ => None
  end.

Definition transpose (header : Header) (output : list num) (inputs : list (list num))
  : option (list num) :=
  let '(rows, columns, stride) := (rows header, columns header, stride header) in
  match strideOfInputs header, inputs with
  | strideT :: _, input :: _ =>
      Some (for_loop rows (fun i out =>
              for_loop columns (fun j out =>
                <[j * stride + i := get input (i * strideT + j)]> out) out) output)
  | _, _ => None
  end.

(** [add], [subtract] and [compmult] are one loop nest with three
    operators. *)
Definition componentwise (op : num -> num -> num)
    (header : Header) (output : list num) (inputs : list (list num))
  : option (list num) :=
  let '(rows, columns, stride) := (rows header, columns header, stride header) in
  match strideOfInputs header, inputs with
  | strideA :: strideB :: _, a :: b :: _ =>
      Some (for_loop columns (fun j out =>
              let oj := j * stride in
              let aj := j * strideA in
              let bj := j * strideB in
              for_loop rows (fun i out =>
                <[oj + i := op (get a (aj + i)) (get b (bj + i))]> out) out) output)
  | _, _ => None
  end.

Definition add := componentwise plus.
Definition subtract := componentwise minus.
Definition compmult := componentwise times.

(** The clearing step of [multiply] and [multiplyrt]. *)
Definition clear (header : Header) (output : list num) : list num :=
  let '(rows, columns, stride, length) :=
    (rows header, columns header, stride header, length_ header) in
  if decide (rows * columns <> length)
  then for_loop columns (fun c out =>
         fill_range zero (c * stride) (c * stride + rows) out) output
  else fill_range zero 0 length output.

(** [output[k] += v]. *)
Definition add_to (k : nat) (v : num) (output : list num) : list num :=
  <[k := plus (get output k) v]> output.

Definition multiply (header : Header) (output : list num) (inputs : list (list num))
  : option (list num) :=
  let '(rows, columns, stride) := (rows header, columns header, stride header) in
  match columnsOfInputs header, strideOfInputs header, inputs with
  | columnsA :: columnsB :: _, strideA :: strideB :: _, a :: b :: _ =>
      let output := clear header output in
      Some (for_loop columnsB (fun k out =>
              let ok := k * stride in
              let bk := k * strideB in
              for_loop columnsA (fun j out =>
                let aj := j * strideA in
                let bjk := get b (bk + j) in
                for_loop rows (fun i out =>
                  add_to (ok + i) (times (get a (aj + i)) bjk) out) out) out) output)
  | _, _, _ => None
  end.

Definition multiplylt (header : Header) (output : list num) (inputs : list (list num))
  : option (list num) :=
  let '(rows, columns, stride) := (rows header, columns header, stride header) in
  match columnsOfInputs header, rowsOfInputs header, strideOfInputs header, inputs with
  | columnsA :: columnsB :: _, rowsA :: rowsB :: _, strideA :: strideB :: _, a :: b :: _ =>
      Some (for_loop columnsB (fun k out =>
              let ok := k * stride in
              let bk := k * strideB in
              for_loop columnsA (fun j out =>
                let aj := j * strideA in
                let ojk := ok + j in
                let out := <[ojk := zero]> out in
                for_loop rowsB (fun i out =>
                  add_to ojk (times (get a (aj + i)) (get b (bk + i))) out) out) out) output)
  | _, _, _, _ => None
  end.

Definition multiplyrt (header : Header) (output : list num) (inputs : list (list num))
  : option (list num) :=
  let '(rows, columns, stride) := (rows header, columns header, stride header) in
  match columnsOfInputs header, rowsOfInputs header, strideOfInputs header, inputs with
  | columnsA :: columnsB :: _, rowsA :: rowsB :: _, strideA :: strideB :: _, a :: b :: _ =>
      let output := clear header output in
      Some (for_loop columnsA (fun j out =>
              let aj := j * strideA in
              let bj := j * strideB in
              for_loop rowsB (fun k out =>
                let ok := k * stride in
                let bkj := get b (bj + k) in
                for_loop rows (fun i out =>
                  add_to (ok + i) (times (get a (aj + i)) bkj) out) out) out) output)
  | _, _, _, _ => None
  end.

Definition scale (header : Header) (output : list num) (inputs : list (list num))
  : option (list num) :=
  let '(rows, columns, stride) := (rows header, columns header, stride header) in
  let scalar := scalar header in
  match inputs with
  | input :: _ =>
      Some (for_loop columns (fun j out =>
              let oj := j * stride in
              for_loop rows (fun i out =>
                <[oj + i := times (get input (oj + i)) scalar]> out) out) output)
  | _ => None
  end.

(** The operation codes and the table from codes to routines. *)
Inductive Opcode : Type :=
  | NOP | FILL | COPY | TRANSPOSE | ADD | SUBTRACT | MULTIPLY
  | SCALE | COMPMULT | MULTIPLYLT | MULTIPLYRT.

Definition Opcode2fun (op : Opcode)
  : Header -> list num -> list (list num) -> option (list num) :=
  match op with
  | NOP => nop
  | FILL => fill
  | COPY => copy
  | TRANSPOSE => transpose
  | ADD => add
  | SUBTRACT => subtract
  | MULTIPLY => multiply
  | SCALE => scale
  | COMPMULT => compmult
  | MULTIPLYLT => multiplylt
  | MULTIPLYRT => multiplyrt
  end.

(** *** Single cells *)

Lemma lookup_insert_same (k : nat) (v : num) (o : list num) :
  <[k := v]> o !! k = (fun _ => v) <$> (o !! k).
Proof.
  destruct (decide (k < length o)) as [Hlt|Hge].
  - rewrite list_lookup_insert_eq by exact Hlt.
    destruct (lookup_lt_is_Some_2 o k Hlt) as [x ->]. reflexivity.
  - rewrite list_insert_ge by lia.
    rewrite (lookup_ge_None_2 o k) by lia. reflexivity.
Qed.

Lemma lookup_add_to_same (k : nat) (v : num) (o : list num) :
  add_to k v o !! k = (fun x => plus x v) <$> (o !! k).
Proof.
  unfold add_to, get. rewrite lookup_insert_same.
  destruct (o !! k); reflexivity.
Qed.

Lemma lookup_add_to_ne (k p : nat) (v : num) (o : list num) :
  k <> p -> add_to k v o !! p = o !! p.
Proof. intros H. unfold add_to. apply list_lookup_insert_ne, H. Qed.

Lemma length_add_to (k : nat) (v : num) (o : list num) :
  length (add_to k v o) = length o.
Proof. apply length_insert. Qed.

Lemma get_lookup (a : list num) (k : nat) (x : num) :
  a !! k = Some x -> get a k = x.
Proof. unfold get. intros ->. reflexivity. Qed.

(** *** [fill] on a range *)

Lemma lookup_fill_range_out (v : num) (s e p : nat) (o : list num) :
  ~ (s <= p < e) -> fill_range v s e o !! p = o !! p.
Proof.
  intros Hp. unfold fill_range. apply for_loop_preserves.
  intros d t Hd. apply list_lookup_insert_ne. lia.
Qed.

Lemma lookup_fill_range_in (v : num) (s e p : nat) (o : list num) :
  s <= p < e -> fill_range v s e o !! p = (fun _ => v) <$> (o !! p).
Proof.
  intros Hp. unfold fill_range.
  apply (for_loop_lookup_once _ _ (fun c => (fun _ => v) <$> c) (p - s)).
  - lia.
  - intros t. replace (s + (p - s)) with p by lia. apply lookup_insert_same.
  - intros d t Hd Hne. apply list_lookup_insert_ne. lia.
Qed.

Lemma length_fill_range (v : num) (s e : nat) (o : list num) :
  length (fill_range v s e o) = length o.
Proof.
  unfold fill_range. apply for_loop_length. intros. apply length_insert.
Qed.

(** *** Addresses *)

(** The cell of row [i] and column [j] of a matrix of stride [st]. *)
Definition at_ (st i j : nat) : nat := j * st + i.

(** Two addresses of logical cells coincide only for the same cell. *)
Lemma at_inj (st r i j i' j' : nat) :
  r <= st -> i < r -> i' < r -> j * st + i = j' * st + i' -> i = i' /\ j = j'.
Proof.
  intros Hst Hi Hi' Heq.
  assert (j = j') as -> by nia. lia.
Qed.

(** The padding of the columns of the output: the cells
    [j * stride + rows .. j * stride + stride - 1] of each column [j]. *)
Definition padding (header : Header) (p : nat) : Prop :=
  exists j, j < columns header /\
    j * stride header + rows header <= p < j * stride header + stride header.

(** A logical address is never a padding address. *)
Lemma padding_not_logical (header : Header) (p c i : nat) :
  padding header p -> i < rows header -> p <> c * stride header + i.
Proof.
  intros (j & Hj & Hlo & Hhi) Hi Heq. subst p.
  assert (c = j) by nia. subst c. lia.
Qed.

(** *** Only the logical region is written *)

(** The logical cells of the output lie inside [header.length] cells. *)
Definition fits (header : Header) : Prop :=
  forall i j, i < rows header -> j < columns header ->
    j * stride header + i < length_ header.


(** The number of input matrices of an operation. *)
Definition arity (op : Opcode) : nat :=
  match op with
  | NOP | FILL => 0
  | COPY | TRANSPOSE | SCALE => 1
  | ADD | SUBTRACT | MULTIPLY | COMPMULT | MULTIPLYLT | MULTIPLYRT => 2
  end.

(** A call whose header describes its buffers: [header.length] is the
    length of the output storage, in which the logical cells fit; the stride
    of the output is at least its number of rows; the header arrays have one
    entry per input and give the inputs' lengths; and the shape of a product
    is that of its operands: A B has the columns of B, A^T B the columns of
    A as rows and the columns of B, A B^T the rows of B as columns. *)
Record well_formed (op : Opcode) (header : Header)
    (output : list num) (inputs : list (list num)) : Prop := {
  wf_length : length_ header = length output;
  wf_fits : fits header;
  wf_stride : rows header <= stride header;
  wf_inputs : length inputs = arity op;
  wf_rowsOfInputs : length (rowsOfInputs header) = arity op;
  wf_columnsOfInputs : length (columnsOfInputs header) = arity op;
  wf_strideOfInputs : length (strideOfInputs header) = arity op;
  wf_lengthOfInputs : lengthOfInputs header = map length inputs;
  wf_multiply : op = MULTIPLY -> columnsOfInputs header !! 1 = Some (columns header);
  wf_multiplylt : op = MULTIPLYLT ->
    columnsOfInputs header !! 0 = Some (rows header) /\
    columnsOfInputs header !! 1 = Some (columns header);
  wf_multiplyrt : op = MULTIPLYRT -> rowsOfInputs header !! 1 = Some (columns header)
}.

Ltac hsimpl :=
  cbn [rows columns stride length_ rowsOfInputs columnsOfInputs strideOfInputs
       lengthOfInputs value scalar] in *;
  cbv beta iota zeta.

Ltac list_arity :=
  repeat match goal with
  | H : length ?l = _ |- _ =>
      is_var l; destruct l; cbn [length arity] in H; try discriminate H;
      try (apply Nat.succ_inj in H)
  end.


(** The logical region of the output: the cells of the rows [i < rows] of
    the columns [j < columns]. *)
Definition logical (header : Header) (p : nat) : Prop :=
  exists i j, i < rows header /\ j < columns header /\ p = j * stride header + i.

Lemma padding_outside_logical (header : Header) (p : nat) :
  padding header p -> ~ logical header p.
Proof.
  intros Hp (i & j & Hi & _ & Heq).
  exact (padding_not_logical header p j i Hp Hi Heq).
Qed.

Lemma outside_logical_ne (header : Header) (p i j : nat) :
  ~ logical header p -> i < rows header -> j < columns header ->
  p <> j * stride header + i.
Proof. intros Hnl Hi Hj Heq. apply Hnl. exists i, j. auto. Qed.

(** A packed storage is its logical region. *)
Lemma packed_logical (header : Header) (p : nat) :
  fits header -> rows header <= stride header ->
  rows header * columns header = length_ header ->
  p < length_ header -> logical header p.
Proof.
  intros Hfits Hst Hpk Hp.
  destruct (decide (rows header = 0)) as [Hr|Hr]; [lia|].
  destruct (decide (columns header <= 1)) as [Hc|Hc].
  - exists p, 0. repeat split; nia.
  - assert (stride header = rows header) as Hs
      by (specialize (Hfits (rows header - 1) (columns header - 1)); nia).
    exists (p mod rows header), (p / rows header).
    pose proof (Nat.div_mod p (rows header) Hr) as Hdm.
    pose proof (Nat.mod_upper_bound p (rows header) Hr) as Hm.
    repeat split; [exact Hm| |rewrite Hs; lia].
    apply Nat.Div0.div_lt_upper_bound. lia.
Qed.

Lemma fill_column_keeps_outside (header : Header) (v : num) (j p : nat) (o : list num) :
  ~ logical header p -> j < columns header ->
  fill_range v (j * stride header) (j * stride header + rows header) o !! p = o !! p.
Proof.
  intros Hnl Hj. apply lookup_fill_range_out. intros [Hlo Hhi].
  apply (outside_logical_ne header p (p - j * stride header) j Hnl); lia.
Qed.

Lemma clear_keeps_outside (header : Header) (p : nat) (o : list num) :
  fits header -> rows header <= stride header ->
  ~ logical header p -> clear header o !! p = o !! p.
Proof.
  intros Hfits Hst Hnl. unfold clear. cbn zeta beta iota.
  destruct (decide (rows header * columns header <> length_ header)) as [Hne|Heq].
  - apply for_loop_preserves. intros c t Hc. apply fill_column_keeps_outside; assumption.
  - apply lookup_fill_range_out. intros [_ Hp]. apply Hnl.
    apply packed_logical; try assumption. lia.
Qed.

Lemma accumulate_keeps_outside (header : Header) (k : nat)
    (f : nat -> num) (p : nat) (o : list num) :
  ~ logical header p -> k < columns header ->
  for_loop (rows header) (fun i out => add_to (k * stride header + i) (f i) out) o !! p
  = o !! p.
Proof.
  intros Hnl Hk. apply for_loop_preserves; intros i u Hi.
  apply lookup_add_to_ne. symmetry. apply outside_logical_ne; assumption.
Qed.

(** The stores of a loop nest over the rows and the columns of the output
    leave the cells outside the logical region alone. *)
Lemma stores_keep_outside (header : Header) (f : nat -> nat -> num)
    (p i j : nat) (o : list num) :
  ~ logical header p -> i < rows header -> j < columns header ->
  <[j * stride header + i := f j i]> o !! p = o !! p.
Proof.
  intros Hnl Hi Hj. apply list_lookup_insert_ne. symmetry.
  apply outside_logical_ne; assumption.
Qed.

(** C8: every routine of the interpreter, called with a header that
    describes its buffers, returns, and the output it leaves differs from
    the output it was given in the logical [rows] by [columns] region only:
    every other cell of the storage is unchanged, and so is in particular
    every padding cell [j * stride + rows .. j * stride + stride - 1] of a
    column [j < columns]. *)
Theorem padding_never_written (op : Opcode) (header : Header)
    (output : list num) (inputs : list (list num)) :
  well_formed op header output inputs ->
  exists out', Opcode2fun op header output inputs = Some out' /\
    (forall p, ~ logical header p -> out' !! p = output !! p) /\
    (forall p, padding header p -> out' !! p = output !! p).
Proof.
  intros Hwf.
  enough (exists out', Opcode2fun op header output inputs = Some out' /\
            forall p, ~ logical header p -> out' !! p = output !! p)
    as (out' & Hrun & Hout).
  { exists out'. split; [exact Hrun|]. split; [exact Hout|].
    intros p Hp. apply Hout, padding_outside_logical, Hp. }
  destruct Hwf as [Hlen Hfits Hst Hin HrI HcI HsI HlI Hmul Hlt Hrt].
  destruct header as [r c st len rI cI sI lI v s]. hsimpl.
  destruct op; cbn [Opcode2fun]; list_arity.
  - (* NOP *) eexists; split; [reflexivity|]. reflexivity.
  - (* FILL *)
    unfold fill; hsimpl. case_decide as Hpk.
    + eexists; split; [reflexivity|]. intros p Hnl.
      apply lookup_fill_range_out. intros [_ Hp]. apply Hnl.
      apply packed_logical; hsimpl; assumption.
    + eexists; split; [reflexivity|]. intros p Hnl.
      apply for_loop_preserves; intros j t Hj.
      apply (fill_column_keeps_outside _ _ _ _ _ Hnl Hj).
  - (* COPY *)
    unfold copy; hsimpl. case_decide as Hpk.
    + destruct Hpk as [Hl0 Hpk]. cbn in HlI. subst lI. cbn in Hl0.
      assert (length l = len) as Hl1 by congruence.
      unfold typed_set. case_decide; [|lia].
      eexists; split; [reflexivity|]. intros p Hnl.
      assert (len <= p) as Hge.
      { destruct (decide (len <= p)) as [|Hp]; [assumption|].
        exfalso. apply Hnl. apply packed_logical; hsimpl; try assumption. lia. }
      rewrite lookup_app_r by lia. rewrite lookup_drop. f_equal. lia.
    + eexists; split; [reflexivity|]. intros p Hnl.
      apply for_loop_preserves; intros j t Hj.
      apply for_loop_preserves; intros i u Hi.
      apply (stores_keep_outside _ (fun j i => get l (j * n + i)) p i j u Hnl Hi Hj).
  - (* TRANSPOSE *)
    unfold transpose; hsimpl.
    eexists; split; [reflexivity|]. intros p Hnl.
    apply for_loop_preserves; intros i t Hi.
    apply for_loop_preserves; intros j u Hj.
    apply (stores_keep_outside _ (fun j i => get l (i * n + j)) p i j u Hnl Hi Hj).
  - (* ADD *)
    unfold add, componentwise; hsimpl.
    eexists; split; [reflexivity|]. intros p Hnl.
    apply for_loop_preserves; intros j t Hj.
    apply for_loop_preserves; intros i u Hi.
    apply list_lookup_insert_ne. symmetry.
    apply (outside_logical_ne _ p i j Hnl Hi Hj).
  - (* SUBTRACT *)
    unfold subtract, componentwise; hsimpl.
    eexists; split; [reflexivity|]. intros p Hnl.
    apply for_loop_preserves; intros j t Hj.
    apply for_loop_preserves; intros i u Hi.
    apply list_lookup_insert_ne. symmetry.
    apply (outside_logical_ne _ p i j Hnl Hi Hj).
  - (* MULTIPLY *)
    unfold multiply; hsimpl.
    specialize (Hmul eq_refl). cbn in Hmul. inversion Hmul; subst.
    eexists; split; [reflexivity|]. intros p Hnl.
    rewrite <- (clear_keeps_outside _ p output Hfits Hst Hnl).
    apply for_loop_preserves; intros k t Hk.
    apply for_loop_preserves; intros j u Hj.
    apply (accumulate_keeps_outside _ k _ p u Hnl Hk).
  - (* SCALE *)
    unfold scale; hsimpl.
    eexists; split; [reflexivity|]. intros p Hnl.
    apply for_loop_preserves; intros j t Hj.
    apply for_loop_preserves; intros i u Hi.
    apply list_lookup_insert_ne. symmetry.
    apply (outside_logical_ne _ p i j Hnl Hi Hj).
  - (* COMPMULT *)
    unfold compmult, componentwise; hsimpl.
    eexists; split; [reflexivity|]. intros p Hnl.
    apply for_loop_preserves; intros j t Hj.
    apply for_loop_preserves; intros i u Hi.
    apply list_lookup_insert_ne. symmetry.
    apply (outside_logical_ne _ p i j Hnl Hi Hj).
  - (* MULTIPLYLT *)
    unfold multiplylt; hsimpl.
    destruct (Hlt eq_refl) as [Hrows Hcols]. cbn in Hrows, Hcols.
    inversion Hrows; inversion Hcols; subst.
    eexists; split; [reflexivity|]. intros p Hnl.
    apply for_loop_preserves; intros k t Hk.
    apply for_loop_preserves; intros j u Hj.
    assert (p <> k * st + j) as Hne by (apply (outside_logical_ne _ p j k Hnl Hj Hk)).
    rewrite <- (list_lookup_insert_ne u (k * st + j) p zero) by lia.
    apply for_loop_preserves; intros i w Hi.
    apply lookup_add_to_ne. lia.
  - (* MULTIPLYRT *)
    unfold multiplyrt; hsimpl.
    specialize (Hrt eq_refl). cbn in Hrt. inversion Hrt; subst.
    eexists; split; [reflexivity|]. intros p Hnl.
    rewrite <- (clear_keeps_outside _ p output Hfits Hst Hnl).
    apply for_loop_preserves; intros j t Hj.
    apply for_loop_preserves; intros k u Hk.
    apply (accumulate_keeps_outside _ k _ p u Hnl Hk).
Qed.


(** *** What the loop nests compute *)

(** The running sum [v + f 0 + f 1 + ... + f (n-1)], added in this order. *)
Definition sum_from (n : nat) (f : nat -> num) (v : num) : num :=
  foldl (fun acc j => plus acc (f j)) v (seq 0 n).

Lemma foldl_fmap_option {B : Type} (g : B -> num -> num) (l : list B) (o : option num) :
  foldl (fun v j => g j <$> v) o l = (fun x => foldl (fun acc j => g j acc) x l) <$> o.
Proof.
  revert o. induction l as [|j l IH]; intros o; cbn [foldl].
  - destruct o; reflexivity.
  - rewrite IH. destruct o; reflexivity.
Qed.

(** A column-by-column nest of plain stores. *)
Lemma lookup_stores_by_column (r c st : nat) (f : nat -> nat -> num)
    (o : list num) (i j : nat) :
  r <= st -> i < r -> j < c ->
  for_loop c (fun j out =>
    for_loop r (fun i out => <[j * st + i := f i j]> out) out) o !! (j * st + i)
  = (fun _ => f i j) <$> (o !! (j * st + i)).
Proof.
  intros Hst Hi Hj.
  apply (for_loop_lookup_once _ _ (fun v => (fun _ => f i j) <$> v) j); [exact Hj| |].
  - intros t.
    apply (for_loop_lookup_once _ _ (fun v => (fun _ => f i j) <$> v) i); [exact Hi| |].
    + intros u. apply lookup_insert_same.
    + intros i' u Hi' Hne. apply list_lookup_insert_ne. lia.
  - intros j' t Hj' Hne. apply for_loop_preserves. intros i' u Hi'.
    apply list_lookup_insert_ne. intros Heq.
    destruct (at_inj st r i' j' i j Hst Hi' Hi Heq). congruence.
Qed.

(** The row-by-row nest of [transpose]. *)
Lemma lookup_stores_by_row (r c st : nat) (f : nat -> nat -> num)
    (o : list num) (i j : nat) :
  r <= st -> i < r -> j < c ->
  for_loop r (fun i out =>
    for_loop c (fun j out => <[j * st + i := f i j]> out) out) o !! (j * st + i)
  = (fun _ => f i j) <$> (o !! (j * st + i)).
Proof.
  intros Hst Hi Hj.
  apply (for_loop_lookup_once _ _ (fun v => (fun _ => f i j) <$> v) i); [exact Hi| |].
  - intros t.
    apply (for_loop_lookup_once _ _ (fun v => (fun _ => f i j) <$> v) j); [exact Hj| |].
    + intros u. apply lookup_insert_same.
    + intros j' u Hj' Hne. apply list_lookup_insert_ne. intros Heq.
      destruct (at_inj st r i j' i j Hst Hi Hi Heq). congruence.
  - intros i' t Hi' Hne. apply for_loop_preserves. intros j' u Hj'.
    apply list_lookup_insert_ne. intros Heq.
    destruct (at_inj st r i' j' i j Hst Hi' Hi Heq). congruence.
Qed.

(** The clearing step zeroes every logical cell of the storage. *)
Lemma lookup_clear (header : Header) (o : list num) (i j : nat) :
  length_ header = length o -> rows header <= stride header ->
  i < rows header -> j < columns header ->
  clear header o !! (j * stride header + i)
  = (fun _ => zero) <$> (o !! (j * stride header + i)).
Proof.
  intros Hlen Hst Hi Hj. unfold clear. cbv beta iota zeta.
  case_decide as Hpk.
  - apply (for_loop_lookup_once _ _ (fun v => (fun _ => zero) <$> v) j); [exact Hj| |].
    + intros t. apply lookup_fill_range_in. lia.
    + intros c t Hc Hne. apply lookup_fill_range_out. intros [Hlo Hhi].
      destruct (at_inj (stride header) (rows header)
                  (j * stride header + i - c * stride header) c i j);
        [assumption|lia|assumption|lia|congruence].
  - destruct (decide (j * stride header + i < length_ header)) as [Hin|Hout].
    + apply lookup_fill_range_in. lia.
    + rewrite lookup_fill_range_out by lia.
      rewrite (lookup_ge_None_2 o) by lia. reflexivity.
Qed.

(** One column of the accumulation of [multiply] and [multiplyrt]: each
    logical cell of column [k] receives [n] further terms. *)
Lemma lookup_accumulate_column (r st n k : nat) (f : nat -> nat -> num)
    (o : list num) (i : nat) :
  i < r ->
  for_loop n (fun j out =>
    for_loop r (fun i out => add_to (k * st + i) (f i j) out) out) o !! (k * st + i)
  = sum_from n (f i) <$> (o !! (k * st + i)).
Proof.
  intros Hi.
  rewrite (for_loop_lookup _ _ (fun j v => (fun x => plus x (f i j)) <$> v)).
  - unfold sum_from. apply (foldl_fmap_option (fun j x => plus x (f i j))).
  - intros j t Hj.
    apply (for_loop_lookup_once _ _ (fun v => (fun x => plus x (f i j)) <$> v) i);
      [exact Hi| |].
    + intros u. apply lookup_add_to_same.
    + intros i' u Hi' Hne. apply lookup_add_to_ne. lia.
Qed.

Lemma accumulate_column_other (r st n k : nat) (f : nat -> nat -> num)
    (o : list num) (p : nat) :
  (forall i, i < r -> p <> k * st + i) ->
  for_loop n (fun j out =>
    for_loop r (fun i out => add_to (k * st + i) (f i j) out) out) o !! p
  = o !! p.
Proof.
  intros Hp. apply for_loop_preserves; intros j t Hj.
  apply for_loop_preserves; intros i u Hi.
  apply lookup_add_to_ne. intros Heq. apply (Hp i Hi). congruence.
Qed.


(** The innermost loop of [multiplylt]: [n] terms added to one cell. *)
Lemma lookup_accumulate_cell (n p : nat) (g : nat -> num) (o : list num) :
  for_loop n (fun i out => add_to p (g i) out) o !! p = sum_from n g <$> (o !! p).
Proof.
  rewrite (for_loop_lookup _ _ (fun i v => (fun x => plus x (g i)) <$> v)).
  - unfold sum_from. apply (foldl_fmap_option (fun i x => plus x (g i))).
  - intros i t Hi. apply lookup_add_to_same.
Qed.

Lemma accumulate_cell_other (n p q : nat) (g : nat -> num) (o : list num) :
  p <> q -> for_loop n (fun i out => add_to p (g i) out) o !! q = o !! q.
Proof.
  intros Hne. apply for_loop_preserves; intros i t Hi.
  apply lookup_add_to_ne, Hne.
Qed.

(** The loop nest of [multiply], after the clearing step. *)
Lemma lookup_multiply_nest (r st cA cB sA sB : nat) (a b o : list num) (i k : nat) :
  r <= st -> i < r -> k < cB ->
  for_loop cB (fun k out =>
    for_loop cA (fun j out =>
      for_loop r (fun i out =>
        add_to (k * st + i) (times (get a (j * sA + i)) (get b (k * sB + j))) out)
      out) out) o !! (k * st + i)
  = sum_from cA (fun j => times (get a (j * sA + i)) (get b (k * sB + j)))
      <$> (o !! (k * st + i)).
Proof.
  intros Hst Hi Hk.
  apply (for_loop_lookup_once _ _
           (fun v => sum_from cA (fun j => times (get a (j * sA + i)) (get b (k * sB + j)))
                       <$> v) k); [exact Hk| |].
  - intros t.
    apply (lookup_accumulate_column r st cA k
             (fun i j => times (get a (j * sA + i)) (get b (k * sB + j))) t i Hi).
  - intros k' t Hk' Hne.
    apply (accumulate_column_other r st cA k'
             (fun i j => times (get a (j * sA + i)) (get b (k' * sB + j))) t).
    intros i' Hi' Heq.
    destruct (at_inj st r i k i' k' Hst Hi Hi' Heq). congruence.
Qed.

(** The loop nest of [multiplylt]. *)
Lemma lookup_multiplylt_nest (st cA cB rB sA sB : nat) (a b o : list num) (j k : nat) :
  cA <= st -> j < cA -> k < cB ->
  for_loop cB (fun k out =>
    for_loop cA (fun j out =>
      for_loop rB (fun i out =>
        add_to (k * st + j) (times (get a (j * sA + i)) (get b (k * sB + i))) out)
      (<[k * st + j := zero]> out)) out) o !! (k * st + j)
  = (fun _ => sum_from rB (fun i => times (get a (j * sA + i)) (get b (k * sB + i))) zero)
      <$> (o !! (k * st + j)).
Proof.
  intros Hst Hj Hk.
  set (G := fun v : option num =>
    (fun _ : num => sum_from rB (fun i => times (get a (j * sA + i)) (get b (k * sB + i))) zero)
      <$> v).
  apply (for_loop_lookup_once _ _ G k); [exact Hk| |].
  - intros t. apply (for_loop_lookup_once _ _ G j); [exact Hj| |].
    + intros u. rewrite lookup_accumulate_cell, lookup_insert_same.
      unfold G. destruct (u !! (k * st + j)); reflexivity.
    + intros j' u Hj' Hne.
      rewrite accumulate_cell_other by lia.
      apply list_lookup_insert_ne. lia.
  - intros k' t Hk' Hne. apply for_loop_preserves; intros j' u Hj'.
    assert (k' * st + j' <> k * st + j) as Hd.
    { intros Heq. destruct (at_inj st cA j' k' j k Hst Hj' Hj Heq). congruence. }
    rewrite accumulate_cell_other by exact Hd.
    apply list_lookup_insert_ne, Hd.
Qed.

(** C7, on the logical cells of the product: [multiplylt] on A and B leaves
    what [multiply] leaves on the output of [transpose] on A, and on B,
    whatever the strides of A, of B, of the transposed matrix and of the
    output, and whatever the outputs held before. A is [rA] by [cA], B is
    [rA] by [cB]; the same terms are added in the same order, so the equality
    holds for any arithmetic. *)
Theorem multiplylt_is_multiply_of_transpose
    (rA cA cB sA sB sT s : nat) (a b outT out1 out2 : list num) :
  cA <= sT -> cA <= s ->
  (forall i j, i < cA -> j < rA -> j * sT + i < length outT) ->
  length out1 = length out2 ->
  let hT := {| rows := cA; columns := rA; stride := sT; length_ := length outT;
               rowsOfInputs := [rA]; columnsOfInputs := [cA];
               strideOfInputs := [sA]; lengthOfInputs := [length a];
               value := zero; scalar := zero |} in
  let hM := {| rows := cA; columns := cB; stride := s; length_ := length out1;
               rowsOfInputs := [cA; rA]; columnsOfInputs := [rA; cB];
               strideOfInputs := [sT; sB]; lengthOfInputs := [length outT; length b];
               value := zero; scalar := zero |} in
  let hLT := {| rows := cA; columns := cB; stride := s; length_ := length out2;
                rowsOfInputs := [rA; rA]; columnsOfInputs := [cA; cB];
                strideOfInputs := [sA; sB]; lengthOfInputs := [length a; length b];
                value := zero; scalar := zero |} in
  exists t m lt,
    transpose hT outT [a] = Some t /\
    multiply hM out1 [t; b] = Some m /\
    multiplylt hLT out2 [a; b] = Some lt /\
    forall i k, i < cA -> k < cB ->
      m !! (k * s + i) = lt !! (k * s + i) /\
      (k * s + i < length out2 ->
       lt !! (k * s + i)
       = Some (sum_from rA (fun j => times (get a (i * sA + j)) (get b (k * sB + j))) zero)).
Proof.
  intros HsT Hs HfitT Hlen hT hM hLT.
  eexists _, _, _. split; [reflexivity|]. split; [reflexivity|]. split; [reflexivity|].
  intros i k Hi Hk.
  pose proof (lookup_clear hM out1 i k eq_refl Hs Hi Hk) as Hclear.
  subst hT hM hLT. hsimpl.
  rewrite (lookup_multiply_nest cA s rA cB sT sB _ b _ i k Hs Hi Hk).
  rewrite Hclear. clear Hclear.
  rewrite (lookup_multiplylt_nest s cA cB rA sA sB a b out2 i k Hs Hi Hk).
  assert (forall j, j < rA ->
    get (for_loop cA (fun i0 out =>
           for_loop rA (fun j0 out0 => <[j0 * sT + i0 := get a (i0 * sA + j0)]> out0) out)
         outT) (j * sT + i) = get a (i * sA + j)) as HT.
  { intros j Hj. apply get_lookup.
    rewrite (lookup_stores_by_row cA rA sT (fun i0 j0 => get a (i0 * sA + j0))
               outT i j HsT Hi Hj).
    destruct (lookup_lt_is_Some_2 outT (j * sT + i) (HfitT i j Hi Hj)) as [x ->].
    reflexivity. }
  assert (forall v,
    sum_from rA (fun j => times (get (for_loop cA (fun i0 out =>
           for_loop rA (fun j0 out0 => <[j0 * sT + i0 := get a (i0 * sA + j0)]> out0) out)
         outT) (j * sT + i)) (get b (k * sB + j))) v
    = sum_from rA (fun j => times (get a (i * sA + j)) (get b (k * sB + j))) v) as Hsum.
  { intros v. unfold sum_from.
    assert (forall n, n <= rA -> forall l, l = seq 0 n ->
      foldl (fun acc j => plus acc (times (get (for_loop cA (fun i0 out =>
           for_loop rA (fun j0 out0 => <[j0 * sT + i0 := get a (i0 * sA + j0)]> out0) out)
         outT) (j * sT + i)) (get b (k * sB + j)))) v l
      = foldl (fun acc j => plus acc (times (get a (i * sA + j)) (get b (k * sB + j)))) v l)
      as Hgen.
    { induction n as [|n IH]; intros Hn l ->.
      - reflexivity.
      - rewrite seq_S, !foldl_app. cbn [foldl Nat.add].
        rewrite (IH ltac:(lia) _ eq_refl). rewrite HT by lia. reflexivity. }
    apply (Hgen rA (le_n _) _ eq_refl). }
  assert (out1 !! (k * s + i) = None <-> out2 !! (k * s + i) = None) as Hnone.
  { rewrite !lookup_ge_None. lia. }
  pose proof (lookup_lt_is_Some out2 (k * s + i)) as Hin.
  destruct (out1 !! (k * s + i)) as [x|], (out2 !! (k * s + i)) as [y|]; cbn.
  - rewrite Hsum. split; reflexivity.
  - destruct Hnone as [_ H]. discriminate (H eq_refl).
  - destruct Hnone as [H _]. discriminate (H eq_refl).
  - split; [reflexivity|]. intros Hlt. apply Hin in Hlt. destruct Hlt; discriminate.
Qed.

(** What [scale] leaves in a logical cell: the product of the scalar and
    the cell of [input] at the same address, the address being computed
    with the stride of the output. *)
Lemma scale_lookup (header : Header) (output input out' : list num)
    (rest : list (list num)) (i j : nat) :
  rows header <= stride header -> i < rows header -> j < columns header ->
  scale header output (input :: rest) = Some out' ->
  out' !! (j * stride header + i)
  = (fun _ => times (get input (j * stride header + i)) (scalar header))
      <$> (output !! (j * stride header + i)).
Proof.
  intros Hst Hi Hj H. unfold scale in H. cbv beta iota zeta in H.
  inversion H; subst out'; clear H.
  apply (lookup_stores_by_column (rows header) (columns header) (stride header)
           (fun i j => times (get input (j * stride header + i)) (scalar header))
           output i j Hst Hi Hj).
Qed.


(** *** What each routine leaves in the logical cells *)

(** A header that describes the output: [header.length] is the length of
    the storage, the logical cells fit in it, and the stride is at least the
    number of rows. *)
Record output_ok (header : Header) (output : list num) : Prop := {
  out_length : length_ header = length output;
  out_fits : fits header;
  out_stride : rows header <= stride header
}.

Lemma logical_cell_inside (header : Header) (output : list num) (i j : nat) :
  output_ok header output -> i < rows header -> j < columns header ->
  j * stride header + i < length output.
Proof.
  intros [Hlen Hfits _] Hi Hj. rewrite <- Hlen. apply Hfits; assumption.
Qed.

(** A packed storage that holds more than one column has the stride of
    its rows. *)
Lemma packed_address (r c st len i j : nat) :
  r <= st -> r * c = len -> i < r -> j < c ->
  (forall i' j', i' < r -> j' < c -> j' * st + i' < len) ->
  j * st + i = j * r + i.
Proof.
  intros Hst Hpk Hi Hj Hfits.
  destruct (decide (j = 0)) as [->|Hj0]; [lia|].
  specialize (Hfits (r - 1) (c - 1) ltac:(lia) ltac:(lia)).
  assert (st = r) by nia. subst st. reflexivity.
Qed.

Lemma lookup_fill (header : Header) (output : list num) (inputs : list (list num))
    (i j : nat) :
  output_ok header output -> i < rows header -> j < columns header ->
  exists out', fill header output inputs = Some out' /\
    out' !! (j * stride header + i) = Some (value header).
Proof.
  intros Hok Hi Hj.
  pose proof (logical_cell_inside header output i j Hok Hi Hj) as Hin.
  destruct Hok as [Hlen Hfits Hst].
  destruct (lookup_lt_is_Some_2 output _ Hin) as [x Hx].
  unfold fill. cbv beta iota zeta. case_decide as Hpk.
  - eexists. split; [reflexivity|].
    rewrite lookup_fill_range_in by lia. rewrite Hx. reflexivity.
  - eexists. split; [reflexivity|].
    rewrite (for_loop_lookup_once _ _ (fun v => (fun _ => value header) <$> v) j);
      [rewrite Hx; reflexivity | exact Hj | |].
    + intros t. apply lookup_fill_range_in. lia.
    + intros c t Hc Hne. apply lookup_fill_range_out. intros [Hlo Hhi].
      destruct (at_inj (stride header) (rows header)
                  (j * stride header + i - c * stride header) c i j);
        [assumption|lia|assumption|lia|congruence].
Qed.

Lemma lookup_copy (header : Header) (output input : list num) (strideI : nat)
    (strides : list nat) (inputs : list (list num)) (i j : nat) :
  output_ok header output ->
  strideOfInputs header = strideI :: strides ->
  lengthOfInputs header !! 0 = Some (length input) ->
  rows header <= strideI ->
  (forall i' j', i' < rows header -> j' < columns header ->
     j' * strideI + i' < length input) ->
  i < rows header -> j < columns header ->
  exists out', copy header output (input :: inputs) = Some out' /\
    out' !! (j * stride header + i) = input !! (j * strideI + i).
Proof.
  intros Hok HsI HlI HstI HfitI Hi Hj.
  pose proof (logical_cell_inside header output i j Hok Hi Hj) as Hin.
  destruct Hok as [Hlen Hfits Hst].
  unfold copy. cbv beta iota zeta. rewrite HsI. case_decide as Hpk.
  - destruct Hpk as [Hl0 Hpk]. rewrite HlI in Hl0. inversion Hl0 as [Hli].
    unfold typed_set. case_decide; [|lia].
    eexists. split; [reflexivity|].
    rewrite lookup_app_l by lia. f_equal.
    rewrite (packed_address (rows header) (columns header) (stride header)
               (length_ header) i j Hst Hpk Hi Hj Hfits).
    rewrite (packed_address (rows header) (columns header) strideI
               (length_ header) i j HstI Hpk Hi Hj); [reflexivity|].
    intros i' j' Hi' Hj'. rewrite <- Hli. apply HfitI; assumption.
  - eexists. split; [reflexivity|].
    rewrite (lookup_stores_by_column (rows header) (columns header) (stride header)
               (fun i j => get input (j * strideI + i)) output i j Hst Hi Hj).
    destruct (lookup_lt_is_Some_2 output _ Hin) as [x ->].
    destruct (lookup_lt_is_Some_2 input _ (HfitI i j Hi Hj)) as [v Hv].
    rewrite Hv, (get_lookup _ _ _ Hv). reflexivity.
Qed.

Lemma lookup_transpose (header : Header) (output input : list num) (strideT : nat)
    (strides : list nat) (inputs : list (list num)) (i j : nat) :
  strideOfInputs header = strideT :: strides ->
  rows header <= stride header -> i < rows header -> j < columns header ->
  exists out', transpose header output (input :: inputs) = Some out' /\
    out' !! (j * stride header + i)
    = (fun _ => get input (i * strideT + j)) <$> (output !! (j * stride header + i)).
Proof.
  intros HsT Hst Hi Hj. unfold transpose. cbv beta iota zeta. rewrite HsT.
  eexists. split; [reflexivity|].
  apply (lookup_stores_by_row (rows header) (columns header) (stride header)
           (fun i j => get input (i * strideT + j)) output i j Hst Hi Hj).
Qed.

Lemma lookup_componentwise (op : num -> num -> num) (header : Header)
    (output a b : list num) (strideA strideB : nat) (strides : list nat)
    (inputs : list (list num)) (i j : nat) :
  strideOfInputs header = strideA :: strideB :: strides ->
  rows header <= stride header -> i < rows header -> j < columns header ->
  exists out', componentwise op header output (a :: b :: inputs) = Some out' /\
    out' !! (j * stride header + i)
    = (fun _ => op (get a (j * strideA + i)) (get b (j * strideB + i)))
        <$> (output !! (j * stride header + i)).
Proof.
  intros Hs Hst Hi Hj. unfold componentwise. cbv beta iota zeta. rewrite Hs.
  eexists. split; [reflexivity|].
  apply (lookup_stores_by_column (rows header) (columns header) (stride header)
           (fun i j => op (get a (j * strideA + i)) (get b (j * strideB + i)))
           output i j Hst Hi Hj).
Qed.

Lemma lookup_multiply (header : Header) (output a b : list num)
    (columnsA columnsB strideA strideB : nat) (cols strides : list nat)
    (inputs : list (list num)) (i k : nat) :
  columnsOfInputs header = columnsA :: columnsB :: cols ->
  strideOfInputs header = strideA :: strideB :: strides ->
  length_ header = length output -> rows header <= stride header ->
  i < rows header -> k < columns header -> k < columnsB ->
  exists out', multiply header output (a :: b :: inputs) = Some out' /\
    out' !! (k * stride header + i)
    = (fun _ => sum_from columnsA
                  (fun j => times (get a (j * strideA + i)) (get b (k * strideB + j))) zero)
        <$> (output !! (k * stride header + i)).
Proof.
  intros Hc Hs Hlen Hst Hi Hk HkB. unfold multiply. cbv beta iota zeta.
  rewrite Hc, Hs. eexists. split; [reflexivity|].
  rewrite (lookup_multiply_nest (rows header) (stride header) columnsA columnsB
             strideA strideB a b _ i k Hst Hi HkB).
  rewrite (lookup_clear header output i k Hlen Hst Hi Hk).
  destruct (output !! (k * stride header + i)); reflexivity.
Qed.

(** The loop nest of [multiplyrt], after the clearing step. *)
Lemma lookup_multiplyrt_nest (r st cA rB sA sB : nat) (a b o : list num) (i k : nat) :
  r <= st -> i < r -> k < rB ->
  for_loop cA (fun j out =>
    for_loop rB (fun k out =>
      for_loop r (fun i out =>
        add_to (k * st + i) (times (get a (j * sA + i)) (get b (j * sB + k))) out)
      out) out) o !! (k * st + i)
  = sum_from cA (fun j => times (get a (j * sA + i)) (get b (j * sB + k)))
      <$> (o !! (k * st + i)).
Proof.
  intros Hst Hi Hk.
  rewrite (for_loop_lookup _ _
             (fun j v => (fun x => plus x (times (get a (j * sA + i)) (get b (j * sB + k))))
                           <$> v)).
  - unfold sum_from.
    apply (foldl_fmap_option
             (fun j x => plus x (times (get a (j * sA + i)) (get b (j * sB + k))))).
  - intros j t Hj.
    apply (for_loop_lookup_once _ _
             (fun v => (fun x => plus x (times (get a (j * sA + i)) (get b (j * sB + k))))
                         <$> v) k); [exact Hk| |].
    + intros w.
      apply (for_loop_lookup_once _ _
               (fun v => (fun x => plus x (times (get a (j * sA + i)) (get b (j * sB + k))))
                           <$> v) i); [exact Hi| |].
      * intros w'. apply lookup_add_to_same.
      * intros i' w' Hi' Hne. apply lookup_add_to_ne. lia.
    + intros k' w Hk' Hne. apply for_loop_preserves. intros i' w' Hi'.
      apply lookup_add_to_ne. intros Heq.
      destruct (at_inj st r i' k' i k Hst Hi' Hi Heq). congruence.
Qed.

Lemma lookup_multiplyrt (header : Header) (output a b : list num)
    (columnsA columnsB rowsA rowsB strideA strideB : nat) (cols rws strides : list nat)
    (inputs : list (list num)) (i k : nat) :
  columnsOfInputs header = columnsA :: columnsB :: cols ->
  rowsOfInputs header = rowsA :: rowsB :: rws ->
  strideOfInputs header = strideA :: strideB :: strides ->
  length_ header = length output -> rows header <= stride header ->
  i < rows header -> k < columns header -> k < rowsB ->
  exists out', multiplyrt header output (a :: b :: inputs) = Some out' /\
    out' !! (k * stride header + i)
    = (fun _ => sum_from columnsA
                  (fun j => times (get a (j * strideA + i)) (get b (j * strideB + k))) zero)
        <$> (output !! (k * stride header + i)).
Proof.
  intros Hc Hr Hs Hlen Hst Hi Hk HkB. unfold multiplyrt. cbv beta iota zeta.
  rewrite Hc, Hr, Hs. eexists. split; [reflexivity|].
  rewrite (lookup_multiplyrt_nest (rows header) (stride header) columnsA rowsB
             strideA strideB a b _ i k Hst Hi HkB).
  rewrite (lookup_clear header output i k Hlen Hst Hi Hk).
  destruct (output !! (k * stride header + i)); reflexivity.
Qed.


Ltac same_output Hrun Hrun' :=
  rewrite Hrun in Hrun'; inversion Hrun'; subst; clear Hrun'.

(** FILL: called with a header that describes the output, [fill] returns and
    leaves [header.custom.value] in every logical cell, by the contiguous
    path as well as column by column. *)
Theorem fill_sets_every_logical_cell (header : Header) (output : list num)
    (inputs : list (list num)) :
  output_ok header output ->
  exists out', Opcode2fun FILL header output inputs = Some out' /\
    forall i j, i < rows header -> j < columns header ->
      out' !! (j * stride header + i) = Some (value header).
Proof.
  intros Hok. cbn [Opcode2fun].
  assert (exists out', fill header output inputs = Some out') as [out' Hrun]
    by (unfold fill; cbv beta iota zeta; case_decide; eexists; reflexivity).
  exists out'. split; [exact Hrun|]. intros i j Hi Hj.
  destruct (lookup_fill header output inputs i j Hok Hi Hj) as (o & Hrun' & Hcell).
  same_output Hrun Hrun'. exact Hcell.
Qed.

(** COPY: with a header that describes the output and the input, whose
    strides may differ, [copy] returns and every logical cell of the output
    holds the cell of the input of the same row and column; the contiguous
    path is taken only when that is what copying the storage does. *)
Theorem copy_is_cell_by_cell (header : Header) (output input : list num)
    (strideI : nat) (strides : list nat) (inputs : list (list num)) :
  output_ok header output ->
  strideOfInputs header = strideI :: strides ->
  lengthOfInputs header !! 0 = Some (length input) ->
  rows header <= strideI ->
  (forall i j, i < rows header -> j < columns header ->
     j * strideI + i < length input) ->
  exists out', Opcode2fun COPY header output (input :: inputs) = Some out' /\
    forall i j, i < rows header -> j < columns header ->
      out' !! (j * stride header + i) = input !! (j * strideI + i).
Proof.
  intros Hok HsI HlI HstI HfitI. cbn [Opcode2fun].
  assert (exists out', copy header output (input :: inputs) = Some out') as [out' Hrun].
  { unfold copy. cbv beta iota zeta. rewrite HsI. case_decide as Hpk.
    - destruct Hpk as [Hl0 Hpk]. rewrite HlI in Hl0. inversion Hl0 as [Hli].
      destruct Hok as [Hlen _ _]. unfold typed_set. case_decide; [|lia].
      eexists; reflexivity.
    - eexists; reflexivity. }
  exists out'. split; [exact Hrun|]. intros i j Hi Hj.
  destruct (lookup_copy header output input strideI strides inputs i j
              Hok HsI HlI HstI HfitI Hi Hj) as (o & Hrun' & Hcell).
  same_output Hrun Hrun'. exact Hcell.
Qed.

(** ADD, SUBTRACT and COMPMULT: every logical cell of the output that lies
    in its storage holds the sum, the difference or the product of the cells
    of the two inputs of the same row and column, each input addressed with
    its own stride. *)
Theorem componentwise_routines (header : Header) (output a b : list num)
    (strideA strideB : nat) (strides : list nat) (inputs : list (list num)) :
  strideOfInputs header = strideA :: strideB :: strides ->
  rows header <= stride header ->
  exists sum difference product,
    Opcode2fun ADD header output (a :: b :: inputs) = Some sum /\
    Opcode2fun SUBTRACT header output (a :: b :: inputs) = Some difference /\
    Opcode2fun COMPMULT header output (a :: b :: inputs) = Some product /\
    forall i j, i < rows header -> j < columns header ->
      j * stride header + i < length output ->
      sum !! (j * stride header + i)
        = Some (plus (get a (j * strideA + i)) (get b (j * strideB + i))) /\
      difference !! (j * stride header + i)
        = Some (minus (get a (j * strideA + i)) (get b (j * strideB + i))) /\
      product !! (j * stride header + i)
        = Some (times (get a (j * strideA + i)) (get b (j * strideB + i))).
Proof.
  intros Hs Hst. cbn [Opcode2fun]. unfold add, subtract, compmult.
  assert (forall op, exists out',
            componentwise op header output (a :: b :: inputs) = Some out') as Hrun
    by (intros op; unfold componentwise; cbv beta iota zeta; rewrite Hs;
        eexists; reflexivity).
  destruct (Hrun plus) as [s Hsum], (Hrun minus) as [d Hdiff], (Hrun times) as [p Hprod].
  exists s, d, p. repeat split; try assumption.
  - destruct (lookup_componentwise plus header output a b strideA strideB strides
                inputs i j Hs Hst H H0) as (o & Hrun' & Hcell).
    same_output Hsum Hrun'. rewrite Hcell.
    destruct (lookup_lt_is_Some_2 output _ H1) as [x ->]. reflexivity.
  - destruct (lookup_componentwise minus header output a b strideA strideB strides
                inputs i j Hs Hst H H0) as (o & Hrun' & Hcell).
    same_output Hdiff Hrun'. rewrite Hcell.
    destruct (lookup_lt_is_Some_2 output _ H1) as [x ->]. reflexivity.
  - destruct (lookup_componentwise times header output a b strideA strideB strides
                inputs i j Hs Hst H H0) as (o & Hrun' & Hcell).
    same_output Hprod Hrun'. rewrite Hcell.
    destruct (lookup_lt_is_Some_2 output _ H1) as [x ->]. reflexivity.
Qed.

(** SCALE: when the input has the stride of the output, every logical cell
    of the output in its storage holds the cell of the input of the same row
    and column times the scalar. *)
Theorem scale_with_equal_strides (header : Header) (output input : list num)
    (strideI : nat) (strides : list nat) (inputs : list (list num)) :
  strideOfInputs header = strideI :: strides ->
  strideI = stride header ->
  rows header <= stride header ->
  exists out', Opcode2fun SCALE header output (input :: inputs) = Some out' /\
    forall i j, i < rows header -> j < columns header ->
      j * stride header + i < length output ->
      out' !! (j * stride header + i)
      = Some (times (get input (j * strideI + i)) (scalar header)).
Proof.
  intros _ -> Hst. cbn [Opcode2fun].
  assert (exists out', scale header output (input :: inputs) = Some out') as [out' Hrun]
    by (unfold scale; cbv beta iota zeta; eexists; reflexivity).
  exists out'. split; [exact Hrun|]. intros i j Hi Hj Hin.
  rewrite (scale_lookup header output input out' inputs i j Hst Hi Hj Hrun).
  destruct (lookup_lt_is_Some_2 output _ Hin) as [x ->]. reflexivity.
Qed.

(** MULTIPLY: every logical cell of the product in the storage of the output
    holds the sum over [j] of A[i,j] * B[j,k], added in the order of [j]
    from zero, whatever the output held before. *)
Theorem multiply_cells (header : Header) (output a b : list num)
    (columnsA columnsB strideA strideB : nat) (cols strides : list nat)
    (inputs : list (list num)) :
  columnsOfInputs header = columnsA :: columnsB :: cols ->
  strideOfInputs header = strideA :: strideB :: strides ->
  columns header = columnsB ->
  length_ header = length output -> rows header <= stride header ->
  exists out', Opcode2fun MULTIPLY header output (a :: b :: inputs) = Some out' /\
    forall i k, i < rows header -> k < columns header ->
      k * stride header + i < length output ->
      out' !! (k * stride header + i)
      = Some (sum_from columnsA
                (fun j => times (get a (j * strideA + i)) (get b (k * strideB + j))) zero).
Proof.
  intros Hc Hs Hcols Hlen Hst. cbn [Opcode2fun].
  assert (exists out', multiply header output (a :: b :: inputs) = Some out') as [out' Hrun]
    by (unfold multiply; cbv beta iota zeta; rewrite Hc, Hs; eexists; reflexivity).
  exists out'. split; [exact Hrun|]. intros i k Hi Hk Hin.
  destruct (lookup_multiply header output a b columnsA columnsB strideA strideB cols
              strides inputs i k Hc Hs Hlen Hst Hi Hk ltac:(lia)) as (o & Hrun' & Hcell).
  same_output Hrun Hrun'. rewrite Hcell.
  destruct (lookup_lt_is_Some_2 output _ Hin) as [x ->]. reflexivity.
Qed.

(** MULTIPLYRT: every logical cell of the product in the storage of the
    output holds the sum over [j] of A[i,j] * B[k,j], whatever the output
    held before. *)
Theorem multiplyrt_cells (header : Header) (output a b : list num)
    (columnsA columnsB rowsA rowsB strideA strideB : nat) (cols rws strides : list nat)
    (inputs : list (list num)) :
  columnsOfInputs header = columnsA :: columnsB :: cols ->
  rowsOfInputs header = rowsA :: rowsB :: rws ->
  strideOfInputs header = strideA :: strideB :: strides ->
  columns header = rowsB ->
  length_ header = length output -> rows header <= stride header ->
  exists out', Opcode2fun MULTIPLYRT header output (a :: b :: inputs) = Some out' /\
    forall i k, i < rows header -> k < columns header ->
      k * stride header + i < length output ->
      out' !! (k * stride header + i)
      = Some (sum_from columnsA
                (fun j => times (get a (j * strideA + i)) (get b (j * strideB + k))) zero).
Proof.
  intros Hc Hr Hs Hcols Hlen Hst. cbn [Opcode2fun].
  assert (exists out', multiplyrt header output (a :: b :: inputs) = Some out')
    as [out' Hrun]
    by (unfold multiplyrt; cbv beta iota zeta; rewrite Hc, Hr, Hs; eexists; reflexivity).
  exists out'. split; [exact Hrun|]. intros i k Hi Hk Hin.
  destruct (lookup_multiplyrt header output a b columnsA columnsB rowsA rowsB
              strideA strideB cols rws strides inputs i k Hc Hr Hs Hlen Hst Hi Hk
              ltac:(lia)) as (o & Hrun' & Hcell).
  same_output Hrun Hrun'. rewrite Hcell.
  destruct (lookup_lt_is_Some_2 output _ Hin) as [x ->]. reflexivity.
Qed.


(** TRANSPOSE: every logical cell of the output in its storage, of row [i]
    and column [j], holds the cell of the input of row [j] and column [i],
    read with the stride of the input. *)
Theorem transpose_cells (header : Header) (output input : list num)
    (strideT : nat) (strides : list nat) (inputs : list (list num)) :
  strideOfInputs header = strideT :: strides ->
  rows header <= stride header ->
  exists out', Opcode2fun TRANSPOSE header output (input :: inputs) = Some out' /\
    forall i j, i < rows header -> j < columns header ->
      j * stride header + i < length output ->
      out' !! (j * stride header + i) = Some (get input (i * strideT + j)).
Proof.
  intros Hs Hst. cbn [Opcode2fun].
  assert (exists out', transpose header output (input :: inputs) = Some out')
    as [out' Hrun]
    by (unfold transpose; cbv beta iota zeta; rewrite Hs; eexists; reflexivity).
  exists out'. split; [exact Hrun|]. intros i j Hi Hj Hin.
  destruct (lookup_transpose header output input strideT strides inputs i j
              Hs Hst Hi Hj) as (o & Hrun' & Hcell).
  same_output Hrun Hrun'. rewrite Hcell.
  destruct (lookup_lt_is_Some_2 output _ Hin) as [x ->]. reflexivity.
Qed.


(** *** Routines composed *)

Lemma sum_from_ext (n : nat) (f g : nat -> num) (v : num) :
  (forall j, j < n -> f j = g j) -> sum_from n f v = sum_from n g v.
Proof.
  intros Hfg. unfold sum_from. induction n as [|n IH]; [reflexivity|].
  rewrite seq_S, !foldl_app. cbn [foldl Nat.add].
  rewrite IH by (intros j Hj; apply Hfg; lia). rewrite Hfg by lia. reflexivity.
Qed.

(** TRANSPOSE twice: the transpose of the transpose of an [r] by [c] matrix
    holds, in every logical cell, the cell of the matrix of the same row and
    column, whatever the three strides are. *)
Theorem transpose_twice (r c sA sT s : nat) (a outT out : list num) :
  c <= sT -> r <= s ->
  (forall i j, i < c -> j < r -> j * sT + i < length outT) ->
  (forall i j, i < r -> j < c -> j * s + i < length out) ->
  let hT := {| rows := c; columns := r; stride := sT; length_ := length outT;
               rowsOfInputs := [r]; columnsOfInputs := [c];
               strideOfInputs := [sA]; lengthOfInputs := [length a];
               value := zero; scalar := zero |} in
  let hTT := {| rows := r; columns := c; stride := s; length_ := length out;
                rowsOfInputs := [c]; columnsOfInputs := [r];
                strideOfInputs := [sT]; lengthOfInputs := [length outT];
                value := zero; scalar := zero |} in
  exists t tt,
    Opcode2fun TRANSPOSE hT outT [a] = Some t /\
    Opcode2fun TRANSPOSE hTT out [t] = Some tt /\
    forall i j, i < r -> j < c ->
      tt !! (j * s + i) = Some (get a (j * sA + i)).
Proof.
  intros HsT Hs HfitT Hfit hT hTT. cbn [Opcode2fun].
  eexists _, _. split; [reflexivity|]. split; [reflexivity|].
  intros i j Hi Hj.
  destruct (lookup_transpose hTT out
              (for_loop c (fun i0 o =>
                 for_loop r (fun j0 o0 => <[j0 * sT + i0 := get a (i0 * sA + j0)]> o0) o)
                 outT) sT [] [] i j eq_refl Hs Hi Hj) as (o & Hrun & Hcell).
  subst hT hTT. unfold transpose in *. hsimpl. injection Hrun as <-.
  rewrite Hcell.
  destruct (lookup_lt_is_Some_2 out _ (Hfit i j Hi Hj)) as [x ->]. cbn [fmap option_fmap option_map].
  f_equal. apply get_lookup.
  rewrite (lookup_stores_by_row c r sT (fun i0 j0 => get a (i0 * sA + j0))
             outT j i HsT Hj Hi).
  destruct (lookup_lt_is_Some_2 outT _ (HfitT j i Hj Hi)) as [y ->]. reflexivity.
Qed.

(** MULTIPLYRT against MULTIPLY: A * B^T computed by [multiplyrt] is, cell by
    cell, the product that [multiply] computes from A and the transpose of B
    made by [transpose], with no assumption on the element arithmetic: both
    add the same terms in the same order. *)
Theorem multiplyrt_is_multiply_of_transpose
    (r cA rB sA sB sT s : nat) (a b outT out1 out2 : list num) :
  cA <= sT -> r <= s ->
  (forall i j, i < cA -> j < rB -> j * sT + i < length outT) ->
  length out1 = length out2 ->
  let hT := {| rows := cA; columns := rB; stride := sT; length_ := length outT;
               rowsOfInputs := [rB]; columnsOfInputs := [cA];
               strideOfInputs := [sB]; lengthOfInputs := [length b];
               value := zero; scalar := zero |} in
  let hM := {| rows := r; columns := rB; stride := s; length_ := length out1;
               rowsOfInputs := [r; cA]; columnsOfInputs := [cA; rB];
               strideOfInputs := [sA; sT]; lengthOfInputs := [length a; length outT];
               value := zero; scalar := zero |} in
  let hRT := {| rows := r; columns := rB; stride := s; length_ := length out2;
                rowsOfInputs := [r; rB]; columnsOfInputs := [cA; cA];
                strideOfInputs := [sA; sB]; lengthOfInputs := [length a; length b];
                value := zero; scalar := zero |} in
  exists t m rt,
    Opcode2fun TRANSPOSE hT outT [b] = Some t /\
    Opcode2fun MULTIPLY hM out1 [a; t] = Some m /\
    Opcode2fun MULTIPLYRT hRT out2 [a; b] = Some rt /\
    forall i k, i < r -> k < rB ->
      m !! (k * s + i) = rt !! (k * s + i).
Proof.
  intros HsT Hs HfitT Hlen hT hM hRT. cbn [Opcode2fun].
  eexists _, _, _. split; [reflexivity|]. split; [reflexivity|]. split; [reflexivity|].
  intros i k Hi Hk.
  set (t := for_loop cA (fun i0 o =>
              for_loop rB (fun j0 o0 => <[j0 * sT + i0 := get b (i0 * sB + j0)]> o0) o)
              outT).
  destruct (lookup_multiply hM out1 a t cA rB sA sT [] [] [] i k
              eq_refl eq_refl eq_refl Hs Hi Hk Hk) as (m & Hm & Hcm).
  destruct (lookup_multiplyrt hRT out2 a b cA cA r rB sA sB [] [] [] [] i k
              eq_refl eq_refl eq_refl eq_refl Hs Hi Hk Hk) as (rt & Hrt & Hcrt).
  subst hT hM hRT. hsimpl.
  unfold multiply in *. unfold multiplyrt in *. hsimpl.
  injection Hm as <-. injection Hrt as <-.
  fold t. rewrite Hcm, Hcrt.
  assert (out1 !! (k * s + i) = None <-> out2 !! (k * s + i) = None) as Hnone
    by (rewrite !lookup_ge_None; lia).
  destruct (out1 !! (k * s + i)) as [x|], (out2 !! (k * s + i)) as [y|];
    cbn [fmap option_fmap option_map].
  - f_equal. apply sum_from_ext. intros j Hj. f_equal.
    apply get_lookup. unfold t.
    rewrite (lookup_stores_by_row cA rB sT (fun i0 j0 => get b (i0 * sB + j0))
               outT j k HsT Hj Hk).
    destruct (lookup_lt_is_Some_2 outT _ (HfitT j k Hj Hk)) as [z ->]. reflexivity.
  - destruct Hnone as [_ H]. discriminate (H eq_refl).
  - destruct Hnone as [H _]. discriminate (H eq_refl).
  - reflexivity.
Qed.


(** A sum all of whose terms are [zero] but the [k]-th. *)
Lemma sum_from_single (n k : nat) (f : nat -> num) :
  (forall x, plus zero x = x) -> (forall x, plus x zero = x) ->
  (forall j, j < n -> j <> k -> f j = zero) ->
  sum_from n f zero = if decide (k < n) then f k else zero.
Proof.
  intros Hl Hr Hf. unfold sum_from. induction n as [|n IH].
  - reflexivity.
  - rewrite seq_S, foldl_app. cbn [foldl Nat.add].
    rewrite IH by (intros j Hj; apply Hf; lia).
    destruct (decide (k < n)) as [Hk|Hk].
    + rewrite decide_True by lia. rewrite (Hf n) by lia. apply Hr.
    + destruct (decide (k = n)) as [->|Hne].
      * rewrite decide_True by lia. apply Hl.
      * rewrite decide_False by lia. rewrite (Hf n) by lia. apply Hr.
Qed.

(** MULTIPLY by the identity: in an element arithmetic where [zero] is
    neutral for the sum and absorbing for the product and [one] is neutral
    for the product (the integer element types), the product of A and an
    identity matrix holds A in its logical cells, whatever the strides. *)
Theorem multiply_by_identity (one : num) (r n sA sB s : nat) (a b out : list num) :
  (forall x, plus zero x = x) -> (forall x, plus x zero = x) ->
  (forall x, times x zero = zero) -> (forall x, times x one = x) ->
  r <= s ->
  (forall j k, j < n -> k < n ->
     get b (k * sB + j) = if decide (j = k) then one else zero) ->
  let h := {| rows := r; columns := n; stride := s; length_ := length out;
              rowsOfInputs := [r; n]; columnsOfInputs := [n; n];
              strideOfInputs := [sA; sB]; lengthOfInputs := [length a; length b];
              value := zero; scalar := zero |} in
  exists m, Opcode2fun MULTIPLY h out [a; b] = Some m /\
    forall i k, i < r -> k < n -> k * s + i < length out ->
      m !! (k * s + i) = Some (get a (k * sA + i)).
Proof.
  intros Hl Hr Hz H1 Hs Hid h. cbn [Opcode2fun].
  eexists. split; [reflexivity|]. intros i k Hi Hk Hin.
  destruct (lookup_multiply h out a b n n sA sB [] [] [] i k
              eq_refl eq_refl eq_refl Hs Hi Hk Hk) as (m & Hm & Hcell).
  subst h. unfold multiply in *. hsimpl. injection Hm as <-.
  rewrite Hcell. destruct (lookup_lt_is_Some_2 out _ Hin) as [x ->].
  cbn [fmap option_fmap option_map]. f_equal.
  rewrite (sum_from_single n k _ Hl Hr).
  - rewrite decide_True by exact Hk. rewrite Hid by lia.
    rewrite decide_True by reflexivity. apply H1.
  - intros j Hj Hne. rewrite Hid by lia. rewrite decide_False by exact Hne. apply Hz.
Qed.


End Routines.
(** *** The routines on integer matrices *)

Section OnIntegers.

Open Scope Z_scope.

Definition Zrun (op : Opcode) := Opcode2fun 0 0 Z.add Z.sub Z.mul op.

(** Scenario S5 of the specification: A = [[1,2],[3,4]] and B = [[5,6],[7,8]],
    column-major with stride 4; the padding holds 9. *)
Definition S5_header : Header := {|
  rows := 2; columns := 2; stride := 4; length_ := 8;
  rowsOfInputs := [2; 2]%nat; columnsOfInputs := [2; 2]%nat;
  strideOfInputs := [4; 4]%nat; lengthOfInputs := [8; 8]%nat;
  value := 0; scalar := 0 |}.
Definition S5_A : list Z := [1; 3; 9; 9; 2; 4; 9; 9].
Definition S5_B : list Z := [5; 7; 9; 9; 6; 8; 9; 9].
Definition S5_output : list Z := [9; 9; 9; 9; 9; 9; 9; 9].

Example S5_multiply :
  Zrun MULTIPLY S5_header S5_output [S5_A; S5_B] = Some [19; 43; 9; 9; 22; 50; 9; 9].
Proof. reflexivity. Qed.

Lemma S5_well_formed : well_formed MULTIPLY S5_header S5_output [S5_A; S5_B].
Proof.
  split; try reflexivity; try discriminate.
  - intros i j Hi Hj. cbn in *. lia.
  - cbn. lia.
Defined.

Lemma padding_never_written_witness :
  exists out', Zrun MULTIPLY S5_header S5_output [S5_A; S5_B] = Some out' /\
    (forall p, ~ logical S5_header p -> out' !! p = S5_output !! p) /\
    (forall p, padding S5_header p -> out' !! p = S5_output !! p).
Proof.
  exact (padding_never_written 0 0 Z.add Z.sub Z.mul MULTIPLY S5_header S5_output
           [S5_A; S5_B] S5_well_formed).
Defined.

(** A is 2 by 2 with stride 3, B is 2 by 1 with stride 2, the transposed
    matrix has stride 4 and the products stride 5. *)
Lemma multiplylt_is_multiply_of_transpose_witness :
  exists t m lt,
    transpose 0 {| rows := 2; columns := 2; stride := 4; length_ := 8;
                   rowsOfInputs := [2]%nat; columnsOfInputs := [2]%nat;
                   strideOfInputs := [3]%nat; lengthOfInputs := [6]%nat;
                   value := 0; scalar := 0 |}
      [0; 0; 0; 0; 0; 0; 0; 0] [[1; 3; 9; 2; 4; 9]] = Some t /\
    multiply 0 0 Z.add Z.mul
      {| rows := 2; columns := 1; stride := 5; length_ := 5;
         rowsOfInputs := [2; 2]%nat; columnsOfInputs := [2; 1]%nat;
         strideOfInputs := [4; 2]%nat; lengthOfInputs := [8; 2]%nat;
         value := 0; scalar := 0 |}
      [7; 7; 7; 7; 7] [t; [5; 6]] = Some m /\
    multiplylt 0 0 Z.add Z.mul
      {| rows := 2; columns := 1; stride := 5; length_ := 5;
         rowsOfInputs := [2; 2]%nat; columnsOfInputs := [2; 1]%nat;
         strideOfInputs := [3; 2]%nat; lengthOfInputs := [6; 2]%nat;
         value := 0; scalar := 0 |}
      [8; 8; 8; 8; 8] [[1; 3; 9; 2; 4; 9]; [5; 6]] = Some lt /\
    forall i k, (i < 2)%nat -> (k < 1)%nat ->
      m !! (k * 5 + i)%nat = lt !! (k * 5 + i)%nat /\
      ((k * 5 + i < 5)%nat ->
       lt !! (k * 5 + i)%nat
       = Some (sum_from Z.add 2 (fun j => get 0 [1; 3; 9; 2; 4; 9] (i * 3 + j)
                                        * get 0 [5; 6] (k * 2 + j)) 0)).
Proof.
  apply (multiplylt_is_multiply_of_transpose 0 0 Z.add Z.mul 2 2 1 3 2 4 5
           [1; 3; 9; 2; 4; 9] [5; 6] [0; 0; 0; 0; 0; 0; 0; 0]
           [7; 7; 7; 7; 7] [8; 8; 8; 8; 8]).
  - lia.
  - lia.
  - intros i j Hi Hj. cbn. lia.
  - reflexivity.
Defined.

(** A 1 by 2 input of stride 2 (cells 10 and 20, padding 77), a packed
    1 by 2 output, and the scalar 3. *)
Definition C4_header : Header := {|
  rows := 1; columns := 2; stride := 1; length_ := 2;
  rowsOfInputs := [1]%nat; columnsOfInputs := [2]%nat;
  strideOfInputs := [2]%nat; lengthOfInputs := [4]%nat;
  value := 0; scalar := 3 |}.
Definition C4_input : list Z := [10; 77; 20; 77].

(** C4, at an input whose stride differs from that of the output: [scale]
    reads the input with the stride of the output, so the second cell of
    the output is three times the padding cell of the input, 231, and not
    three times the input's cell of row 0 and column 1, which is 20. *)
Theorem scale_ignores_input_stride :
  Zrun SCALE C4_header [0; 0] [C4_input] = Some [30; 231] /\
  strideOfInputs C4_header = [2%nat] /\
  C4_input !! at_ 2 0 1 = Some 20 /\
  231 <> 3 * 20.
Proof. repeat split; try reflexivity. discriminate. Qed.

(** *** The routines on the matrices of scenario S5 *)

Lemma S5_output_ok : output_ok S5_header S5_output.
Proof.
  split; [reflexivity| |cbn; lia].
  intros i j Hi Hj. cbn in *. lia.
Defined.

Lemma fill_sets_every_logical_cell_witness :
  exists out', Zrun FILL S5_header S5_output [] = Some out' /\
    forall i j, (i < 2)%nat -> (j < 2)%nat -> out' !! (j * 4 + i)%nat = Some 0.
Proof.
  exact (fill_sets_every_logical_cell 0 0 Z.add Z.sub Z.mul S5_header S5_output []
           S5_output_ok).
Defined.

(** The input is 2 by 2 with stride 3; the output has stride 4. *)
Lemma copy_is_cell_by_cell_witness :
  exists out',
    Zrun COPY {| rows := 2; columns := 2; stride := 4; length_ := 8;
                 rowsOfInputs := [2]%nat; columnsOfInputs := [2]%nat;
                 strideOfInputs := [3]%nat; lengthOfInputs := [6]%nat;
                 value := 0; scalar := 0 |} S5_output [[1; 3; 9; 2; 4; 9]] = Some out' /\
    forall i j, (i < 2)%nat -> (j < 2)%nat ->
      out' !! (j * 4 + i)%nat = [1; 3; 9; 2; 4; 9] !! (j * 3 + i)%nat.
Proof.
  apply (copy_is_cell_by_cell 0 0 Z.add Z.sub Z.mul
           {| rows := 2; columns := 2; stride := 4; length_ := 8;
              rowsOfInputs := [2]%nat; columnsOfInputs := [2]%nat;
              strideOfInputs := [3]%nat; lengthOfInputs := [6]%nat;
              value := 0; scalar := 0 |} S5_output [1; 3; 9; 2; 4; 9] 3%nat [] []).
  - split; [reflexivity| |cbn; lia]. intros i j Hi Hj. cbn in *. lia.
  - reflexivity.
  - reflexivity.
  - cbn. lia.
  - intros i j Hi Hj. cbn in *. lia.
Defined.

Lemma componentwise_routines_witness :
  exists sum difference product,
    Zrun ADD S5_header S5_output [S5_A; S5_B] = Some sum /\
    Zrun SUBTRACT S5_header S5_output [S5_A; S5_B] = Some difference /\
    Zrun COMPMULT S5_header S5_output [S5_A; S5_B] = Some product /\
    forall i j, (i < 2)%nat -> (j < 2)%nat -> (j * 4 + i < 8)%nat ->
      sum !! (j * 4 + i)%nat
        = Some (get 0 S5_A (j * 4 + i) + get 0 S5_B (j * 4 + i)) /\
      difference !! (j * 4 + i)%nat
        = Some (get 0 S5_A (j * 4 + i) - get 0 S5_B (j * 4 + i)) /\
      product !! (j * 4 + i)%nat
        = Some (get 0 S5_A (j * 4 + i) * get 0 S5_B (j * 4 + i)).
Proof.
  apply (componentwise_routines 0 0 Z.add Z.sub Z.mul S5_header S5_output S5_A S5_B
           4%nat 4%nat [] []).
  - reflexivity.
  - cbn. lia.
Defined.

Lemma scale_with_equal_strides_witness :
  exists out',
    Zrun SCALE {| rows := 2; columns := 2; stride := 4; length_ := 8;
                  rowsOfInputs := [2]%nat; columnsOfInputs := [2]%nat;
                  strideOfInputs := [4]%nat; lengthOfInputs := [8]%nat;
                  value := 0; scalar := 3 |} S5_output [S5_A] = Some out' /\
    forall i j, (i < 2)%nat -> (j < 2)%nat -> (j * 4 + i < 8)%nat ->
      out' !! (j * 4 + i)%nat = Some (get 0 S5_A (j * 4 + i) * 3).
Proof.
  apply (scale_with_equal_strides 0 0 Z.add Z.sub Z.mul
           {| rows := 2; columns := 2; stride := 4; length_ := 8;
              rowsOfInputs := [2]%nat; columnsOfInputs := [2]%nat;
              strideOfInputs := [4]%nat; lengthOfInputs := [8]%nat;
              value := 0; scalar := 3 |} S5_output S5_A 4%nat [] []).
  - reflexivity.
  - reflexivity.
  - cbn. lia.
Defined.

Lemma multiply_cells_witness :
  exists out', Zrun MULTIPLY S5_header S5_output [S5_A; S5_B] = Some out' /\
    forall i k, (i < 2)%nat -> (k < 2)%nat -> (k * 4 + i < 8)%nat ->
      out' !! (k * 4 + i)%nat
      = Some (sum_from Z.add 2
                (fun j => get 0 S5_A (j * 4 + i) * get 0 S5_B (k * 4 + j)) 0).
Proof.
  apply (multiply_cells 0 0 Z.add Z.sub Z.mul S5_header S5_output S5_A S5_B
           2%nat 2%nat 4%nat 4%nat [] [] []); reflexivity || (cbn; lia).
Defined.

Lemma multiplyrt_cells_witness :
  exists out', Zrun MULTIPLYRT S5_header S5_output [S5_A; S5_B] = Some out' /\
    forall i k, (i < 2)%nat -> (k < 2)%nat -> (k * 4 + i < 8)%nat ->
      out' !! (k * 4 + i)%nat
      = Some (sum_from Z.add 2
                (fun j => get 0 S5_A (j * 4 + i) * get 0 S5_B (j * 4 + k)) 0).
Proof.
  apply (multiplyrt_cells 0 0 Z.add Z.sub Z.mul S5_header S5_output S5_A S5_B
           2%nat 2%nat 2%nat 2%nat 4%nat 4%nat [] [] [] []); reflexivity || (cbn; lia).
Defined.

(** A is 2 by 3 with stride 3; its transpose has stride 4 and the transpose
    of the transpose stride 2. *)
Lemma transpose_twice_witness :
  exists t tt,
    Zrun TRANSPOSE {| rows := 3; columns := 2; stride := 4; length_ := 8;
                      rowsOfInputs := [2]%nat; columnsOfInputs := [3]%nat;
                      strideOfInputs := [3]%nat; lengthOfInputs := [9]%nat;
                      value := 0; scalar := 0 |}
      [0; 0; 0; 0; 0; 0; 0; 0] [[1; 4; 9; 2; 5; 9; 3; 6; 9]] = Some t /\
    Zrun TRANSPOSE {| rows := 2; columns := 3; stride := 2; length_ := 6;
                      rowsOfInputs := [3]%nat; columnsOfInputs := [2]%nat;
                      strideOfInputs := [4]%nat; lengthOfInputs := [8]%nat;
                      value := 0; scalar := 0 |}
      [7; 7; 7; 7; 7; 7] [t] = Some tt /\
    forall i j, (i < 2)%nat -> (j < 3)%nat ->
      tt !! (j * 2 + i)%nat = Some (get 0 [1; 4; 9; 2; 5; 9; 3; 6; 9] (j * 3 + i)).
Proof.
  apply (transpose_twice 0 0 Z.add Z.sub Z.mul 2 3 3 4 2
           [1; 4; 9; 2; 5; 9; 3; 6; 9] [0; 0; 0; 0; 0; 0; 0; 0] [7; 7; 7; 7; 7; 7]).
  - lia.
  - lia.
  - intros i j Hi Hj. cbn. lia.
  - intros i j Hi Hj. cbn. lia.
Defined.

(** A is 2 by 2 with stride 3, B is 1 by 2 with stride 2, the transposed
    matrix has stride 4 and the products stride 5. *)
Lemma multiplyrt_is_multiply_of_transpose_witness :
  exists t m rt,
    Zrun TRANSPOSE {| rows := 2; columns := 1; stride := 4; length_ := 4;
                      rowsOfInputs := [1]%nat; columnsOfInputs := [2]%nat;
                      strideOfInputs := [2]%nat; lengthOfInputs := [4]%nat;
                      value := 0; scalar := 0 |}
      [0; 0; 0; 0] [[5; 9; 6; 9]] = Some t /\
    Zrun MULTIPLY {| rows := 2; columns := 1; stride := 5; length_ := 5;
                     rowsOfInputs := [2; 2]%nat; columnsOfInputs := [2; 1]%nat;
                     strideOfInputs := [3; 4]%nat; lengthOfInputs := [6; 4]%nat;
                     value := 0; scalar := 0 |}
      [7; 7; 7; 7; 7] [[1; 3; 9; 2; 4; 9]; t] = Some m /\
    Zrun MULTIPLYRT {| rows := 2; columns := 1; stride := 5; length_ := 5;
                       rowsOfInputs := [2; 1]%nat; columnsOfInputs := [2; 2]%nat;
                       strideOfInputs := [3; 2]%nat; lengthOfInputs := [6; 4]%nat;
                       value := 0; scalar := 0 |}
      [8; 8; 8; 8; 8] [[1; 3; 9; 2; 4; 9]; [5; 9; 6; 9]] = Some rt /\
    forall i k, (i < 2)%nat -> (k < 1)%nat ->
      m !! (k * 5 + i)%nat = rt !! (k * 5 + i)%nat.
Proof.
  apply (multiplyrt_is_multiply_of_transpose 0 0 Z.add Z.sub Z.mul 2 2 1 3 2 4 5
           [1; 3; 9; 2; 4; 9] [5; 9; 6; 9] [0; 0; 0; 0]
           [7; 7; 7; 7; 7] [8; 8; 8; 8; 8]).
  - lia.
  - lia.
  - intros i j Hi Hj. cbn. lia.
  - reflexivity.
Defined.

(** A of scenario S5 times the 2 by 2 identity of stride 2. *)
Lemma multiply_by_identity_witness :
  exists m,
    Zrun MULTIPLY {| rows := 2; columns := 2; stride := 4; length_ := 8;
                     rowsOfInputs := [2; 2]%nat; columnsOfInputs := [2; 2]%nat;
                     strideOfInputs := [4; 2]%nat; lengthOfInputs := [8; 4]%nat;
                     value := 0; scalar := 0 |}
      S5_output [S5_A; [1; 0; 0; 1]] = Some m /\
    forall i k, (i < 2)%nat -> (k < 2)%nat -> (k * 4 + i < 8)%nat ->
      m !! (k * 4 + i)%nat = Some (get 0 S5_A (k * 4 + i)).
Proof.
  apply (multiply_by_identity 0 0 Z.add Z.sub Z.mul 1 2 2 4 2 4 S5_A [1; 0; 0; 1]
           S5_output).
  - intros x. lia.
  - intros x. lia.
  - intros x. lia.
  - intros x. lia.
  - lia.
  - intros j k Hj Hk.
    destruct j as [|[|j]]; [| |lia]; (destruct k as [|[|k]]; [| |lia]); reflexivity.
Defined.


Lemma transpose_cells_witness :
  exists out', Zrun TRANSPOSE S5_header S5_output [S5_A] = Some out' /\
    forall i j, (i < 2)%nat -> (j < 2)%nat -> (j * 4 + i < 8)%nat ->
      out' !! (j * 4 + i)%nat = Some (get 0 S5_A (i * 4 + j)).
Proof.
  apply (transpose_cells 0 0 Z.add Z.sub Z.mul S5_header S5_output S5_A
           4%nat [4%nat] []).
  - reflexivity.
  - cbn. lia.
Defined.


End OnIntegers.


End MatrixMath.

(** ** utils/globals.js *)

(** The module of the constants is not among the sources. The fixed-point
    resolution and the two pyramid constants are parameters of the sections
    below. *)
Module Globals.

(** Modelled from the spec: the constant [MIN_KEYPOINT_SIZE] of
    utils/globals.js, "MIN_KEYPOINT_SIZE = 8 (two pixels)". *)
Definition MIN_KEYPOINT_SIZE : nat := 8.

End Globals.

(** ** sink.js *)

Module KeypointSink.

Import Globals.

(** [Math.ceil(n / 4)] on a natural number. *)
Definition ceil_div4 (n : nat) : nat := (n + 3) / 4.

(** The two operands of a bitwise operator go through ToInt32, which sends
    [undefined] to 0. *)
Definition ToInt32 (v : option Z) : Z := default 0%Z v.

(** [(hi << 8) | lo]. *)
Definition word16 (hi lo : option Z) : Z :=
  Z.lor (Z.shiftl (ToInt32 hi) 8) (ToInt32 lo).

(** [v == 0]: [undefined] is not loosely equal to 0. *)
Definition loose_eq_zero (v : option Z) : bool :=
  match v with Some b => (b =? 0)%Z | None => false end.

(** [v < 255]: [undefined] converts to NaN, and the comparison is false. *)
Definition less_than_255 (v : option Z) : bool :=
  match v with Some b => (b <? 255)%Z | None => false end.

(** [pixels.subarray(begin, end)], both ends clamped to the array. *)
Definition subarray (pixels : list Z) (begin end_ : nat) : list Z :=
  drop begin (take end_ pixels).

(** An orientation is a multiple of [piOver255 = Math.PI / 255.0], or NaN
    when it is computed from [undefined]. *)
Inductive Angle : Type :=
  | TimesPiOver255 (k : Z)
  | NaN.

(** [new SpeedyKeypoint(x, y, lod, rotation, score, descriptorBytes, extraBytes)].
    Positions and levels of detail are exact rationals. *)
Record SpeedyKeypoint : Type := {
  x : Q;
  y : Q;
  lod : Q;
  rotation : Angle;
  score : Z;
  descriptorBytes : list Z;
  extraBytes : list Z
}.

(** How one iteration of the loop of [_decode] ends. *)
Inductive Outcome : Type :=
  | Break
  | Continue
  | Push (keypoint : SpeedyKeypoint).

Section Decode.

Variable FIX_RESOLUTION : Z.
Variables LOG2_PYRAMID_MAX_SCALE PYRAMID_MAX_LEVELS : Q.

(** The fixed-point coordinates of the cell that starts at byte [i]. *)
Definition raw_x (pixels : list Z) (i : nat) : Z :=
  word16 (pixels !! (i + 1)) (pixels !! i).
Definition raw_y (pixels : list Z) (i : nat) : Z :=
  word16 (pixels !! (i + 3)) (pixels !! (i + 2)).

Definition decode_lod (b : option Z) : Q :=
  let m := LOG2_PYRAMID_MAX_SCALE in
  let h := PYRAMID_MAX_LEVELS in
  if less_than_255 b
  then (- m + ((m + h) * inject_Z (default 0%Z b)) / inject_Z 255)%Q
  else 0%Q.

Definition decode_rotation (b : option Z) : Angle :=
  match b with
  | Some b => TimesPiOver255 (2 * b - 255)
  | None => NaN
  end.

(** The body of the loop of [_decode], for the cell that starts at byte [i]. *)
Definition decode_cell (pixels : list Z) (descriptorSize extraSize i : nat) : Outcome :=
  let x := raw_x pixels i in
  let y := raw_y pixels i in
  if (x >=? 0xFFFF)%Z && (y >=? 0xFFFF)%Z then Break
  else if (x + y =? 0)%Z && loose_eq_zero (pixels !! (i + 6)) then Continue
  else
    let x := (inject_Z x / inject_Z FIX_RESOLUTION)%Q in
    let y := (inject_Z y / inject_Z FIX_RESOLUTION)%Q in
    let lod := decode_lod (pixels !! (i + 4)) in
    let rotation := decode_rotation (pixels !! (i + 5)) in
    let score := word16 (pixels !! (i + 7)) (pixels !! (i + 6)) in
    let extraBytes := subarray pixels (8 + i) (8 + i + extraSize) in
    let descriptorBytes :=
      subarray pixels (8 + i + extraSize) (8 + i + extraSize + descriptorSize) in
    if (length descriptorBytes <? descriptorSize) || (length extraBytes <? extraSize)
    then Continue
    else Push {| x := x; y := y; lod := lod; rotation := rotation; score := score;
                 descriptorBytes := descriptorBytes; extraBytes := extraBytes |}.

(** The element reads [pixels[k]] of that iteration, in the order of
    evaluation; [&&] and [?:] skip the reads of the operand not evaluated. *)
Definition cell_reads (pixels : list Z) (i : nat) : list nat :=
  let x := raw_x pixels i in
  let y := raw_y pixels i in
  [i + 1; i; i + 3; i + 2] ++
  if (x >=? 0xFFFF)%Z && (y >=? 0xFFFF)%Z then []
  else
    (if (x + y =? 0)%Z then [i + 6] else []) ++
    if (x + y =? 0)%Z && loose_eq_zero (pixels !! (i + 6)) then []
    else
      [i + 4] ++ (if less_than_255 (pixels !! (i + 4)) then [i + 4] else []) ++
      [i + 5; i + 7; i + 6].

(** [for(let i = 0; i < size; i += bytesPerKeypoint)], with the keypoints
    pushed and the indices read so far. [None]: the fuel ran out. *)
Fixpoint decode_loop (fuel : nat) (pixels : list Z) (descriptorSize extraSize : nat)
    (size bytesPerKeypoint i : nat) (keypoints : list SpeedyKeypoint) (reads : list nat)
  : option (list SpeedyKeypoint * list nat) :=
  match fuel with
  | 0 => None
  | S fuel =>
      if decide (i < size) then
        let reads := reads ++ cell_reads pixels i in
        match decode_cell pixels descriptorSize extraSize i with
        | Break => Some (keypoints, reads)
        | Continue =>
            decode_loop fuel pixels descriptorSize extraSize size bytesPerKeypoint
              (i + bytesPerKeypoint) keypoints reads
        | Push keypoint =>
            decode_loop fuel pixels descriptorSize extraSize size bytesPerKeypoint
              (i + bytesPerKeypoint) (keypoints ++ [keypoint]) reads
        end
      else Some (keypoints, reads)
  end.

Definition pixelsPerKeypoint (descriptorSize extraSize : nat) : nat :=
  ceil_div4 (MIN_KEYPOINT_SIZE + descriptorSize + extraSize).

Definition bytesPerKeypoint (descriptorSize extraSize : nat) : nat :=
  4 * pixelsPerKeypoint descriptorSize extraSize.

(** How many bytes [_decode] reads at most. *)
Definition decode_size (pixels : list Z) (descriptorSize extraSize encoderLength : nat)
  : nat :=
  let e := encoderLength in
  let e2 := e * e * pixelsPerKeypoint descriptorSize extraSize * 4 in
  min (length pixels) e2.

(** [_decode] with its trace of element reads. The copy of [pixels] into a
    new [Uint8Array] keeps the bytes and is not modelled. *)
Definition decode_traced (pixels : list Z) (descriptorSize extraSize encoderLength : nat)
  : option (list SpeedyKeypoint * list nat) :=
  let size := decode_size pixels descriptorSize extraSize encoderLength in
  decode_loop (S size) pixels descriptorSize extraSize size
    (bytesPerKeypoint descriptorSize extraSize) 0 [] [].

Definition _decode (pixels : list Z) (descriptorSize extraSize encoderLength : nat)
  : option (list SpeedyKeypoint) :=
  fst <$> decode_traced pixels descriptorSize extraSize encoderLength.

(** *** The loop, cell by cell *)

(** The cells of the loop as a recursion on their number: the keypoints
    pushed and the indices read by [n] consecutive cells from byte [i] on,
    up to the first [Break]. *)
Fixpoint cells_run (n : nat) (pixels : list Z) (descriptorSize extraSize : nat)
    (bpk i : nat) : list SpeedyKeypoint * list nat :=
  match n with
  | 0 => ([], [])
  | S n =>
      let rest := cells_run n pixels descriptorSize extraSize bpk (i + bpk) in
      match decode_cell pixels descriptorSize extraSize i with
      | Break => ([], cell_reads pixels i)
      | Continue => (rest.1, cell_reads pixels i ++ rest.2)
      | Push keypoint => (keypoint :: rest.1, cell_reads pixels i ++ rest.2)
      end
  end.

(** The number of iterations of the loop when nothing breaks it. *)
Definition cell_count (size bpk : nat) : nat := (size + bpk - 1) / bpk.

Lemma pixelsPerKeypoint_ge (descriptorSize extraSize : nat) :
  2 <= pixelsPerKeypoint descriptorSize extraSize.
Proof.
  unfold pixelsPerKeypoint, ceil_div4, MIN_KEYPOINT_SIZE.
  apply Nat.div_le_lower_bound; lia.
Qed.

Lemma pixelsPerKeypoint_covers (descriptorSize extraSize : nat) :
  8 + descriptorSize + extraSize <= 4 * pixelsPerKeypoint descriptorSize extraSize.
Proof.
  unfold pixelsPerKeypoint, ceil_div4, MIN_KEYPOINT_SIZE.
  pose proof (Nat.div_mod (8 + descriptorSize + extraSize + 3) 4 ltac:(lia)) as Hdm.
  pose proof (Nat.mod_upper_bound (8 + descriptorSize + extraSize + 3) 4 ltac:(lia)).
  lia.
Qed.

Lemma bytesPerKeypoint_ge (descriptorSize extraSize : nat) :
  8 <= bytesPerKeypoint descriptorSize extraSize.
Proof.
  unfold bytesPerKeypoint. pose proof (pixelsPerKeypoint_ge descriptorSize extraSize). lia.
Qed.

Lemma cell_count_spec (size bpk : nat) :
  0 < bpk ->
  size <= cell_count size bpk * bpk /\
  (0 < cell_count size bpk -> (cell_count size bpk - 1) * bpk < size) /\
  cell_count size bpk <= size.
Proof.
  intros Hb. unfold cell_count.
  pose proof (Nat.div_mod (size + bpk - 1) bpk ltac:(lia)) as Hdm.
  pose proof (Nat.mod_upper_bound (size + bpk - 1) bpk ltac:(lia)) as Hm.
  set (q := (size + bpk - 1) / bpk) in *.
  set (r := (size + bpk - 1) mod bpk) in *.
  repeat split; nia.
Qed.

Lemma cell_count_lt (size bpk c : nat) :
  0 < bpk -> c * bpk < size -> c < cell_count size bpk.
Proof.
  intros Hb Hc. destruct (cell_count_spec size bpk Hb) as (Hup & _ & _).
  nia.
Qed.

(** With fuel for [n] cells and the final test, the loop runs as
    [cells_run] says. *)
Lemma decode_loop_run (n : nat) :
  forall fuel pixels descriptorSize extraSize size bpk i keypoints reads,
  n < fuel ->
  size <= i + n * bpk ->
  (0 < n -> i + (n - 1) * bpk < size) ->
  decode_loop fuel pixels descriptorSize extraSize size bpk i keypoints reads
  = Some (keypoints ++ (cells_run n pixels descriptorSize extraSize bpk i).1,
          reads ++ (cells_run n pixels descriptorSize extraSize bpk i).2).
Proof.
  induction n as [|n IH]; intros fuel pixels ds es size bpk i kps rds Hfuel Hup Hlo.
  - destruct fuel as [|fuel]; [lia|]. cbn [decode_loop cells_run fst snd].
    case_decide; [lia|]. rewrite !app_nil_r. reflexivity.
  - destruct fuel as [|fuel]; [lia|]. cbn [decode_loop cells_run].
    assert (i < size) as Hi by (specialize (Hlo ltac:(lia)); nia).
    case_decide; [|lia].
    assert (n < fuel) as Hf by lia.
    assert (size <= i + bpk + n * bpk) as Hup' by lia.
    assert (0 < n -> i + bpk + (n - 1) * bpk < size) as Hlo'.
    { intros Hn. specialize (Hlo ltac:(lia)).
      replace (S n - 1) with (S (n - 1)) in Hlo by lia. lia. }
    destruct (decode_cell pixels ds es i) as [| |k]; cbn [fst snd].
    + rewrite app_nil_r. reflexivity.
    + rewrite (IH fuel pixels ds es size bpk (i + bpk) kps _ Hf Hup' Hlo').
      rewrite <- app_assoc. reflexivity.
    + rewrite (IH fuel pixels ds es size bpk (i + bpk) _ _ Hf Hup' Hlo').
      rewrite <- !app_assoc. reflexivity.
Qed.

(** [_decode] returns: the fuel of the model is enough for every buffer. *)
Lemma decode_traced_run (pixels : list Z) (descriptorSize extraSize encoderLength : nat) :
  let size := decode_size pixels descriptorSize extraSize encoderLength in
  let bpk := bytesPerKeypoint descriptorSize extraSize in
  decode_traced pixels descriptorSize extraSize encoderLength
  = Some (cells_run (cell_count size bpk) pixels descriptorSize extraSize bpk 0).
Proof.
  intros size bpk. unfold decode_traced. fold size. fold bpk.
  assert (0 < bpk) as Hb
    by (pose proof (bytesPerKeypoint_ge descriptorSize extraSize); unfold bpk; lia).
  destruct (cell_count_spec size bpk Hb) as (Hup & Hlo & Hle).
  rewrite (decode_loop_run (cell_count size bpk)); [| lia | lia | exact Hlo].
  cbn [app]. destruct (cells_run _ _ _ _ _ _). reflexivity.
Qed.

Lemma decode_run (pixels : list Z) (descriptorSize extraSize encoderLength : nat) :
  let size := decode_size pixels descriptorSize extraSize encoderLength in
  let bpk := bytesPerKeypoint descriptorSize extraSize in
  _decode pixels descriptorSize extraSize encoderLength
  = Some (cells_run (cell_count size bpk) pixels descriptorSize extraSize bpk 0).1.
Proof.
  intros size bpk. unfold _decode. rewrite decode_traced_run. reflexivity.
Qed.


(** *** Bytes *)

(** The content of a [Uint8Array]. *)
Definition is_bytes (pixels : list Z) : Prop :=
  Forall (fun b => (0 <= b <= 255)%Z) pixels.

Lemma lor_shiftl_byte (hi lo : Z) :
  (0 <= lo <= 255)%Z -> Z.lor (Z.shiftl hi 8) lo = (256 * hi + lo)%Z.
Proof.
  intros Hlo.
  assert (Z.land (Z.shiftl hi 8) lo = 0%Z) as Hland.
  { apply Z.bits_inj'. intros n Hn. rewrite Z.land_spec, Z.bits_0.
    destruct (Z.ltb_spec n 8) as [Hlt|Hge].
    - rewrite Z.shiftl_spec_low by lia. reflexivity.
    - replace lo with (lo mod 2 ^ 8)%Z by (apply Z.mod_small; lia).
      rewrite Z.mod_pow2_bits_high by lia. apply andb_false_r. }
  pose proof (Z.add_lor_land (Z.shiftl hi 8) lo) as Hadd.
  rewrite Hland in Hadd. rewrite (Z.shiftl_mul_pow2 hi 8) in Hadd at 2 by lia.
  change (2 ^ 8)%Z with 256%Z in Hadd. lia.
Qed.

Lemma ToInt32_byte (pixels : list Z) (k : nat) :
  is_bytes pixels -> (0 <= ToInt32 (pixels !! k) <= 255)%Z.
Proof.
  intros Hb. unfold ToInt32. destruct (pixels !! k) as [b|] eqn:Hk; cbn; [|lia].
  apply (proj1 (Forall_lookup _ _) Hb k b Hk).
Qed.

Lemma word16_bytes (pixels : list Z) (hi lo : nat) :
  is_bytes pixels ->
  word16 (pixels !! hi) (pixels !! lo)
  = (256 * ToInt32 (pixels !! hi) + ToInt32 (pixels !! lo))%Z.
Proof.
  intros Hb. unfold word16. apply lor_shiftl_byte, ToInt32_byte, Hb.
Qed.

(** *** Single cells *)

(** The four position bytes of the cell at byte [i] are FF FF FF FF. *)
Definition is_sentinel (pixels : list Z) (i : nat) : Prop :=
  pixels !! i = Some 255%Z /\ pixels !! (i + 1) = Some 255%Z /\
  pixels !! (i + 2) = Some 255%Z /\ pixels !! (i + 3) = Some 255%Z.

Lemma decode_cell_sentinel (pixels : list Z) (descriptorSize extraSize i : nat) :
  is_sentinel pixels i -> decode_cell pixels descriptorSize extraSize i = Break.
Proof.
  intros (H0 & H1 & H2 & H3). unfold decode_cell, raw_x, raw_y.
  rewrite H0, H1, H2, H3. reflexivity.
Qed.

Lemma decode_cell_Break (pixels : list Z) (descriptorSize extraSize i : nat) :
  is_bytes pixels ->
  decode_cell pixels descriptorSize extraSize i = Break -> is_sentinel pixels i.
Proof.
  intros Hb. unfold decode_cell, raw_x, raw_y.
  rewrite !(word16_bytes pixels) by exact Hb.
  pose proof (ToInt32_byte pixels i Hb) as B0.
  pose proof (ToInt32_byte pixels (i + 1) Hb) as B1.
  pose proof (ToInt32_byte pixels (i + 2) Hb) as B2.
  pose proof (ToInt32_byte pixels (i + 3) Hb) as B3.
  destruct (Z.geb_spec (256 * ToInt32 (pixels !! (i + 1)) + ToInt32 (pixels !! i)) 0xFFFF)
    as [Hx|Hx];
  destruct (Z.geb_spec (256 * ToInt32 (pixels !! (i + 3)) + ToInt32 (pixels !! (i + 2))) 0xFFFF)
    as [Hy|Hy]; cbn [andb].
  - intros _. unfold is_sentinel.
    assert (forall k, (0 <= ToInt32 (pixels !! k) <= 255)%Z ->
              (255 <= ToInt32 (pixels !! k))%Z -> pixels !! k = Some 255%Z) as Hk.
    { intros k Hr Hge. unfold ToInt32 in *. destruct (pixels !! k) as [b|]; cbn in *.
      - f_equal. lia.
      - lia. }
    repeat split; apply Hk; try assumption; lia.
  - destruct (_ && _); [discriminate|]. destruct (_ || _); discriminate.
  - destruct (_ && _); [discriminate|]. destruct (_ || _); discriminate.
  - destruct (_ && _); [discriminate|]. destruct (_ || _); discriminate.
Qed.

(** A keypoint that is pushed carries [extraSize] bytes that follow the
    header and then [descriptorSize] bytes that follow those. *)
Lemma decode_cell_Push (pixels : list Z) (descriptorSize extraSize i : nat)
    (keypoint : SpeedyKeypoint) :
  decode_cell pixels descriptorSize extraSize i = Push keypoint ->
  extraBytes keypoint = subarray pixels (8 + i) (8 + i + extraSize) /\
  descriptorBytes keypoint
  = subarray pixels (8 + i + extraSize) (8 + i + extraSize + descriptorSize) /\
  length (extraBytes keypoint) = extraSize /\
  length (descriptorBytes keypoint) = descriptorSize /\
  score keypoint = word16 (pixels !! (i + 7)) (pixels !! (i + 6)) /\
  lod keypoint = decode_lod (pixels !! (i + 4)) /\
  rotation keypoint = decode_rotation (pixels !! (i + 5)).
Proof.
  unfold decode_cell. cbv zeta.
  destruct (_ && _); [discriminate|].
  destruct (_ && _); [discriminate|].
  destruct (Nat.ltb_spec
              (length (subarray pixels (8 + i + extraSize)
                         (8 + i + extraSize + descriptorSize))) descriptorSize)
    as [Hd|Hd]; [discriminate|].
  destruct (Nat.ltb_spec (length (subarray pixels (8 + i) (8 + i + extraSize))) extraSize)
    as [He|He]; [discriminate|].
  cbn [orb]. intros H. inversion H; subst keypoint; clear H. cbn.
  repeat split; try reflexivity.
  - unfold subarray in *. rewrite length_drop, length_take in *. lia.
  - unfold subarray in *. rewrite length_drop, length_take in *. lia.
Qed.

(** The keypoint of the cell at byte [i], when the cell yields one. *)
Definition cell_keypoint (pixels : list Z) (descriptorSize extraSize i : nat)
  : option SpeedyKeypoint :=
  match decode_cell pixels descriptorSize extraSize i with
  | Push keypoint => Some keypoint
  | _ => None
  end.

(** The keypoints of the cells 0, 1, ..., [c - 1], in this order. *)
Definition keypoints_before (pixels : list Z) (descriptorSize extraSize bpk c : nat)
  : list SpeedyKeypoint :=
  omap (fun m => cell_keypoint pixels descriptorSize extraSize (m * bpk)) (seq 0 c).

Lemma cells_run_split (pixels : list Z) (descriptorSize extraSize bpk c : nat) :
  forall n,
  (forall m, m < c -> decode_cell pixels descriptorSize extraSize (m * bpk) <> Break) ->
  (cells_run (c + n) pixels descriptorSize extraSize bpk 0).1
  = keypoints_before pixels descriptorSize extraSize bpk c
    ++ (cells_run n pixels descriptorSize extraSize bpk (c * bpk)).1.
Proof.
  induction c as [|c IH]; intros n Hnb.
  - reflexivity.
  - replace (S c + n) with (c + S n) by lia.
    rewrite IH by (intros m Hm; apply Hnb; lia).
    unfold keypoints_before. rewrite seq_S, omap_app, <- app_assoc. f_equal.
    cbn [cells_run Nat.add]. unfold cell_keypoint, omap. cbn [list_omap].
    replace (c * bpk + bpk) with (S c * bpk) by lia.
    specialize (Hnb c ltac:(lia)).
    destruct (decode_cell pixels descriptorSize extraSize (c * bpk)); [congruence| |];
      reflexivity.
Qed.


(** *** A buffer all of whose cells yield keypoints up to a sentinel *)

(** When the first [c] cells do not break the loop, and either the cell [c]
    does or the bytes to visit end with the cell [c - 1], [_decode] returns
    the keypoints of the first [c] cells. *)
Lemma decode_first_cells
    (pixels : list Z) (descriptorSize extraSize encoderLength c : nat) :
  let bpk := bytesPerKeypoint descriptorSize extraSize in
  let size := decode_size pixels descriptorSize extraSize encoderLength in
  (forall m, m < c -> decode_cell pixels descriptorSize extraSize (m * bpk) <> Break) ->
  (c * bpk < size /\ decode_cell pixels descriptorSize extraSize (c * bpk) = Break) \/
    c * bpk = size ->
  _decode pixels descriptorSize extraSize encoderLength
  = Some (keypoints_before pixels descriptorSize extraSize bpk c).
Proof.
  intros bpk size Hnb Hend. rewrite decode_run. cbv zeta. fold bpk. fold size.
  assert (0 < bpk) as Hpos
    by (pose proof (bytesPerKeypoint_ge descriptorSize extraSize); unfold bpk; lia).
  destruct (cell_count_spec size bpk Hpos) as (Hup & Hlo & Hle).
  destruct Hend as [[Hc HB]|Hc].
  - pose proof (cell_count_lt size bpk c Hpos Hc) as Hlt.
    replace (cell_count size bpk) with (c + S (cell_count size bpk - S c)) by lia.
    rewrite cells_run_split by exact Hnb.
    cbn [cells_run]. rewrite HB. cbn [fst]. rewrite app_nil_r. reflexivity.
  - assert (cell_count size bpk = c) as ->.
    { destruct (decide (cell_count size bpk = 0)) as [H0|H0]; [nia|].
      specialize (Hlo ltac:(lia)). nia. }
    replace c with (c + 0) at 1 by lia.
    rewrite cells_run_split by exact Hnb.
    cbn [cells_run fst]. rewrite app_nil_r. reflexivity.
Qed.

(** The keypoints of the first [c] cells, when each of them yields one. *)
Lemma keypoints_before_all (pixels : list Z) (descriptorSize extraSize bpk c : nat)
    (f : nat -> SpeedyKeypoint) :
  (forall m, m < c ->
     decode_cell pixels descriptorSize extraSize (m * bpk) = Push (f m)) ->
  keypoints_before pixels descriptorSize extraSize bpk c = f <$> seq 0 c.
Proof.
  induction c as [|c IH]; intros Hall; [reflexivity|].
  unfold keypoints_before in *. rewrite seq_S, omap_app, fmap_app.
  rewrite IH by (intros m Hm; apply Hall; lia). f_equal.
  cbn [Nat.add]. unfold omap, cell_keypoint. cbn [list_omap fmap list_fmap].
  rewrite (Hall c) by lia. reflexivity.
Qed.


(** *** Properties of the decoder *)

Lemma cells_before_do_not_break (pixels : list Z) (descriptorSize extraSize bpk c : nat) :
  is_bytes pixels ->
  (forall m, m < c -> ~ is_sentinel pixels (m * bpk)) ->
  forall m, m < c -> decode_cell pixels descriptorSize extraSize (m * bpk) <> Break.
Proof.
  intros Hb Hns m Hm HB. apply (Hns m Hm).
  apply (decode_cell_Break pixels descriptorSize extraSize (m * bpk) Hb HB).
Qed.

(** *** The cells by the decoding rules of the specification *)

(** The byte [k] of the buffer. *)
Definition byte (pixels : list Z) (k : nat) : Z := default 0%Z (pixels !! k).

(** The keypoint that the cell starting at byte [i] holds, read off the
    eight header bytes xLo xHi yLo yHi lodByte orientationByte scoreLo
    scoreHi by the decoding rules of the specification: the position is the
    two little-endian words over [FIX_RESOLUTION], the level of detail
    [-m + (m + h) * lodByte / 255] when [lodByte < 255] and 0 otherwise, the
    orientation [(2 * orientationByte - 255) * pi / 255], the score the
    little-endian word; a cell whose raw x plus raw y is 0 and whose scoreLo
    is 0 holds no keypoint. The payload is taken in the order of the
    decoder: [extraSize] extra bytes, then [descriptorSize] descriptor
    bytes. Nothing here mentions the sentinel or the loop. *)
Definition spec_keypoint (pixels : list Z) (descriptorSize extraSize i : nat)
  : option SpeedyKeypoint :=
  let xLo := byte pixels i in
  let xHi := byte pixels (i + 1) in
  let yLo := byte pixels (i + 2) in
  let yHi := byte pixels (i + 3) in
  let lodByte := byte pixels (i + 4) in
  let orientationByte := byte pixels (i + 5) in
  let scoreLo := byte pixels (i + 6) in
  let scoreHi := byte pixels (i + 7) in
  let rawX := (256 * xHi + xLo)%Z in
  let rawY := (256 * yHi + yLo)%Z in
  let m := LOG2_PYRAMID_MAX_SCALE in
  let h := PYRAMID_MAX_LEVELS in
  if (rawX + rawY =? 0)%Z && (scoreLo =? 0)%Z then None
  else Some {|
    x := (inject_Z rawX / inject_Z FIX_RESOLUTION)%Q;
    y := (inject_Z rawY / inject_Z FIX_RESOLUTION)%Q;
    lod := if (lodByte <? 255)%Z
           then (- m + ((m + h) * inject_Z lodByte) / inject_Z 255)%Q
           else 0%Q;
    rotation := TimesPiOver255 (2 * orientationByte - 255);
    score := (256 * scoreHi + scoreLo)%Z;
    descriptorBytes := take descriptorSize (drop (i + 8 + extraSize) pixels);
    extraBytes := take extraSize (drop (i + 8) pixels)
  |}.

(** The keypoints that the [n] cells from the cell [from] on hold, in the
    order of the cells. *)
Definition spec_keypoints (pixels : list Z) (descriptorSize extraSize bpk from n : nat)
  : list SpeedyKeypoint :=
  omap (fun m => spec_keypoint pixels descriptorSize extraSize (m * bpk)) (seq from n).

Lemma ToInt32_lookup (pixels : list Z) (k : nat) :
  ToInt32 (pixels !! k) = byte pixels k.
Proof. reflexivity. Qed.

Lemma lookup_byte (pixels : list Z) (k : nat) :
  k < length pixels -> pixels !! k = Some (byte pixels k).
Proof.
  intros Hk. unfold byte.
  destruct (lookup_lt_is_Some_2 pixels k Hk) as [b ->]. reflexivity.
Qed.

(** On a cell that lies inside a buffer of bytes and is no sentinel, the
    loop body of [_decode] pushes the keypoint that the cell holds by the
    rules, and goes on when it holds none. *)
Lemma decode_cell_spec (pixels : list Z) (descriptorSize extraSize i : nat) :
  is_bytes pixels ->
  i + 8 + extraSize + descriptorSize <= length pixels ->
  ~ is_sentinel pixels i ->
  decode_cell pixels descriptorSize extraSize i
  = match spec_keypoint pixels descriptorSize extraSize i with
    | Some keypoint => Push keypoint
    | None => Continue
    end.
Proof.
  intros Hb Hin Hns.
  assert (decode_cell pixels descriptorSize extraSize i <> Break) as Hnb
    by (intros HB; apply Hns; exact (decode_cell_Break _ _ _ _ Hb HB)).
  revert Hnb. unfold decode_cell, spec_keypoint. cbv zeta.
  destruct ((raw_x pixels i >=? 0xFFFF)%Z && (raw_y pixels i >=? 0xFFFF)%Z);
    [congruence|]. intros _.
  unfold raw_x, raw_y, decode_lod. cbv zeta.
  rewrite !word16_bytes by exact Hb. rewrite !ToInt32_lookup.
  rewrite (lookup_byte pixels (i + 4)), (lookup_byte pixels (i + 5)),
    (lookup_byte pixels (i + 6)) by lia.
  cbn [loose_eq_zero less_than_255 decode_rotation default from_option id].
  destruct ((_ =? 0)%Z && (_ =? 0)%Z); [reflexivity|].
  assert (subarray pixels (8 + i) (8 + i + extraSize)
          = take extraSize (drop (i + 8) pixels)) as ->.
  { unfold subarray. rewrite take_drop_commute.
    replace (8 + i) with (i + 8) by lia. reflexivity. }
  assert (subarray pixels (8 + i + extraSize) (8 + i + extraSize + descriptorSize)
          = take descriptorSize (drop (i + 8 + extraSize) pixels)) as ->.
  { unfold subarray. rewrite take_drop_commute.
    replace (8 + i + extraSize) with (i + 8 + extraSize) by lia. reflexivity. }
  rewrite !length_take, !length_drop.
  destruct (Nat.ltb_spec (min descriptorSize (length pixels - (i + 8 + extraSize)))
              descriptorSize) as [Hd|Hd]; [lia|].
  destruct (Nat.ltb_spec (min extraSize (length pixels - (i + 8))) extraSize)
    as [He|He]; [lia|].
  reflexivity.
Qed.

(** A run of cells that lie inside a buffer of bytes, none of them a
    sentinel: the keypoints of the loop are those of the rules. *)
Lemma cell_keypoints_spec (pixels : list Z) (descriptorSize extraSize bpk : nat) :
  is_bytes pixels -> 8 + extraSize + descriptorSize <= bpk ->
  forall n from,
  (forall m, from <= m < from + n ->
     (m + 1) * bpk <= length pixels /\ ~ is_sentinel pixels (m * bpk)) ->
  omap (fun m => cell_keypoint pixels descriptorSize extraSize (m * bpk)) (seq from n)
  = spec_keypoints pixels descriptorSize extraSize bpk from n.
Proof.
  intros Hb Hbpk. unfold spec_keypoints.
  induction n as [|n IH]; intros from Hcells; [reflexivity|].
  cbn [seq]. unfold omap. cbn [list_omap]. fold (@omap list _).
  rewrite <- (IH (S from)) by (intros m Hm; apply Hcells; lia).
  destruct (Hcells from ltac:(lia)) as [Hin Hns].
  unfold cell_keypoint at 1.
  rewrite decode_cell_spec by (try assumption; lia).
  destruct (spec_keypoint pixels descriptorSize extraSize (from * bpk)); reflexivity.
Qed.

Lemma spec_keypoints_app (pixels : list Z) (descriptorSize extraSize bpk from n n' : nat) :
  spec_keypoints pixels descriptorSize extraSize bpk from (n + n')
  = spec_keypoints pixels descriptorSize extraSize bpk from n
    ++ spec_keypoints pixels descriptorSize extraSize bpk (from + n) n'.
Proof. unfold spec_keypoints. rewrite seq_app. apply omap_app. Qed.

(** An empty cell holds no keypoint by the rules. *)
Lemma spec_keypoint_empty (pixels : list Z) (descriptorSize extraSize i : nat) :
  is_bytes pixels ->
  (raw_x pixels i + raw_y pixels i = 0)%Z -> pixels !! (i + 6) = Some 0%Z ->
  spec_keypoint pixels descriptorSize extraSize i = None /\
  decode_cell pixels descriptorSize extraSize i = Continue.
Proof.
  intros Hb Hxy H6. split.
  - unfold spec_keypoint. cbv zeta. unfold raw_x, raw_y in Hxy.
    rewrite !word16_bytes, !ToInt32_lookup in Hxy by exact Hb.
    assert (byte pixels (i + 6) = 0%Z) as H0 by (unfold byte; rewrite H6; reflexivity).
    rewrite Hxy, H0. reflexivity.
  - unfold decode_cell. cbv zeta.
    unfold raw_x, raw_y in *. rewrite !word16_bytes in * by exact Hb.
    pose proof (ToInt32_byte pixels i Hb). pose proof (ToInt32_byte pixels (i + 1) Hb).
    pose proof (ToInt32_byte pixels (i + 2) Hb).
    pose proof (ToInt32_byte pixels (i + 3) Hb).
    destruct (Z.geb_spec (256 * ToInt32 (pixels !! (i + 1)) + ToInt32 (pixels !! i))
                0xFFFF) as [Hx|Hx]; [lia|].
    cbn [andb]. rewrite Hxy, H6. reflexivity.
Qed.

(** The keypoints of the first [c'] cells, then what the loop yields from
    the cell [c'] on, when no cell before [c'] breaks the loop and the cell
    [c'] starts no later than the bytes to visit end. *)
Lemma decode_split (pixels : list Z) (descriptorSize extraSize encoderLength c' : nat) :
  let bpk := bytesPerKeypoint descriptorSize extraSize in
  let size := decode_size pixels descriptorSize extraSize encoderLength in
  c' <= cell_count size bpk ->
  (forall m, m < c' -> decode_cell pixels descriptorSize extraSize (m * bpk) <> Break) ->
  exists rest,
    _decode pixels descriptorSize extraSize encoderLength
    = Some (keypoints_before pixels descriptorSize extraSize bpk c' ++ rest) /\
    (size <= c' * bpk \/ is_sentinel pixels (c' * bpk) -> rest = []).
Proof.
  intros bpk size Hc Hnb.
  assert (0 < bpk) as Hpos
    by (pose proof (bytesPerKeypoint_ge descriptorSize extraSize); unfold bpk; lia).
  destruct (cell_count_spec size bpk Hpos) as (Hup & Hlo & _).
  set (n := cell_count size bpk - c').
  exists (cells_run n pixels descriptorSize extraSize bpk (c' * bpk)).1. split.
  - rewrite decode_run. cbv zeta. fold bpk size.
    replace (cell_count size bpk) with (c' + n) by (unfold n; lia).
    rewrite cells_run_split by exact Hnb. reflexivity.
  - intros Hend. destruct n as [|n'] eqn:Hn; [reflexivity|].
    destruct Hend as [Hsize|Hs].
    + exfalso. specialize (Hlo ltac:(lia)).
      assert (c' <= cell_count size bpk - 1) as Hle by lia.
      apply (Nat.mul_le_mono_r _ _ bpk) in Hle. lia.
    + cbn [cells_run]. rewrite (decode_cell_sentinel _ _ _ _ Hs). reflexivity.
Qed.

(** C5: when the cell [c] of the bytes that [_decode] visits is the first
    one whose position bytes are FF FF FF FF, [_decode] returns exactly the
    keypoints that the cells before it hold by the decoding rules, in the
    order of the cells; the sentinel cell and the cells after it contribute
    nothing. *)
Theorem decode_stops_at_first_sentinel
    (pixels : list Z) (descriptorSize extraSize encoderLength c : nat) :
  is_bytes pixels ->
  c * bytesPerKeypoint descriptorSize extraSize
    < decode_size pixels descriptorSize extraSize encoderLength ->
  is_sentinel pixels (c * bytesPerKeypoint descriptorSize extraSize) ->
  (forall m, m < c ->
     ~ is_sentinel pixels (m * bytesPerKeypoint descriptorSize extraSize)) ->
  _decode pixels descriptorSize extraSize encoderLength
  = Some (spec_keypoints pixels descriptorSize extraSize
            (bytesPerKeypoint descriptorSize extraSize) 0 c).
Proof.
  intros Hb Hc Hs Hfirst.
  set (bpk := bytesPerKeypoint descriptorSize extraSize) in *.
  set (size := decode_size pixels descriptorSize extraSize encoderLength) in *.
  assert (0 < bpk) as Hpos
    by (pose proof (bytesPerKeypoint_ge descriptorSize extraSize); unfold bpk; lia).
  assert (size <= length pixels) as Hsize by (unfold size, decode_size; cbv zeta; lia).
  pose proof (cell_count_lt size bpk c Hpos Hc) as Hlt.
  destruct (decode_split pixels descriptorSize extraSize encoderLength c
              ltac:(fold bpk size; lia)
              (cells_before_do_not_break _ _ _ _ _ Hb Hfirst))
    as (rest & Hrun & Hrest).
  fold bpk in Hrun, Hrest. rewrite Hrun, (Hrest (or_intror Hs)), app_nil_r.
  f_equal. unfold keypoints_before. apply cell_keypoints_spec.
  - exact Hb.
  - pose proof (pixelsPerKeypoint_covers descriptorSize extraSize).
    unfold bpk, bytesPerKeypoint. lia.
  - intros m Hm. split; [|apply Hfirst; lia].
    assert (m + 1 <= c) as Hle by lia.
    apply (Nat.mul_le_mono_r _ _ bpk) in Hle. lia.
Qed.

(** C6: a cell [c] among the bytes that [_decode] visits whose raw x plus
    raw y is 0 and whose byte 6 is 0 yields no keypoint and does not stop
    the decoding: with no sentinel before the cell [c'], and the cells
    between [c] and [c'] inside the bytes to visit, the result is the
    keypoints that the cells before [c] hold by the decoding rules, followed
    by those of the cells [c + 1], ..., [c' - 1], followed by what comes from
    the cell [c'] on, which is nothing when the bytes to visit end there or
    the cell [c'] is the sentinel. *)
Theorem decode_skips_empty_cell
    (pixels : list Z) (descriptorSize extraSize encoderLength c c' : nat) :
  is_bytes pixels ->
  c * bytesPerKeypoint descriptorSize extraSize
    < decode_size pixels descriptorSize extraSize encoderLength ->
  (raw_x pixels (c * bytesPerKeypoint descriptorSize extraSize)
   + raw_y pixels (c * bytesPerKeypoint descriptorSize extraSize) = 0)%Z ->
  pixels !! (c * bytesPerKeypoint descriptorSize extraSize + 6) = Some 0%Z ->
  c < c' ->
  (forall m, c < m < c' ->
     (m + 1) * bytesPerKeypoint descriptorSize extraSize
       <= decode_size pixels descriptorSize extraSize encoderLength) ->
  (forall m, m < c' ->
     ~ is_sentinel pixels (m * bytesPerKeypoint descriptorSize extraSize)) ->
  exists rest,
    _decode pixels descriptorSize extraSize encoderLength
    = Some (spec_keypoints pixels descriptorSize extraSize
              (bytesPerKeypoint descriptorSize extraSize) 0 c
            ++ spec_keypoints pixels descriptorSize extraSize
                 (bytesPerKeypoint descriptorSize extraSize) (c + 1) (c' - (c + 1))
            ++ rest) /\
    (decode_size pixels descriptorSize extraSize encoderLength
       <= c' * bytesPerKeypoint descriptorSize extraSize \/
     is_sentinel pixels (c' * bytesPerKeypoint descriptorSize extraSize) ->
     rest = []).
Proof.
  intros Hb Hc Hxy H6 Hcc Hinside Hfirst.
  set (bpk := bytesPerKeypoint descriptorSize extraSize) in *.
  set (size := decode_size pixels descriptorSize extraSize encoderLength) in *.
  assert (0 < bpk) as Hpos
    by (pose proof (bytesPerKeypoint_ge descriptorSize extraSize); unfold bpk; lia).
  assert (8 + extraSize + descriptorSize <= bpk) as Hbpk
    by (pose proof (pixelsPerKeypoint_covers descriptorSize extraSize);
        unfold bpk, bytesPerKeypoint; lia).
  assert (size <= length pixels) as Hsize by (unfold size, decode_size; cbv zeta; lia).
  destruct (spec_keypoint_empty pixels descriptorSize extraSize (c * bpk) Hb Hxy H6)
    as [Hnone Hcont].
  assert (c' <= cell_count size bpk) as Hle.
  { destruct (decide (c' = c + 1)) as [->|Hne].
    - pose proof (cell_count_lt size bpk c Hpos Hc). lia.
    - specialize (Hinside (c' - 1) ltac:(lia)).
      replace (c' - 1 + 1) with c' in Hinside by lia.
      destruct (cell_count_spec size bpk Hpos) as (Hup & _ & _).
      apply (Nat.mul_le_mono_pos_r _ _ bpk Hpos). lia. }
  destruct (decode_split pixels descriptorSize extraSize encoderLength c'
              ltac:(fold bpk size; exact Hle)
              (cells_before_do_not_break _ _ _ _ _ Hb Hfirst))
    as (rest & Hrun & Hrest).
  fold bpk size in Hrun, Hrest.
  exists rest. split; [|exact Hrest]. rewrite Hrun. f_equal. rewrite app_assoc. f_equal.
  unfold keypoints_before.
  replace c' with (c + (1 + (c' - (c + 1)))) at 1 by lia.
  rewrite !seq_app, !omap_app. cbn [seq Nat.add].
  rewrite (cell_keypoints_spec pixels descriptorSize extraSize bpk Hb Hbpk c 0).
  - rewrite (cell_keypoints_spec pixels descriptorSize extraSize bpk Hb Hbpk
               (c' - (c + 1)) (c + 1)).
    + unfold omap at 1. cbn [list_omap]. unfold cell_keypoint at 1.
      rewrite Hcont. reflexivity.
    + intros m Hm. split; [|apply Hfirst; lia].
      specialize (Hinside m ltac:(lia)). lia.
  - intros m Hm. split; [|apply Hfirst; lia].
    assert (m + 1 <= c) as Hmc by lia.
    apply (Nat.mul_le_mono_r _ _ bpk) in Hmc. lia.
Qed.

(** Every keypoint of a run of cells is the keypoint of one of them. *)
Lemma cells_run_from_cell (n : nat) :
  forall pixels descriptorSize extraSize bpk i keypoint,
  keypoint ∈ (cells_run n pixels descriptorSize extraSize bpk i).1 ->
  exists m, m < n /\
    decode_cell pixels descriptorSize extraSize (i + m * bpk) = Push keypoint.
Proof.
  induction n as [|n IH]; intros pixels ds es bpk i kp Hin; cbn [cells_run] in Hin.
  - cbn in Hin. apply elem_of_nil in Hin. destruct Hin.
  - destruct (decode_cell pixels ds es i) as [| |k] eqn:Hcell; cbn [fst] in Hin.
    + apply elem_of_nil in Hin. destruct Hin.
    + destruct (IH _ _ _ _ _ _ Hin) as (m & Hm & Hpush).
      exists (S m). split; [lia|]. rewrite <- Hpush. f_equal. lia.
    + apply elem_of_cons in Hin. destruct Hin as [->|Hin].
      * exists 0. split; [lia|]. rewrite <- Hcell. f_equal. lia.
      * destruct (IH _ _ _ _ _ _ Hin) as (m & Hm & Hpush).
        exists (S m). split; [lia|]. rewrite <- Hpush. f_equal. lia.
Qed.

Lemma cells_run_length (n : nat) :
  forall pixels descriptorSize extraSize bpk i,
  length (cells_run n pixels descriptorSize extraSize bpk i).1 <= n.
Proof.
  induction n as [|n IH]; intros pixels ds es bpk i; cbn [cells_run].
  - cbn. lia.
  - specialize (IH pixels ds es bpk (i + bpk)).
    destruct (decode_cell pixels ds es i); cbn [fst length]; lia.
Qed.

Lemma cell_reads_header (pixels : list Z) (i k : nat) :
  k ∈ cell_reads pixels i -> k < i + 8.
Proof.
  unfold cell_reads. cbv zeta. intros Hin.
  repeat (apply elem_of_app in Hin; destruct Hin as [Hin|Hin]);
    repeat match goal with
    | H : _ ∈ (if ?b then _ else _) |- _ => destruct b
    | H : _ ∈ _ ++ _ |- _ => apply elem_of_app in H; destruct H as [H|H]
    | H : _ ∈ _ :: _ |- _ => apply elem_of_cons in H; destruct H as [->|H]
    | H : _ ∈ [] |- _ => apply elem_of_nil in H; destruct H
    end; lia.
Qed.

Lemma cells_run_reads (n : nat) :
  forall pixels descriptorSize extraSize bpk i k,
  k ∈ (cells_run n pixels descriptorSize extraSize bpk i).2 ->
  exists m, m < n /\ k < i + m * bpk + 8.
Proof.
  induction n as [|n IH]; intros pixels ds es bpk i k Hin; cbn [cells_run] in Hin.
  - cbn in Hin. apply elem_of_nil in Hin. destruct Hin.
  - assert (k ∈ cell_reads pixels i \/
            k ∈ (cells_run n pixels ds es bpk (i + bpk)).2) as [Hh|Ht].
    { destruct (decode_cell pixels ds es i); cbn [snd] in Hin.
      - left. exact Hin.
      - apply elem_of_app in Hin. exact Hin.
      - apply elem_of_app in Hin. exact Hin. }
    + exists 0. split; [lia|]. apply cell_reads_header in Hh. lia.
    + destruct (IH _ _ _ _ _ _ Ht) as (m & Hm & Hk).
      exists (S m). split; [lia|]. lia.
Qed.


(** C3, as the decoder has it: every keypoint that [_decode] returns is the
    keypoint of a cell it visits, its extra bytes are the [extraSize] bytes
    that follow the 8-byte header of that cell, and its descriptor is the
    [descriptorSize] bytes that follow the extra bytes. *)
Theorem decoded_bytes_are_extra_then_descriptor
    (pixels : list Z) (descriptorSize extraSize encoderLength : nat) :
  exists keypoints,
    _decode pixels descriptorSize extraSize encoderLength = Some keypoints /\
    Forall (fun keypoint => exists c,
      let i := c * bytesPerKeypoint descriptorSize extraSize in
      i < decode_size pixels descriptorSize extraSize encoderLength /\
      cell_keypoint pixels descriptorSize extraSize i = Some keypoint /\
      extraBytes keypoint = subarray pixels (i + 8) (i + 8 + extraSize) /\
      length (extraBytes keypoint) = extraSize /\
      descriptorBytes keypoint
      = subarray pixels (i + 8 + extraSize) (i + 8 + extraSize + descriptorSize) /\
      length (descriptorBytes keypoint) = descriptorSize) keypoints.
Proof.
  eexists. split; [apply decode_run|]. cbv zeta.
  set (bpk := bytesPerKeypoint descriptorSize extraSize).
  set (size := decode_size pixels descriptorSize extraSize encoderLength).
  assert (0 < bpk) as Hpos
    by (pose proof (bytesPerKeypoint_ge descriptorSize extraSize); unfold bpk; lia).
  destruct (cell_count_spec size bpk Hpos) as (Hup & Hlo & Hle).
  apply Forall_forall. intros kp Hin. apply list_elem_of_In in Hin.
  destruct (cells_run_from_cell _ _ _ _ _ _ _ Hin) as (m & Hm & Hpush).
  cbn [Nat.add] in Hpush. exists m.
  destruct (decode_cell_Push _ _ _ _ _ Hpush) as (He & Hd & Hle' & Hld & _).
  split; [specialize (Hlo ltac:(lia)); nia|].
  split; [unfold cell_keypoint; rewrite Hpush; reflexivity|].
  replace (m * bpk + 8) with (8 + m * bpk) by lia.
  repeat split; assumption.
Qed.

(** [_decode] returns for every buffer and all sizes; it returns at most one
    keypoint per cell of the bytes it visits, each with exactly
    [descriptorSize] descriptor bytes and [extraSize] extra bytes; and its
    element reads stay inside the buffer when the length of the buffer is a
    multiple of the cell size or reaches the size of the encoder texture's
    cells. *)
Theorem decode_returns_and_is_bounded
    (pixels : list Z) (descriptorSize extraSize encoderLength : nat) :
  let pixelsPerKeypoint := ceil_div4 (8 + descriptorSize + extraSize) in
  let size := min (length pixels)
                (encoderLength * encoderLength * pixelsPerKeypoint * 4) in
  exists keypoints reads,
    decode_traced pixels descriptorSize extraSize encoderLength = Some (keypoints, reads) /\
    _decode pixels descriptorSize extraSize encoderLength = Some keypoints /\
    length keypoints <= (size + 4 * pixelsPerKeypoint - 1) / (4 * pixelsPerKeypoint) /\
    Forall (fun keypoint =>
      length (descriptorBytes keypoint) = descriptorSize /\
      length (extraBytes keypoint) = extraSize) keypoints /\
    (((4 * pixelsPerKeypoint | length pixels) \/
      encoderLength * encoderLength * pixelsPerKeypoint * 4 <= length pixels) ->
     Forall (fun k => k < length pixels) reads).
Proof.
  intros ppk size.
  set (bpk := bytesPerKeypoint descriptorSize extraSize).
  assert (bpk = 4 * ppk) as Hbpk by reflexivity.
  assert (size = decode_size pixels descriptorSize extraSize encoderLength) as Hsize
    by reflexivity.
  assert (0 < bpk) as Hpos
    by (pose proof (bytesPerKeypoint_ge descriptorSize extraSize); unfold bpk; lia).
  destruct (cell_count_spec size bpk Hpos) as (Hup & Hlo & Hle).
  exists (cells_run (cell_count size bpk) pixels descriptorSize extraSize bpk 0).1,
         (cells_run (cell_count size bpk) pixels descriptorSize extraSize bpk 0).2.
  split; [|split; [|split; [|split]]].
  - rewrite decode_traced_run. cbv zeta. fold bpk. rewrite <- Hsize.
    destruct (cells_run _ _ _ _ _ _); reflexivity.
  - rewrite decode_run. reflexivity.
  - rewrite <- Hbpk. apply cells_run_length.
  - apply Forall_forall. intros kp Hin. apply list_elem_of_In in Hin.
    destruct (cells_run_from_cell _ _ _ _ _ _ _ Hin) as (m & Hm & Hpush).
    destruct (decode_cell_Push _ _ _ _ _ Hpush) as (_ & _ & He & Hd & _).
    split; assumption.
  - intros Hwhole. apply Forall_forall. intros k Hin. apply list_elem_of_In in Hin.
    destruct (cells_run_reads _ _ _ _ _ _ _ Hin) as (m & Hm & Hk).
    cbn [Nat.add] in Hk.
    assert (m * bpk < size) as Hms by (specialize (Hlo ltac:(lia)); nia).
    pose proof (bytesPerKeypoint_ge descriptorSize extraSize) as H8. fold bpk in H8.
    assert (size <= length pixels) as Hsl by (unfold size; lia).
    enough ((m + 1) * bpk <= length pixels) by lia.
    destruct Hwhole as [[q Hq]|He2].
    + rewrite <- Hbpk in Hq. rewrite Hq in *.
      assert (m < q) by nia. nia.
    + assert (size = encoderLength * encoderLength * bpk) as Hs2 by (unfold size; lia).
      assert (m < encoderLength * encoderLength) by nia.
      assert ((m + 1) * bpk <= encoderLength * encoderLength * bpk) by nia.
      lia.
Qed.


(** *** What the decoder returns, for every buffer *)

(** The header fields of a keypoint that is pushed, and why the cell was
    neither the end of the list nor discarded. *)
Lemma decode_cell_Push_header (pixels : list Z) (descriptorSize extraSize i : nat)
    (keypoint : SpeedyKeypoint) :
  decode_cell pixels descriptorSize extraSize i = Push keypoint ->
  x keypoint = (inject_Z (raw_x pixels i) / inject_Z FIX_RESOLUTION)%Q /\
  y keypoint = (inject_Z (raw_y pixels i) / inject_Z FIX_RESOLUTION)%Q /\
  ~ (0xFFFF <= raw_x pixels i /\ 0xFFFF <= raw_y pixels i)%Z /\
  ~ ((raw_x pixels i + raw_y pixels i = 0)%Z /\ pixels !! (i + 6) = Some 0%Z).
Proof.
  unfold decode_cell. cbv zeta.
  destruct (Z.geb_spec (raw_x pixels i) 0xFFFF) as [Hx|Hx];
    destruct (Z.geb_spec (raw_y pixels i) 0xFFFF) as [Hy|Hy]; cbn [andb];
    try discriminate.
  all: destruct (Z.eqb_spec (raw_x pixels i + raw_y pixels i) 0) as [Hxy|Hxy];
    cbn [andb].
  all: try (destruct (loose_eq_zero (pixels !! (i + 6))) eqn:H6; [discriminate|]).
  all: destruct (_ || _); [discriminate|].
  all: intros [= <-]; cbn [x y]; repeat split; try lia.
  all: try (intros [_ H0]; rewrite H0 in H6; discriminate H6).
Qed.

(** Every keypoint that [_decode] returns was pushed by a cell that starts
    among the bytes the loop visits. *)
Lemma decoded_from_cell (pixels : list Z) (descriptorSize extraSize encoderLength : nat)
    (keypoints : list SpeedyKeypoint) (keypoint : SpeedyKeypoint) :
  _decode pixels descriptorSize extraSize encoderLength = Some keypoints ->
  keypoint ∈ keypoints ->
  exists c,
    c * bytesPerKeypoint descriptorSize extraSize
      < decode_size pixels descriptorSize extraSize encoderLength /\
    decode_cell pixels descriptorSize extraSize
      (c * bytesPerKeypoint descriptorSize extraSize) = Push keypoint.
Proof.
  rewrite decode_run. intros [= <-] Hin.
  destruct (cells_run_from_cell _ _ _ _ _ _ _ Hin) as (m & Hm & Hpush).
  cbn [Nat.add] in Hpush. exists m. split; [|exact Hpush].
  pose proof (bytesPerKeypoint_ge descriptorSize extraSize) as H8.
  destruct (cell_count_spec (decode_size pixels descriptorSize extraSize encoderLength)
              (bytesPerKeypoint descriptorSize extraSize) ltac:(lia)) as (_ & Hlo & _).
  specialize (Hlo ltac:(lia)). nia.
Qed.

(** The decoder never returns more keypoints than the encoder texture has
    cells, [encoderLength * encoderLength], nor more than the buffer has
    cells, a last incomplete cell included: it returns no keypoint from an
    empty buffer. *)
Theorem decode_within_capacity
    (pixels : list Z) (descriptorSize extraSize encoderLength : nat) :
  exists keypoints,
    _decode pixels descriptorSize extraSize encoderLength = Some keypoints /\
    length keypoints <= encoderLength * encoderLength /\
    length keypoints * bytesPerKeypoint descriptorSize extraSize
      < length pixels + bytesPerKeypoint descriptorSize extraSize.
Proof.
  eexists. split; [apply decode_run|].
  set (size := decode_size pixels descriptorSize extraSize encoderLength).
  set (bpk := bytesPerKeypoint descriptorSize extraSize).
  pose proof (cells_run_length (cell_count size bpk) pixels descriptorSize extraSize
                bpk 0) as Hlen.
  assert (8 <= bpk) as H8 by apply bytesPerKeypoint_ge.
  destruct (cell_count_spec size bpk ltac:(lia)) as (_ & Hlo & _).
  assert (size <= length pixels /\ size <= encoderLength * encoderLength * bpk)
    as [Hs1 Hs2] by (unfold size, decode_size, bpk, bytesPerKeypoint; cbv zeta; lia).
  destruct (decide (cell_count size bpk = 0)) as [H0|H0]; [split; nia|].
  specialize (Hlo ltac:(lia)). split; nia.
Qed.

(** When keypoints carry a descriptor or extra bytes, every keypoint that
    [_decode] returns comes from a cell whose header and payload lie inside
    the buffer: a truncated last cell is discarded, and no field is computed
    from a read past the end, so that no orientation is NaN. *)
Theorem decoded_cells_lie_inside
    (pixels : list Z) (descriptorSize extraSize encoderLength : nat)
    (keypoints : list SpeedyKeypoint) :
  0 < descriptorSize + extraSize ->
  _decode pixels descriptorSize extraSize encoderLength = Some keypoints ->
  Forall (fun keypoint => exists c,
    let i := c * bytesPerKeypoint descriptorSize extraSize in
    cell_keypoint pixels descriptorSize extraSize i = Some keypoint /\
    i + 8 + extraSize + descriptorSize <= length pixels /\
    exists b, pixels !! (i + 5) = Some b /\
      rotation keypoint = TimesPiOver255 (2 * b - 255)) keypoints.
Proof.
  intros Hpos Hrun. apply Forall_forall. intros keypoint Hin.
  apply list_elem_of_In in Hin.
  destruct (decoded_from_cell _ _ _ _ _ _ Hrun Hin) as (c & _ & Hpush).
  exists c. cbv zeta.
  set (i := c * bytesPerKeypoint descriptorSize extraSize) in *.
  destruct (decode_cell_Push _ _ _ _ _ Hpush) as (He & Hd & Hle & Hld & _ & _ & Hrot).
  assert (i + 8 + extraSize + descriptorSize <= length pixels) as Hinside.
  { rewrite He in Hle. rewrite Hd in Hld. unfold subarray in *.
    rewrite length_drop, length_take in Hle, Hld. lia. }
  split; [unfold cell_keypoint; rewrite Hpush; reflexivity|].
  split; [exact Hinside|].
  destruct (lookup_lt_is_Some_2 pixels (i + 5) ltac:(lia)) as [b Hb].
  exists b. split; [exact Hb|]. rewrite Hrot, Hb. reflexivity.
Qed.

(** From a buffer of bytes, every keypoint that [_decode] returns has a score
    between 0 and 65535; fixed-point coordinates between 0 and 65535 that
    are not both 65535; and an orientation that is NaN or an odd multiple of
    pi/255 between -pi and pi. *)
Theorem decoded_fields_in_range
    (pixels : list Z) (descriptorSize extraSize encoderLength : nat)
    (keypoints : list SpeedyKeypoint) :
  is_bytes pixels ->
  _decode pixels descriptorSize extraSize encoderLength = Some keypoints ->
  Forall (fun keypoint =>
    (0 <= score keypoint <= 65535)%Z /\
    (exists rx ry : Z,
       x keypoint = (inject_Z rx / inject_Z FIX_RESOLUTION)%Q /\
       y keypoint = (inject_Z ry / inject_Z FIX_RESOLUTION)%Q /\
       (0 <= rx <= 65535)%Z /\ (0 <= ry <= 65535)%Z /\
       ~ (rx = 65535 /\ ry = 65535)%Z) /\
    (rotation keypoint = NaN \/
     exists k, rotation keypoint = TimesPiOver255 k /\
       (-255 <= k <= 255)%Z /\ Z.odd k = true)) keypoints.
Proof.
  intros Hbytes Hrun. apply Forall_forall. intros keypoint Hin.
  apply list_elem_of_In in Hin.
  destruct (decoded_from_cell _ _ _ _ _ _ Hrun Hin) as (c & _ & Hpush).
  set (i := c * bytesPerKeypoint descriptorSize extraSize) in *.
  destruct (decode_cell_Push _ _ _ _ _ Hpush) as (_ & _ & _ & _ & Hscore & _ & Hrot).
  destruct (decode_cell_Push_header _ _ _ _ _ Hpush) as (Hx & Hy & Hend & _).
  unfold raw_x, raw_y in *.
  rewrite !word16_bytes in Hscore, Hx, Hy by exact Hbytes.
  rewrite (word16_bytes pixels (i + 1) i Hbytes),
    (word16_bytes pixels (i + 3) (i + 2) Hbytes) in Hend.
  pose proof (ToInt32_byte pixels i Hbytes).
  pose proof (ToInt32_byte pixels (i + 1) Hbytes).
  pose proof (ToInt32_byte pixels (i + 2) Hbytes).
  pose proof (ToInt32_byte pixels (i + 3) Hbytes).
  pose proof (ToInt32_byte pixels (i + 5) Hbytes) as H5.
  pose proof (ToInt32_byte pixels (i + 6) Hbytes).
  pose proof (ToInt32_byte pixels (i + 7) Hbytes).
  split; [lia|]. split.
  - eexists _, _. split; [exact Hx|]. split; [exact Hy|]. lia.
  - rewrite Hrot. unfold decode_rotation, ToInt32 in *.
    destruct (pixels !! (i + 5)) as [b|]; [right|left; reflexivity].
    cbn in H5. exists (2 * b - 255)%Z. split; [reflexivity|].
    split; [lia|].
    replace (2 * b - 255)%Z with (2 * (b - 128) + 1)%Z by lia.
    apply Z.odd_odd.
Qed.


(** A cell that ends within the first [n] bytes is decoded from them. *)
Lemma decode_cell_take (pixels : list Z) (descriptorSize extraSize i n : nat) :
  i + 8 + extraSize + descriptorSize <= n ->
  decode_cell (take n pixels) descriptorSize extraSize i
  = decode_cell pixels descriptorSize extraSize i.
Proof.
  intros Hn. unfold decode_cell, raw_x, raw_y, subarray.
  rewrite !take_take.
  replace (min (8 + i + extraSize) n) with (8 + i + extraSize) by lia.
  replace (min (8 + i + extraSize + descriptorSize) n)
    with (8 + i + extraSize + descriptorSize) by lia.
  assert (forall k, k < 8 -> take n pixels !! (i + k) = pixels !! (i + k)) as Hk
    by (intros k Hk; apply lookup_take_lt; lia).
  pose proof (Hk 0 ltac:(lia)) as H0. rewrite Nat.add_0_r in H0.
  rewrite H0, !Hk by lia. reflexivity.
Qed.

Lemma cells_run_take (k : nat) :
  forall pixels descriptorSize extraSize bpk i n,
  8 + extraSize + descriptorSize <= bpk ->
  i + k * bpk <= n ->
  (cells_run k (take n pixels) descriptorSize extraSize bpk i).1
  = (cells_run k pixels descriptorSize extraSize bpk i).1.
Proof.
  induction k as [|k IH]; intros pixels ds es bpk i n Hb Hn; [reflexivity|].
  cbn [cells_run]. rewrite decode_cell_take by lia.
  rewrite (IH pixels ds es bpk (i + bpk) n Hb) by lia.
  destruct (decode_cell pixels ds es i); reflexivity.
Qed.

(** The bytes of the buffer beyond the cells of the encoder texture, the
    first [4 * encoderLength * encoderLength * pixelsPerKeypoint], play no
    part: [_decode] returns what it returns from those first bytes alone. *)
Theorem decode_ignores_bytes_beyond_capacity
    (pixels : list Z) (descriptorSize extraSize encoderLength : nat) :
  _decode pixels descriptorSize extraSize encoderLength
  = _decode (take (encoderLength * encoderLength
                   * pixelsPerKeypoint descriptorSize extraSize * 4) pixels)
      descriptorSize extraSize encoderLength.
Proof.
  rewrite !decode_run.
  set (e2 := encoderLength * encoderLength
             * pixelsPerKeypoint descriptorSize extraSize * 4).
  set (bpk := bytesPerKeypoint descriptorSize extraSize).
  assert (decode_size (take e2 pixels) descriptorSize extraSize encoderLength
          = decode_size pixels descriptorSize extraSize encoderLength) as ->
    by (unfold decode_size; cbv zeta; fold e2; rewrite length_take; lia).
  set (size := decode_size pixels descriptorSize extraSize encoderLength).
  assert (8 <= bpk) as H8 by apply bytesPerKeypoint_ge.
  assert (e2 = encoderLength * encoderLength * bpk) as He2
    by (unfold e2, bpk, bytesPerKeypoint; lia).
  assert (size <= e2) as Hs by (unfold size, decode_size; cbv zeta; fold e2; lia).
  destruct (cell_count_spec size bpk ltac:(lia)) as (_ & Hlo & _).
  f_equal. symmetry. apply cells_run_take.
  - pose proof (pixelsPerKeypoint_covers descriptorSize extraSize).
    unfold bpk, bytesPerKeypoint. lia.
  - destruct (cell_count size bpk) as [|k]; [lia|].
    specialize (Hlo ltac:(lia)). replace (S k - 1) with k in Hlo by lia.
    assert (k < encoderLength * encoderLength) as Hk by nia.
    rewrite He2. cbn [Nat.add]. apply Nat.mul_le_mono_r. lia.
Qed.


Lemma decode_lod_range (b : option Z) :
  (0 <= LOG2_PYRAMID_MAX_SCALE)%Q -> (0 <= PYRAMID_MAX_LEVELS)%Q ->
  (0 <= ToInt32 b <= 255)%Z ->
  (- LOG2_PYRAMID_MAX_SCALE <= decode_lod b <= PYRAMID_MAX_LEVELS)%Q.
Proof.
  intros Hm Hh Hb. unfold decode_lod. cbv zeta.
  destruct b as [v|]; cbn [less_than_255]; [|lra].
  destruct (Z.ltb_spec v 255) as [Hv|Hv]; [|lra].
  cbn in Hb. cbn [default from_option id].
  set (m := LOG2_PYRAMID_MAX_SCALE) in *. set (h := PYRAMID_MAX_LEVELS) in *.
  assert (0 <= inject_Z v)%Q as H0 by (rewrite <- (Zle_Qle 0); lia).
  assert (inject_Z v <= inject_Z 255)%Q as H1 by (rewrite <- Zle_Qle; lia).
  change (inject_Z 255) with 255%Q in *. unfold Qdiv.
  assert (0 <= (m + h) * inject_Z v)%Q by nra.
  assert ((m + h) * inject_Z v <= (m + h) * 255)%Q by nra.
  set (p := ((m + h) * inject_Z v)%Q) in *.
  split.
  - assert (0 <= p * / 255)%Q
      by (apply Qmult_le_0_compat; [assumption|discriminate]).
    lra.
  - assert (p * / 255 <= m + h)%Q by (apply Qle_shift_div_r; [reflexivity|lra]).
    lra.
Qed.

(** From a buffer of bytes, and with a pyramid whose [LOG2_PYRAMID_MAX_SCALE]
    and [PYRAMID_MAX_LEVELS] are not negative, the level of detail of every
    keypoint that [_decode] returns lies between [-LOG2_PYRAMID_MAX_SCALE]
    and [PYRAMID_MAX_LEVELS]; the byte 255 decodes to the level 0. *)
Theorem decoded_lod_in_range
    (pixels : list Z) (descriptorSize extraSize encoderLength : nat)
    (keypoints : list SpeedyKeypoint) :
  (0 <= LOG2_PYRAMID_MAX_SCALE)%Q -> (0 <= PYRAMID_MAX_LEVELS)%Q ->
  is_bytes pixels ->
  _decode pixels descriptorSize extraSize encoderLength = Some keypoints ->
  Forall (fun keypoint =>
    (- LOG2_PYRAMID_MAX_SCALE <= lod keypoint <= PYRAMID_MAX_LEVELS)%Q) keypoints /\
  decode_lod (Some 255%Z) = 0%Q.
Proof.
  intros Hm Hh Hbytes Hrun. split; [|reflexivity].
  apply Forall_forall. intros keypoint Hin. apply list_elem_of_In in Hin.
  destruct (decoded_from_cell _ _ _ _ _ _ Hrun Hin) as (c & _ & Hpush).
  destruct (decode_cell_Push _ _ _ _ _ Hpush) as (_ & _ & _ & _ & _ & Hlod & _).
  rewrite Hlod. apply decode_lod_range; try assumption.
  apply ToInt32_byte. exact Hbytes.
Qed.


End Decode.

(** *** The decoder on concrete buffers *)

(** The constants of the examples: a fixed-point resolution of 8, and the
    pyramid constants 0 and 8. *)
Section Examples.

Definition FIX8 : Z := 8.
Definition M0 : Q := 0.
Definition H8 : Q := 8%Q.

(** Scenario S6 of the specification: one keypoint, then FF FF FF FF. *)
Definition S6_pixels : list Z :=
  [24; 0; 40; 0; 0; 0; 5; 0; 255; 255; 255; 255; 0; 0; 0; 0]%Z.

Example S6_decode :
  _decode FIX8 M0 H8 S6_pixels 0 0 2
  = Some [ {| x := (24 # 8)%Q; y := (40 # 8)%Q; lod := (0 # 255)%Q;
              rotation := TimesPiOver255 (-255); score := 5;
              descriptorBytes := []; extraBytes := [] |} ].
Proof. reflexivity. Qed.

Lemma S6_is_bytes : is_bytes S6_pixels.
Proof. unfold is_bytes, S6_pixels. repeat constructor; lia. Defined.

Lemma decode_stops_at_first_sentinel_witness :
  _decode FIX8 M0 H8 S6_pixels 0 0 2 = Some (spec_keypoints FIX8 M0 H8 S6_pixels 0 0 8 0 1).
Proof.
  apply (decode_stops_at_first_sentinel FIX8 M0 H8 S6_pixels 0 0 2 1 S6_is_bytes).
  - vm_compute. lia.
  - repeat split.
  - intros m Hm (H0 & _). assert (m = 0) as -> by lia. discriminate H0.
Defined.

(** An empty cell, then one keypoint. *)
Definition empty_then_keypoint : list Z :=
  [0; 0; 0; 0; 0; 0; 0; 0; 24; 0; 40; 0; 0; 0; 5; 0]%Z.

Lemma empty_then_keypoint_is_bytes : is_bytes empty_then_keypoint.
Proof. unfold is_bytes, empty_then_keypoint. repeat constructor; lia. Defined.

Lemma decode_skips_empty_cell_witness :
  exists rest,
    _decode FIX8 M0 H8 empty_then_keypoint 0 0 2
    = Some (spec_keypoints FIX8 M0 H8 empty_then_keypoint 0 0 8 0 0
            ++ spec_keypoints FIX8 M0 H8 empty_then_keypoint 0 0 8 1 1 ++ rest) /\
    (decode_size empty_then_keypoint 0 0 2 <= 16 \/ is_sentinel empty_then_keypoint 16 ->
     rest = []).
Proof.
  apply (decode_skips_empty_cell FIX8 M0 H8 empty_then_keypoint 0 0 2 0 2
           empty_then_keypoint_is_bytes).
  - vm_compute. lia.
  - reflexivity.
  - reflexivity.
  - lia.
  - intros m Hm. assert (m = 1) as -> by lia. vm_compute. lia.
  - intros m Hm (H0 & _).
    destruct m as [|[|m]]; [discriminate H0| vm_compute in H0; discriminate H0 | lia].
Defined.

Example empty_then_keypoint_decode :
  length <$> _decode FIX8 M0 H8 empty_then_keypoint 0 0 2 = Some 1.
Proof. reflexivity. Qed.

(** A cell of 4 extra and 4 descriptor bytes: the bytes 10 to 13 follow the
    header and the bytes 20 to 23 follow those. *)
Definition C3_pixels : list Z :=
  [8; 0; 8; 0; 0; 0; 1; 0; 10; 11; 12; 13; 20; 21; 22; 23]%Z.

(** C3 as stated fails at that cell: the descriptor that [_decode] returns
    is the second group of bytes, 20 to 23, and not the cell bytes 8 to 11
    that follow the header. *)
Lemma descriptor_is_not_first :
  exists keypoint,
    _decode FIX8 M0 H8 C3_pixels 4 4 1 = Some [keypoint] /\
    descriptorBytes keypoint = [20; 21; 22; 23]%Z /\
    extraBytes keypoint = [10; 11; 12; 13]%Z /\
    subarray C3_pixels 8 (8 + 4) = [10; 11; 12; 13]%Z /\
    descriptorBytes keypoint <> subarray C3_pixels 8 (8 + 4).
Proof.
  eexists. split; [reflexivity|]. repeat split. discriminate.
Qed.

(** A buffer of one pixel, with [encoderLength = 1] and no descriptor: the
    cell has 8 bytes, of which the buffer holds 4; [_decode] reads the bytes
    4 to 7 past the end, which are [undefined], and returns a keypoint whose
    orientation is NaN. *)
Lemma decode_reads_past_the_end :
  decode_traced FIX8 M0 H8 [0; 0; 0; 0]%Z 0 0 1
  = Some ([ {| x := (0 # 8)%Q; y := (0 # 8)%Q; lod := 0%Q; rotation := NaN;
               score := 0; descriptorBytes := []; extraBytes := [] |} ],
          [1; 0; 3; 2; 6; 4; 5; 7; 6]) /\
  ~ Forall (fun k => k < length [0; 0; 0; 0]%Z) [1; 0; 3; 2; 6; 4; 5; 7; 6].
Proof.
  split; [reflexivity|].
  intros Hall. apply (proj1 (Forall_lookup _ _)) with (i := 4) (x := 6) in Hall.
  - cbn in Hall. lia.
  - reflexivity.
Qed.

Lemma C3_is_bytes : is_bytes C3_pixels.
Proof. unfold is_bytes, C3_pixels. repeat constructor; lia. Defined.

Lemma decoded_cells_lie_inside_witness :
  exists keypoints,
    _decode FIX8 M0 H8 C3_pixels 4 4 1 = Some keypoints /\
    Forall (fun keypoint => exists c,
      let i := c * bytesPerKeypoint 4 4 in
      cell_keypoint FIX8 M0 H8 C3_pixels 4 4 i = Some keypoint /\
      i + 8 + 4 + 4 <= length C3_pixels /\
      exists b, C3_pixels !! (i + 5) = Some b /\
        rotation keypoint = TimesPiOver255 (2 * b - 255)) keypoints.
Proof.
  eexists. split; [reflexivity|].
  apply (decoded_cells_lie_inside FIX8 M0 H8 C3_pixels 4 4 1).
  - lia.
  - reflexivity.
Defined.

Lemma decoded_fields_in_range_witness :
  exists keypoints,
    _decode FIX8 M0 H8 S6_pixels 0 0 2 = Some keypoints /\
    Forall (fun keypoint =>
      (0 <= score keypoint <= 65535)%Z /\
      (exists rx ry : Z,
         x keypoint = (inject_Z rx / inject_Z FIX8)%Q /\
         y keypoint = (inject_Z ry / inject_Z FIX8)%Q /\
         (0 <= rx <= 65535)%Z /\ (0 <= ry <= 65535)%Z /\
         ~ (rx = 65535 /\ ry = 65535)%Z) /\
      (rotation keypoint = NaN \/
       exists k, rotation keypoint = TimesPiOver255 k /\
         (-255 <= k <= 255)%Z /\ Z.odd k = true)) keypoints.
Proof.
  eexists. split; [reflexivity|].
  apply (decoded_fields_in_range FIX8 M0 H8 S6_pixels 0 0 2).
  - exact S6_is_bytes.
  - reflexivity.
Defined.

Lemma decoded_lod_in_range_witness :
  exists keypoints,
    _decode FIX8 M0 H8 S6_pixels 0 0 2 = Some keypoints /\
    Forall (fun keypoint => (- M0 <= lod keypoint <= H8)%Q) keypoints /\
    decode_lod M0 H8 (Some 255%Z) = 0%Q.
Proof.
  eexists. split; [reflexivity|].
  apply (decoded_lod_in_range FIX8 M0 H8 S6_pixels 0 0 2).
  - discriminate.
  - discriminate.
  - exact S6_is_bytes.
  - reflexivity.
Defined.


(** The keypoints of the two buffers by the decoding rules. *)
Example S6_spec_keypoints :
  spec_keypoints FIX8 M0 H8 S6_pixels 0 0 8 0 1
  = [ {| x := (24 # 8)%Q; y := (40 # 8)%Q; lod := (0 # 255)%Q;
         rotation := TimesPiOver255 (-255); score := 5;
         descriptorBytes := []; extraBytes := [] |} ].
Proof. reflexivity. Qed.

Example empty_then_keypoint_spec_keypoints :
  spec_keypoints FIX8 M0 H8 empty_then_keypoint 0 0 8 0 1 = [] /\
  spec_keypoints FIX8 M0 H8 empty_then_keypoint 0 0 8 1 1
  = [ {| x := (24 # 8)%Q; y := (40 # 8)%Q; lod := (0 # 255)%Q;
         rotation := TimesPiOver255 (-255); score := 5;
         descriptorBytes := []; extraBytes := [] |} ].
Proof. split; reflexivity. Qed.


End Examples.


End KeypointSink.

(** ** encode-keypoints.glsl *)

Module EncodeKeypoints.

Import Globals.

Open Scope Z_scope.

(** A texel of an RGBA8 texture, and a colour written to one: the four
    channels as bytes. The byte [c] stands for the float [c / 255] that the
    shader sees, so [pixel.r > 0.0f] is [r > 0] and [int(pixel.b * 255.0f)]
    is [b]. *)
Record vec4 : Type := { r : Z; g : Z; b : Z; a : Z }.

Record ivec2 : Type := { x : Z; y : Z }.

(** A texture: its size and its texels in row-major order. *)
Record sampler2D : Type := { size : ivec2; texels : list vec4 }.

(** [texelFetch(tex, position, 0)]. A fetch outside the texture returns
    zeros, as a context with robust access does. *)
Definition texelFetch (tex : sampler2D) (position : ivec2) : vec4 :=
  if (0 <=? x position) && (x position <? x (size tex)) &&
     (0 <=? y position) && (y position <? y (size tex))
  then default {| r := 0; g := 0; b := 0; a := 0 |}
         (texels tex !! Z.to_nat (y position * x (size tex) + x position))
  else {| r := 0; g := 0; b := 0; a := 0 |}.

(** GLSL integers are modelled without their wrap-around at 32 bits, and
    integer division and remainder are truncating. *)
Definition idiv (n d : Z) : Z := Z.quot n d.
Definition imod (n d : Z) : Z := Z.rem n d.

Record Uniforms : Type := {
  image : sampler2D;
  encodedKeypoints : sampler2D;
  imageSize : ivec2;
  tileSize : Z;
  tileIndex : Z;
  descriptorSize : Z;
  extraSize : Z;
  encoderLength : Z
}.

(** *** keypoints.glsl and the prelude of the shaders *)

(** Neither the included file nor the prelude that declares [color],
    [threadLocation] and [threadPixel] is among the sources. The location of
    the thread is the argument of [main] below, and [color] its result. *)

(** Modelled from the spec: [threadPixel] of the prelude, the pixel of a
    texture at the location of the thread, the fragment program being
    executed "once per output pixel". *)
Definition threadPixel (tex : sampler2D) (thread : ivec2) : vec4 :=
  texelFetch tex thread.

Record KeypointAddress : Type := { base : Z; offset : Z }.

(** Modelled from the spec: the number of pixels of a cell,
    "ceil((MIN_KEYPOINT_SIZE + descriptorSize + extraSize) / 4) pixels each". *)
Definition pixelsPerKeypoint (descriptorSize extraSize : Z) : Z :=
  idiv (Z.of_nat MIN_KEYPOINT_SIZE + descriptorSize + extraSize + 3) 4.

(** Modelled from the spec: [findKeypointAddress] of keypoints.glsl. "The
    texture is partitioned into fixed-size cells [...]; one cell per
    keypoint. Each keypoint occupies consecutive pixels in row-major order":
    [base] is the raster index of the first pixel of the cell of the thread
    and [offset] the index of the thread's pixel in the cell. *)
Definition findKeypointAddress (thread : ivec2) (encoderLength descriptorSize extraSize : Z)
  : KeypointAddress :=
  let threadRaster := y thread * encoderLength + x thread in
  let pixelsPerKeypoint := pixelsPerKeypoint descriptorSize extraSize in
  {| base := threadRaster - imod threadRaster pixelsPerKeypoint;
     offset := imod threadRaster pixelsPerKeypoint |}.

(** Modelled from the spec: [findKeypointIndex] of keypoints.glsl, the index
    of the cell of an address, "one cell per keypoint". *)
Definition findKeypointIndex (address : KeypointAddress) (descriptorSize extraSize : Z) : Z :=
  idiv (base address) (pixelsPerKeypoint descriptorSize extraSize).

(** Modelled from the spec: [encodeNullKeypoint] of keypoints.glsl, the
    end-of-list sentinel "FF FF FF FF". *)
Definition encodeNullKeypoint : vec4 := {| r := 255; g := 255; b := 255; a := 255 |}.

Section Shader.

(** The fixed-point resolution, and the byte that
    [encodeKeypointFlags(KPF_NONE)] of keypoints.glsl writes. *)
Variable FIX_RESOLUTION : Z.
Variable encodedFlagsNone : Z.

(** Modelled from the spec: [encodeKeypointPosition] of keypoints.glsl,
    pixel 0 of a cell, "xLo xHi yLo yHi, position in fixed-point (resolution
    FIX_RESOLUTION)". *)
Definition encodeKeypointPosition (position : ivec2) : vec4 :=
  let fx := x position * FIX_RESOLUTION in
  let fy := y position * FIX_RESOLUTION in
  {| r := Z.land fx 255; g := Z.land (Z.shiftr fx 8) 255;
     b := Z.land fy 255; a := Z.land (Z.shiftr fy 8) 255 |}.

(** *** The shader *)

(** The loop of [findQthKeypoint]; [None]: the fuel ran out. The loop ends
    with the three results of the function. *)
Fixpoint findQthKeypoint_loop (fuel : nat) (u : Uniforms) (q i p : Z)
    (position : ivec2) (pixel : vec4) : option (bool * ivec2 * vec4) :=
  match fuel with
  | O => None
  | S fuel =>
      if (y position <? y (imageSize u)) && negb (p =? q) then
        let pixel := texelFetch (image u) position in
        let p := p + (if r pixel >? 0 then 1 else 0) in
        let i := i + 1 + b pixel in
        let position := {| x := imod i (x (imageSize u)); y := idiv i (x (imageSize u)) |} in
        findQthKeypoint_loop fuel u q i p position pixel
      else Some (p =? q, position, pixel)
  end.

(** [findQthKeypoint(q, position, pixel)]: the returned boolean and the two
    [out] parameters. [pixel] is not initialised by the source; the value it
    has when the loop does not run is immaterial. The loop advances by at
    least one pixel per iteration while it is inside the image. *)
Definition findQthKeypoint (u : Uniforms) (q : Z) : option (bool * ivec2 * vec4) :=
  findQthKeypoint_loop (S (Z.to_nat (x (imageSize u) * y (imageSize u)))) u q 0 (-1)
    {| x := 0; y := 0 |} {| r := 0; g := 0; b := 0; a := 0 |}.

(** [main], for the thread at [thread = threadLocation()]: the colour it
    writes. *)
Definition main (u : Uniforms) (thread : ivec2) : option vec4 :=
  let address :=
    findKeypointAddress thread (encoderLength u) (descriptorSize u) (extraSize u) in
  let q := findKeypointIndex address (descriptorSize u) (extraSize u) in
  let color := threadPixel (encodedKeypoints u) thread in
  let tilePos := {| x := idiv (x thread) (tileSize u); y := idiv (y thread) (tileSize u) |} in
  let tileStride := idiv (encoderLength u) (tileSize u) in
  let tile := y tilePos * tileStride + x tilePos in
  if negb (tile =? tileIndex u) then Some color
  else
    let color := {| r := 0; g := 0; b := 0; a := 0 |} in
    if offset address >? 1 then Some color
    else
      let color := encodeNullKeypoint in
      match findQthKeypoint u q with
      | None => None
      | Some (false, _, _) => Some color
      | Some (true, position, pixel) =>
          Some (if offset address =? 1
                then {| r := a pixel; g := 0; b := r pixel; a := encodedFlagsNone |}
                else encodeKeypointPosition position)
      end.

(** *** Tiles *)

(** The tile of a thread: its location divided by [tileSize], in row-major
    order with [encoderLength / tileSize] tiles per row. *)
Definition tile_of (u : Uniforms) (thread : ivec2) : Z :=
  idiv (y thread) (tileSize u) * idiv (encoderLength u) (tileSize u)
  + idiv (x thread) (tileSize u).

(** The test of the tile, when it fails. *)
Lemma main_outside_tile (u : Uniforms) (thread : ivec2) :
  tile_of u thread <> tileIndex u ->
  main u thread = Some (threadPixel (encodedKeypoints u) thread).
Proof.
  intros Htile. unfold main. cbv zeta. cbn [x y].
  fold (tile_of u thread).
  destruct (Z.eqb_spec (tile_of u thread) (tileIndex u)) as [Heq|Hne]; [contradiction|].
  reflexivity.
Qed.

(** C10: a thread whose tile is not [tileIndex] writes the texel that
    [encodedKeypoints] has at its location, whatever the image and the
    other uniforms are. The tile size is not zero, so the divisions of the
    shader are defined. *)
Theorem other_tiles_are_copied (u : Uniforms) (thread : ivec2) :
  tileSize u <> 0 ->
  tile_of u thread <> tileIndex u ->
  main u thread = Some (threadPixel (encodedKeypoints u) thread).
Proof.
  intros _ Htile. apply main_outside_tile, Htile.
Qed.


(** *** The scan of [findQthKeypoint] *)

Definition zero4 : vec4 := {| r := 0; g := 0; b := 0; a := 0 |}.

(** The texel of raster index [n], and whether it is a keypoint. *)
Definition texel_at (img : sampler2D) (n : nat) : vec4 :=
  default zero4 (texels img !! n).

Definition is_keypoint (img : sampler2D) (n : nat) : bool := r (texel_at img n) >? 0.

(** The raster indices of the keypoints of an image, in row-major order. *)
Definition keypoint_indices (img : sampler2D) : list nat :=
  filter (fun n => is_keypoint img n) (seq 0 (length (texels img))).

(** The position of the pixel of raster index [n] in an image of width [w]. *)
Definition position_of (w : Z) (n : nat) : ivec2 :=
  {| x := imod (Z.of_nat n) w; y := idiv (Z.of_nat n) w |}.

(** An image as the detector leaves it: as many texels as its size says,
    and channels that are bytes. *)
Record image_ok (img : sampler2D) : Prop := {
  ok_width : 0 < x (size img);
  ok_height : 0 <= y (size img);
  ok_length : Z.of_nat (length (texels img)) = x (size img) * y (size img);
  ok_bytes : forall n, 0 <= r (texel_at img n) <= 255 /\ 0 <= b (texel_at img n) <= 255
                       /\ 0 <= a (texel_at img n) <= 255
}.

(** The skip offsets are valid hints: no pixel that an offset leaps over
    is a keypoint. *)
Definition valid_hints (img : sampler2D) : Prop :=
  forall n d : nat, (1 <= d)%nat -> Z.of_nat d <= b (texel_at img n) ->
    is_keypoint img (n + d) = false.

Lemma idiv_nonneg (n d : Z) : 0 <= n -> 0 < d -> idiv n d = n / d.
Proof. intros. apply Z.quot_div_nonneg; assumption. Qed.

Lemma imod_nonneg (n d : Z) : 0 <= n -> 0 < d -> imod n d = n mod d.
Proof. intros. apply Z.rem_mod_nonneg; assumption. Qed.

Lemma texel_at_beyond (img : sampler2D) (n : nat) :
  (length (texels img) <= n)%nat -> texel_at img n = zero4.
Proof.
  intros Hn. unfold texel_at. rewrite lookup_ge_None_2 by exact Hn. reflexivity.
Qed.

Lemma not_keypoint_beyond (img : sampler2D) (n : nat) :
  (length (texels img) <= n)%nat -> is_keypoint img n = false.
Proof.
  intros Hn. unfold is_keypoint. rewrite texel_at_beyond by exact Hn. reflexivity.
Qed.

Lemma texelFetch_raster (img : sampler2D) (n : nat) :
  0 < x (size img) -> 0 <= y (size img) ->
  Z.of_nat (length (texels img)) = x (size img) * y (size img) ->
  (n < length (texels img))%nat ->
  texelFetch img (position_of (x (size img)) n) = texel_at img n.
Proof.
  intros Hw Hh Hlen Hn. unfold texelFetch, position_of. cbn [x y].
  rewrite idiv_nonneg, imod_nonneg by lia.
  pose proof (Z.mod_pos_bound (Z.of_nat n) (x (size img)) Hw) as Hm.
  pose proof (Z.div_mod (Z.of_nat n) (x (size img)) ltac:(lia)) as Hdm.
  assert (0 <= Z.of_nat n / x (size img)) as Hq0 by (apply Z.div_pos; lia).
  assert (Z.of_nat n / x (size img) < y (size img)) as Hq1
    by (apply Z.div_lt_upper_bound; lia).
  replace (0 <=? Z.of_nat n mod x (size img)) with true by (symmetry; apply Z.leb_le; lia).
  replace (Z.of_nat n mod x (size img) <? x (size img)) with true
    by (symmetry; apply Z.ltb_lt; lia).
  replace (0 <=? Z.of_nat n / x (size img)) with true by (symmetry; apply Z.leb_le; lia).
  replace (Z.of_nat n / x (size img) <? y (size img)) with true
    by (symmetry; apply Z.ltb_lt; lia).
  cbn [andb]. unfold texel_at. do 2 f_equal. lia.
Qed.

Lemma texelFetch_position_of (img : sampler2D) (n : nat) :
  image_ok img -> (n < length (texels img))%nat ->
  texelFetch img (position_of (x (size img)) n) = texel_at img n.
Proof.
  intros [Hw Hh Hlen _] Hn. apply texelFetch_raster; assumption.
Qed.

(** The number of keypoints among the first [n] pixels. *)
Definition keypoints_below (img : sampler2D) (n : nat) : nat :=
  length (filter (fun k => is_keypoint img k) (seq 0 n)).

Lemma keypoints_below_S (img : sampler2D) (n : nat) :
  keypoints_below img (S n)
  = (keypoints_below img n + if is_keypoint img n then 1 else 0)%nat.
Proof.
  unfold keypoints_below. rewrite seq_S, list.filter_app, length_app. cbn [Nat.add].
  f_equal. rewrite filter_cons. destruct (is_keypoint img n); cbn.
  - rewrite decide_True by exact I. reflexivity.
  - rewrite decide_False by (intros []). reflexivity.
Qed.

Lemma keypoints_below_le (img : sampler2D) (n m : nat) :
  (n <= m)%nat -> (keypoints_below img n <= keypoints_below img m)%nat.
Proof.
  induction 1 as [|m Hle IH]; [lia|]. rewrite keypoints_below_S. lia.
Qed.

(** No keypoint in a stretch of pixels: the count does not move. *)
Lemma keypoints_below_skip (img : sampler2D) (n d : nat) :
  (forall k, (1 <= k <= d)%nat -> is_keypoint img (n + k) = false) ->
  keypoints_below img (S n + d) = keypoints_below img (S n).
Proof.
  induction d as [|d IH]; intros Hno.
  - f_equal. lia.
  - replace (S n + S d)%nat with (S (S n + d)) by lia.
    rewrite keypoints_below_S.
    replace (S n + d)%nat with (n + S d)%nat at 2 by lia.
    rewrite (Hno (S d)) by lia. rewrite IH by (intros k Hk; apply Hno; lia). lia.
Qed.

Lemma keypoints_below_all (img : sampler2D) (n : nat) :
  (length (texels img) <= n)%nat ->
  keypoints_below img n = length (keypoint_indices img).
Proof.
  induction 1 as [|m Hle IH]; [reflexivity|].
  rewrite keypoints_below_S, not_keypoint_beyond by exact Hle. lia.
Qed.

(** The [q]-th keypoint is the keypoint pixel with [q] keypoints before it. *)
Lemma keypoint_indices_lookup (img : sampler2D) (n : nat) :
  (n < length (texels img))%nat -> is_keypoint img n = true ->
  keypoint_indices img !! keypoints_below img n = Some n.
Proof.
  unfold keypoint_indices. generalize (length (texels img)) as total.
  induction total as [|total IH]; intros Hn Hk; [lia|].
  rewrite seq_S, list.filter_app. cbn [Nat.add].
  destruct (decide (n = total)) as [->|Hne].
  - rewrite lookup_app_r by (unfold keypoints_below; lia).
    replace (keypoints_below img total
             - length (filter (fun n => is_keypoint img n) (seq 0 total)))%nat
      with 0%nat by (unfold keypoints_below; lia).
    rewrite filter_cons, decide_True by (rewrite Hk; exact I). reflexivity.
  - rewrite lookup_app_l.
    + apply IH; [lia|exact Hk].
    + fold (keypoints_below img total).
      pose proof (keypoints_below_le img (S n) total ltac:(lia)) as Hle.
      rewrite keypoints_below_S, Hk in Hle. lia.
Qed.


(** Where the scan is after the [q]-th keypoint, of raster index [n]: one
    pixel and the skip offset of the keypoint further. *)
Definition after_keypoint (img : sampler2D) (n : nat) : nat :=
  (n + 1 + Z.to_nat (b (texel_at img n)))%nat.

(** What the scan returns, from the [q]-th keypoint of the image. *)
Definition scan_result (img : sampler2D) (q : Z) (result : bool * ivec2 * vec4) : Prop :=
  match keypoint_indices img !! Z.to_nat q with
  | Some n =>
      result = (true, position_of (x (size img)) (after_keypoint img n), texel_at img n)
  | None => result.1.1 = false
  end.

Lemma findQthKeypoint_loop_found (fuel : nat) (u : Uniforms) (q i : Z)
    (position : ivec2) (pixel : vec4) :
  findQthKeypoint_loop (S fuel) u q i q position pixel = Some (true, position, pixel).
Proof.
  cbn [findQthKeypoint_loop]. rewrite Z.eqb_refl, andb_false_r. reflexivity.
Qed.

Lemma findQthKeypoint_loop_spec (u : Uniforms) (q : Z) :
  image_ok (image u) -> imageSize u = size (image u) -> valid_hints (image u) ->
  forall fuel n p pixel,
  (length (texels (image u)) - n < fuel)%nat ->
  p = Z.of_nat (keypoints_below (image u) n) - 1 ->
  p < q ->
  exists result,
    findQthKeypoint_loop fuel u q (Z.of_nat n) p
      (position_of (x (size (image u))) n) pixel = Some result /\
    scan_result (image u) q result.
Proof.
  intros Hok Hsize Hhints.
  pose proof Hok as [Hw Hh Hlen Hbytes].
  set (img := image u) in *. set (w := x (size img)) in *.
  induction fuel as [|fuel IH]; intros n p pixel Hfuel Hp Hpq; [lia|].
  cbn [findQthKeypoint_loop]. rewrite Hsize. fold img. fold w.
  destruct (decide (n < length (texels img))%nat) as [Hin|Hout].
  - (* inside the image *)
    assert ((y (position_of w n) <? y (size img)) = true) as ->.
    { apply Z.ltb_lt. unfold position_of. cbn [y].
      rewrite idiv_nonneg by lia. apply Z.div_lt_upper_bound; lia. }
    assert ((p =? q) = false) as -> by (apply Z.eqb_neq; lia).
    cbn [andb negb].
    assert (texelFetch img (position_of w n) = texel_at img n) as ->
      by (apply texelFetch_position_of; assumption).
    destruct (Hbytes n) as (_ & Hb & _). fold img in Hb.
    assert (Z.of_nat n + 1 + b (texel_at img n) = Z.of_nat (after_keypoint img n)) as Hi
      by (unfold after_keypoint; lia).
    rewrite Hi. fold (position_of w (after_keypoint img n)).
    assert (keypoints_below img (after_keypoint img n)
            = (keypoints_below img n + if is_keypoint img n then 1 else 0)%nat) as Hcount.
    { unfold after_keypoint.
      replace (n + 1 + Z.to_nat (b (texel_at img n)))%nat
        with (S n + Z.to_nat (b (texel_at img n)))%nat by lia.
      rewrite keypoints_below_skip; [apply keypoints_below_S|].
      intros k Hk. apply Hhints; lia. }
    fold (is_keypoint img n).
    destruct (is_keypoint img n) eqn:Hkp; cbv iota.
    + destruct (decide (p + 1 = q)) as [Hfound|Hnot].
      * destruct fuel as [|fuel]; [lia|].
        rewrite Hfound, findQthKeypoint_loop_found.
        eexists. split; [reflexivity|]. unfold scan_result. fold img. fold w.
        replace (Z.to_nat q) with (keypoints_below img n) by lia.
        unfold img at 1. rewrite keypoint_indices_lookup by assumption. reflexivity.
      * apply IH.
        -- unfold after_keypoint. lia.
        -- rewrite Hcount. lia.
        -- lia.
    + apply IH.
      * unfold after_keypoint. lia.
      * rewrite Hcount. lia.
      * lia.
  - (* past the last row *)
    assert ((y (position_of w n) <? y (size img)) = false) as ->.
    { apply Z.ltb_ge. unfold position_of. cbn [y].
      rewrite idiv_nonneg by lia. apply Z.div_le_lower_bound; lia. }
    cbn [andb]. eexists. split; [reflexivity|].
    unfold scan_result. fold img.
    rewrite lookup_ge_None_2.
    + cbn [fst]. apply Z.eqb_neq. lia.
    + rewrite <- (keypoints_below_all img n) by lia. lia.
Qed.

(** [findQthKeypoint] returns for every index [q >= 0], with the pixel of the
    [q]-th keypoint when the image has one, and with the position one pixel
    and one skip offset after that keypoint. *)
Lemma findQthKeypoint_spec (u : Uniforms) (q : Z) :
  image_ok (image u) -> imageSize u = size (image u) -> valid_hints (image u) ->
  0 <= q ->
  exists result,
    findQthKeypoint u q = Some result /\ scan_result (image u) q result.
Proof.
  intros Hok Hsize Hhints Hq. unfold findQthKeypoint.
  pose proof Hok as [Hw Hh Hlen Hbytes].
  destruct (findQthKeypoint_loop_spec u q Hok Hsize Hhints
              (S (Z.to_nat (x (imageSize u) * y (imageSize u)))) 0 (-1) zero4)
    as (result & Hrun & Hres).
  - rewrite Hsize. lia.
  - reflexivity.
  - lia.
  - exists result. split; [|exact Hres].
    rewrite <- Hrun. unfold position_of, imod, idiv. cbn [Z.of_nat].
    rewrite Z.rem_0_l, Z.quot_0_l by lia. reflexivity.
Qed.


(** *** What a thread of the current tile writes *)

(** [main] after the test of the tile. *)
Definition cell_color (u : Uniforms) (thread : ivec2) : option vec4 :=
  let address :=
    findKeypointAddress thread (encoderLength u) (descriptorSize u) (extraSize u) in
  let q := findKeypointIndex address (descriptorSize u) (extraSize u) in
  if offset address >? 1 then Some zero4
  else
    match findQthKeypoint u q with
    | None => None
    | Some (false, _, _) => Some encodeNullKeypoint
    | Some (true, position, pixel) =>
        Some (if offset address =? 1
              then {| r := a pixel; g := 0; b := r pixel; a := encodedFlagsNone |}
              else encodeKeypointPosition position)
    end.

Lemma main_in_tile (u : Uniforms) (thread : ivec2) :
  tile_of u thread = tileIndex u -> main u thread = cell_color u thread.
Proof.
  intros Htile. unfold main, cell_color. cbv zeta. cbn [x y].
  fold (tile_of u thread). rewrite Htile, Z.eqb_refl. reflexivity.
Qed.

(** The texel of raster index [rho] of a packed texture whose cells have
    [ppk] pixels, read off the image: pixel 0 of the cell [q] holds the
    position that the scan reached, pixel 1 the scale and the score of the
    [q]-th keypoint, the other pixels zeros; the cells past the last
    keypoint start with the null keypoint. *)
Definition packed_texel (img : sampler2D) (ppk rho : nat) : vec4 :=
  let o := (rho mod ppk)%nat in
  let q := (rho / ppk)%nat in
  if (1 <? o)%nat then zero4
  else
    match keypoint_indices img !! q with
    | None => encodeNullKeypoint
    | Some n =>
        if (o =? 1)%nat
        then {| r := a (texel_at img n); g := 0; b := r (texel_at img n);
                a := encodedFlagsNone |}
        else encodeKeypointPosition (position_of (x (size img)) (after_keypoint img n))
    end.

Lemma pixelsPerKeypoint_nat (ds es : nat) :
  pixelsPerKeypoint (Z.of_nat ds) (Z.of_nat es)
  = Z.of_nat (KeypointSink.pixelsPerKeypoint ds es).
Proof.
  unfold pixelsPerKeypoint, KeypointSink.pixelsPerKeypoint, KeypointSink.ceil_div4.
  rewrite idiv_nonneg by lia. rewrite Nat2Z.inj_div. f_equal. lia.
Qed.

Lemma cell_color_spec (u : Uniforms) (ds es e rho : nat) :
  image_ok (image u) -> imageSize u = size (image u) -> valid_hints (image u) ->
  descriptorSize u = Z.of_nat ds -> extraSize u = Z.of_nat es ->
  encoderLength u = Z.of_nat e -> (0 < e)%nat ->
  cell_color u (position_of (Z.of_nat e) rho)
  = Some (packed_texel (image u) (KeypointSink.pixelsPerKeypoint ds es) rho).
Proof.
  intros Hok Hsize Hhints Hds Hes He Hepos.
  pose proof (KeypointSink.pixelsPerKeypoint_ge ds es) as Hppk.
  set (ppk := KeypointSink.pixelsPerKeypoint ds es) in *.
  unfold cell_color, findKeypointAddress, findKeypointIndex. cbv zeta. cbn [offset base].
  rewrite Hds, Hes, He, pixelsPerKeypoint_nat. fold ppk.
  assert (y (position_of (Z.of_nat e) rho) * Z.of_nat e + x (position_of (Z.of_nat e) rho)
          = Z.of_nat rho) as ->.
  { unfold position_of. cbn [x y]. rewrite idiv_nonneg, imod_nonneg by lia.
    pose proof (Z.div_mod (Z.of_nat rho) (Z.of_nat e) ltac:(lia)). lia. }
  rewrite imod_nonneg by lia. rewrite <- Nat2Z.inj_mod.
  assert (idiv (Z.of_nat rho - Z.of_nat (rho mod ppk)) (Z.of_nat ppk)
          = Z.of_nat (rho / ppk)) as ->.
  { rewrite idiv_nonneg.
    - rewrite Nat2Z.inj_div, Nat2Z.inj_mod.
      pose proof (Z.div_mod (Z.of_nat rho) (Z.of_nat ppk) ltac:(lia)) as Hdm.
      replace (Z.of_nat rho - Z.of_nat rho mod Z.of_nat ppk)
        with (Z.of_nat rho / Z.of_nat ppk * Z.of_nat ppk) by lia.
      rewrite Z.div_mul by lia. reflexivity.
    - pose proof (Nat.Div0.mod_le rho ppk). lia.
    - lia. }
  unfold packed_texel. cbv zeta.
  destruct (Nat.ltb_spec 1 (rho mod ppk)) as [Hgt|Hle].
  - replace (Z.of_nat (rho mod ppk) >? 1) with true
      by (symmetry; apply Z.gtb_lt; lia).
    reflexivity.
  - replace (Z.of_nat (rho mod ppk) >? 1) with false
      by (symmetry; rewrite Z.gtb_ltb; apply Z.ltb_ge; lia).
    destruct (findQthKeypoint_spec u (Z.of_nat (rho / ppk)) Hok Hsize Hhints ltac:(lia))
      as (result & -> & Hres).
    unfold scan_result in Hres. rewrite Nat2Z.id in Hres.
    destruct (keypoint_indices (image u) !! (rho / ppk)%nat) as [n|].
    + subst result.
      destruct (Nat.eqb_spec (rho mod ppk) 1) as [H1|H1].
      * replace (Z.of_nat (rho mod ppk) =? 1) with true
          by (symmetry; apply Z.eqb_eq; lia).
        reflexivity.
      * replace (Z.of_nat (rho mod ppk) =? 1) with false
          by (symmetry; apply Z.eqb_neq; lia).
        reflexivity.
    + destruct result as [[found position] pixel]. cbn [fst] in Hres. subst found.
      reflexivity.
Qed.


(** *** The scan on any image *)

Lemma texelFetch_skip_nonneg (img : sampler2D) (position : ivec2) :
  Forall (fun t => 0 <= b t) (texels img) -> 0 <= b (texelFetch img position).
Proof.
  intros Hb. unfold texelFetch. destruct (_ && _); [|cbn; lia].
  destruct (texels img !! _) as [t|] eqn:Ht; cbn; [|lia].
  exact (Forall_lookup_1 _ _ _ _ Hb Ht).
Qed.

(** The loop of [findQthKeypoint] ends before the fuel does: every
    iteration moves the raster index [i] forward, by one pixel at least, and
    the loop stops once [i] leaves the image. When it ends on [p == q], the
    last pixel fetched is a keypoint and the position is the one after it. *)
Lemma findQthKeypoint_loop_returns (u : Uniforms) (q : Z) :
  0 < x (imageSize u) ->
  Forall (fun t => 0 <= b t) (texels (image u)) ->
  forall fuel i p pixel,
  0 <= i ->
  (Z.to_nat (x (imageSize u) * y (imageSize u) - i) < fuel)%nat ->
  exists found position' pixel',
    findQthKeypoint_loop fuel u q i p
      {| x := imod i (x (imageSize u)); y := idiv i (x (imageSize u)) |} pixel
    = Some (found, position', pixel') /\
    (found = true -> p < q ->
     0 < r pixel' /\
     exists i', 0 <= i' /\
       pixel' = texelFetch (image u)
                  {| x := imod i' (x (imageSize u)); y := idiv i' (x (imageSize u)) |} /\
       position' = {| x := imod (i' + 1 + b pixel') (x (imageSize u));
                      y := idiv (i' + 1 + b pixel') (x (imageSize u)) |}).
Proof.
  intros Hw Hb. set (w := x (imageSize u)) in *. set (h := y (imageSize u)) in *.
  induction fuel as [|fuel IH]; intros i p pixel Hi Hfuel; [lia|].
  cbn [findQthKeypoint_loop]. fold w h. cbn [y].
  destruct ((idiv i w <? h) && negb (p =? q)) eqn:Hcond.
  - apply andb_true_iff in Hcond. destruct Hcond as [Hy Hpq].
    apply Z.ltb_lt in Hy. apply negb_true_iff, Z.eqb_neq in Hpq.
    rewrite idiv_nonneg in Hy by lia.
    assert (i < w * h) as Hin.
    { destruct (Z.lt_ge_cases i (w * h)) as [|Hge]; [assumption|].
      apply Z.div_le_lower_bound in Hge; lia. }
    set (position := {| x := imod i w; y := idiv i w |}).
    set (pixel1 := texelFetch (image u) position).
    pose proof (texelFetch_skip_nonneg (image u) position Hb) as Hb1. fold pixel1 in Hb1.
    set (p1 := p + (if r pixel1 >? 0 then 1 else 0)).
    destruct (IH (i + 1 + b pixel1) p1 pixel1 ltac:(lia) ltac:(lia))
      as (found & position' & pixel' & Hrun & Hprop).
    exists found, position', pixel'. split; [exact Hrun|].
    intros Hfound Hlt. destruct (decide (p1 < q)) as [Hp1|Hp1]; [auto|].
    assert (p1 = q /\ (r pixel1 >? 0) = true) as [Hq Hr]
      by (unfold p1 in *; destruct (r pixel1 >? 0); split; try reflexivity; lia).
    rewrite Hq in Hrun. destruct fuel as [|fuel]; [lia|].
    rewrite findQthKeypoint_loop_found in Hrun. injection Hrun as <- <- <-.
    split; [apply Z.gtb_lt in Hr; lia|].
    exists i. split; [exact Hi|]. split; reflexivity.
  - exists (p =? q), {| x := imod i w; y := idiv i w |}, pixel.
    split; [reflexivity|]. intros Hfound Hlt. apply Z.eqb_eq in Hfound. lia.
Qed.

(** [findQthKeypoint] returns on every image of positive width whose skip
    bytes are not negative, whatever the skip offsets are and for every [q].
    For [q >= 0], when it returns true the pixel it hands back is a keypoint
    (its score is positive), and the position it hands back is not that of
    this pixel but the one after it: one pixel and the skip offset of the
    keypoint further in raster order. *)
Theorem findQthKeypoint_returns (u : Uniforms) (q : Z) :
  0 < x (imageSize u) ->
  Forall (fun t => 0 <= b t) (texels (image u)) ->
  exists found position pixel,
    findQthKeypoint u q = Some (found, position, pixel) /\
    (found = true -> 0 <= q ->
     0 < r pixel /\
     exists i, 0 <= i /\
       pixel = texelFetch (image u)
                 {| x := imod i (x (imageSize u)); y := idiv i (x (imageSize u)) |} /\
       position = {| x := imod (i + 1 + b pixel) (x (imageSize u));
                     y := idiv (i + 1 + b pixel) (x (imageSize u)) |}).
Proof.
  intros Hw Hb. unfold findQthKeypoint.
  destruct (findQthKeypoint_loop_returns u q Hw Hb
              (S (Z.to_nat (x (imageSize u) * y (imageSize u)))) 0 (-1)
              {| r := 0; g := 0; b := 0; a := 0 |} ltac:(lia) ltac:(lia))
    as (found & position & pixel & Hrun & Hprop).
  assert (imod 0 (x (imageSize u)) = 0 /\ idiv 0 (x (imageSize u)) = 0) as [Hm Hd].
  { unfold imod, idiv. split; [apply Z.rem_0_l|apply Z.quot_0_l]; lia. }
  rewrite Hm, Hd in Hrun.
  exists found, position, pixel. split; [exact Hrun|].
  intros Hfound Hq. apply Hprop; [exact Hfound|lia].
Qed.

(** [main] writes a colour for every thread, in every tile, whatever the
    skip offsets of the image are: its scan of the image always ends. *)
Theorem main_always_writes (u : Uniforms) (thread : ivec2) :
  0 < x (imageSize u) ->
  Forall (fun t => 0 <= b t) (texels (image u)) ->
  exists color, main u thread = Some color.
Proof.
  intros Hw Hb. unfold main. cbv zeta.
  destruct (negb _); [eexists; reflexivity|].
  destruct (_ >? 1); [eexists; reflexivity|].
  destruct (findQthKeypoint_loop_returns u
              (findKeypointIndex
                 (findKeypointAddress thread (encoderLength u) (descriptorSize u)
                    (extraSize u)) (descriptorSize u) (extraSize u)) Hw Hb
              (S (Z.to_nat (x (imageSize u) * y (imageSize u)))) 0 (-1)
              {| r := 0; g := 0; b := 0; a := 0 |} ltac:(lia) ltac:(lia))
    as (found & position & pixel & Hrun & _).
  assert (imod 0 (x (imageSize u)) = 0 /\ idiv 0 (x (imageSize u)) = 0) as [Hm Hd].
  { unfold imod, idiv. split; [apply Z.rem_0_l|apply Z.quot_0_l]; lia. }
  rewrite Hm, Hd in Hrun. unfold findQthKeypoint. rewrite Hrun.
  destruct found; eexists; reflexivity.
Qed.

(** With an image as the detector leaves it and valid skip offsets,
    [findQthKeypoint] returns true exactly when the image has more than [q]
    keypoints, and then with the pixel of the [q]-th keypoint in raster
    order and the position one pixel and one skip offset after it. *)
Theorem findQthKeypoint_finds_the_qth_keypoint (u : Uniforms) (q : Z) :
  image_ok (image u) -> imageSize u = size (image u) -> valid_hints (image u) ->
  0 <= q ->
  exists found position pixel,
    findQthKeypoint u q = Some (found, position, pixel) /\
    (found = true <-> (Z.to_nat q < length (keypoint_indices (image u)))%nat) /\
    forall n, keypoint_indices (image u) !! Z.to_nat q = Some n ->
      pixel = texel_at (image u) n /\
      position = position_of (x (size (image u))) (after_keypoint (image u) n).
Proof.
  intros Hok Hsize Hhints Hq.
  destruct (findQthKeypoint_spec u q Hok Hsize Hhints Hq) as ([[found position] pixel] & Hrun & Hscan).
  exists found, position, pixel. split; [exact Hrun|].
  unfold scan_result in Hscan.
  destruct (keypoint_indices (image u) !! Z.to_nat q) as [n|] eqn:Hn.
  - injection Hscan as -> -> ->. split.
    + split; [intros _; apply lookup_lt_is_Some; eexists; exact Hn|reflexivity].
    + intros n' [= <-]. split; reflexivity.
  - cbn [fst] in Hscan. subst found. split.
    + split; [discriminate|]. intros Hlt. apply lookup_lt_is_Some in Hlt.
      rewrite Hn in Hlt. destruct Hlt as [? Hlt]. discriminate Hlt.
    + intros n' Hn'. discriminate Hn'.
Qed.

(** What a pass of the shader writes into the texels of its tile, with an
    image as the detector leaves it and valid skip offsets: in the cell [q],
    pixel 0 holds the encoded position that the scan reached after the
    [q]-th keypoint and pixel 1 its scale, the orientation 0, its score and
    the flags; the other pixels of the cell hold zeros, descriptor and extra
    bytes included; the cells past the last keypoint start with the null
    keypoint. *)
Theorem main_writes_packed_texel (u : Uniforms) (ds es e rho : nat) :
  image_ok (image u) -> imageSize u = size (image u) -> valid_hints (image u) ->
  descriptorSize u = Z.of_nat ds -> extraSize u = Z.of_nat es ->
  encoderLength u = Z.of_nat e -> (0 < e)%nat ->
  tile_of u (position_of (Z.of_nat e) rho) = tileIndex u ->
  main u (position_of (Z.of_nat e) rho)
  = Some (packed_texel (image u) (KeypointSink.pixelsPerKeypoint ds es) rho).
Proof.
  intros Hok Hsize Hhints Hds Hes He Hpos Htile.
  rewrite main_in_tile by exact Htile.
  apply cell_color_spec; assumption.
Qed.


End Shader.

(** *** The shader on a concrete image *)

(** An image of 4 by 2 pixels with one keypoint, at (1, 0), of score 200,
    scale 128 and skip offset 2, and a packed texture of 2 by 2 pixels for
    cells of two pixels; the fixed-point resolution is 8. *)
Definition C2_image : sampler2D := {|
  size := {| x := 4; y := 2 |};
  texels := [ zero4; {| r := 200; g := 0; b := 2; a := 128 |}; zero4; zero4;
              zero4; zero4; zero4; zero4 ] |}.

Definition C2_uniforms : Uniforms := {|
  image := C2_image;
  encodedKeypoints := {| size := {| x := 2; y := 2 |};
                         texels := [zero4; zero4; zero4; zero4] |};
  imageSize := {| x := 4; y := 2 |};
  tileSize := 2; tileIndex := 0;
  descriptorSize := 0; extraSize := 0; encoderLength := 2 |}.

Lemma C2_image_ok : image_ok C2_image.
Proof.
  split; cbn; try lia.
  intros n.
  do 8 (destruct n as [|n]; [cbn; lia|]).
  rewrite texel_at_beyond by (cbn; lia). cbn. lia.
Qed.

Lemma C2_valid_hints : valid_hints C2_image.
Proof.
  intros n d Hd Hb.
  destruct n as [|[|n]].
  - change (b (texel_at C2_image 0)) with 0 in Hb. lia.
  - change (b (texel_at C2_image 1)) with 2 in Hb.
    assert (d = 1 \/ d = 2)%nat as [->| ->] by lia; reflexivity.
  - assert (b (texel_at C2_image (S (S n))) = 0) as H0.
    { do 6 (destruct n as [|n]; [reflexivity|]).
      rewrite texel_at_beyond by (cbn; lia). reflexivity. }
    lia.
Qed.

(** C2, at that image, whose skip offsets are valid hints: the thread of
    pixel 0 of cell 0 writes the encoded position of (0, 1), where the scan
    stands after the keypoint and its skip offset, and not that of the
    keypoint, (1, 0). *)
Theorem main_writes_position_after_keypoint :
  valid_hints C2_image /\
  keypoint_indices C2_image = [1%nat] /\
  position_of 4 1 = {| x := 1; y := 0 |} /\
  main 8 0 C2_uniforms {| x := 0; y := 0 |}
  = Some (encodeKeypointPosition 8 {| x := 0; y := 1 |}) /\
  encodeKeypointPosition 8 {| x := 0; y := 1 |} = {| r := 0; g := 0; b := 8; a := 0 |} /\
  encodeKeypointPosition 8 {| x := 1; y := 0 |} = {| r := 8; g := 0; b := 0; a := 0 |} /\
  main 8 0 C2_uniforms {| x := 0; y := 0 |}
  <> Some (encodeKeypointPosition 8 (position_of 4 1)).
Proof.
  split; [exact C2_valid_hints|].
  repeat split; try reflexivity. discriminate.
Qed.

(** The second half of C2 at the same image: the thread of pixel 0 of
    cell 1 finds no second keypoint and writes the null keypoint. *)
Example main_writes_null_keypoint :
  main 8 0 C2_uniforms {| x := 0; y := 1 |} = Some encodeNullKeypoint.
Proof. reflexivity. Qed.


(** A pass over tile 0 of four tiles of one pixel: the thread at (1, 1) is
    in tile 3 and copies its texel. *)
Definition C10_uniforms : Uniforms := {|
  image := C2_image;
  encodedKeypoints :=
    {| size := {| x := 2; y := 2 |};
       texels := [ {| r := 1; g := 2; b := 3; a := 4 |};
                   {| r := 5; g := 6; b := 7; a := 8 |};
                   {| r := 9; g := 10; b := 11; a := 12 |};
                   {| r := 13; g := 14; b := 15; a := 16 |} ] |};
  imageSize := {| x := 4; y := 2 |};
  tileSize := 1; tileIndex := 0;
  descriptorSize := 0; extraSize := 0; encoderLength := 2 |}.

Lemma other_tiles_are_copied_witness :
  main 8 0 C10_uniforms {| x := 1; y := 1 |}
  = Some {| r := 13; g := 14; b := 15; a := 16 |}.
Proof.
  apply (other_tiles_are_copied 8 0 C10_uniforms {| x := 1; y := 1 |}).
  - vm_compute. discriminate.
  - vm_compute. discriminate.
Defined.


Lemma C2_skips_nonneg : Forall (fun t => 0 <= b t) (texels C2_image).
Proof. unfold C2_image. cbn [texels]. repeat constructor; cbn; lia. Defined.

Lemma findQthKeypoint_returns_witness :
  exists found position pixel,
    findQthKeypoint C2_uniforms 0 = Some (found, position, pixel) /\
    (found = true -> 0 <= 0 ->
     0 < r pixel /\
     exists i, 0 <= i /\
       pixel = texelFetch C2_image {| x := imod i 4; y := idiv i 4 |} /\
       position = {| x := imod (i + 1 + b pixel) 4; y := idiv (i + 1 + b pixel) 4 |}).
Proof.
  apply (findQthKeypoint_returns C2_uniforms 0).
  - cbn. lia.
  - exact C2_skips_nonneg.
Defined.

Lemma main_always_writes_witness :
  exists color, main 8 0 C2_uniforms {| x := 1; y := 0 |} = Some color.
Proof.
  apply (main_always_writes 8 0 C2_uniforms {| x := 1; y := 0 |}).
  - cbn. lia.
  - exact C2_skips_nonneg.
Defined.

Lemma findQthKeypoint_finds_the_qth_keypoint_witness :
  exists found position pixel,
    findQthKeypoint C2_uniforms 0 = Some (found, position, pixel) /\
    (found = true <-> (Z.to_nat 0 < length (keypoint_indices C2_image))%nat) /\
    forall n, keypoint_indices C2_image !! Z.to_nat 0 = Some n ->
      pixel = texel_at C2_image n /\
      position = position_of 4 (after_keypoint C2_image n).
Proof.
  apply (findQthKeypoint_finds_the_qth_keypoint C2_uniforms 0).
  - exact C2_image_ok.
  - reflexivity.
  - exact C2_valid_hints.
  - lia.
Defined.

(** The thread of pixel 1 of cell 0: scale 128, orientation 0, score 200. *)
Lemma main_writes_packed_texel_witness :
  main 8 0 C2_uniforms (position_of 2 1)
  = Some (packed_texel 8 0 C2_image (KeypointSink.pixelsPerKeypoint 0 0) 1).
Proof.
  apply (main_writes_packed_texel 8 0 C2_uniforms 0 0 2 1).
  - exact C2_image_ok.
  - reflexivity.
  - exact C2_valid_hints.
  - reflexivity.
  - reflexivity.
  - reflexivity.
  - lia.
  - reflexivity.
Defined.


End EncodeKeypoints.

(** ** The encoder followed by the decoder *)

Module KeypointCodec.

Import EncodeKeypoints.

Section Codec.

Variable FIX_RESOLUTION : Z.
Variable encodedFlagsNone : Z.
Variables LOG2_PYRAMID_MAX_SCALE PYRAMID_MAX_LEVELS : Q.

(** Modelled from the spec: the read-back of a texture by the texture
    reader, which is not among the sources, "a flat byte buffer in row-major
    RGBA order, 4 bytes per pixel". *)
Definition readPixels (texture : list vec4) : list Z :=
  concat ((fun texel => [r texel; g texel; b texel; a texel]) <$> texture).

Definition channel (k : nat) (texel : vec4) : Z :=
  match k with
  | 0%nat => r texel
  | 1%nat => g texel
  | 2%nat => b texel
  | _ => a texel
  end.

(** The uniforms of the pass over the tile [k], which reads the texture
    [previous] that the passes before it wrote. *)
Definition pass_uniforms (u : Uniforms) (k : Z) (previous : sampler2D) : Uniforms := {|
  image := image u;
  encodedKeypoints := previous;
  imageSize := imageSize u;
  tileSize := tileSize u;
  tileIndex := k;
  descriptorSize := descriptorSize u;
  extraSize := extraSize u;
  encoderLength := encoderLength u
|}.

(** A texture of [e] by [e] texels that the passes of the shader have
    encoded: each texel is what [main] writes for its thread in the pass
    over the tile of that thread. *)
Definition encoded_by_shader (u : Uniforms) (e : nat) (encoded : list vec4) : Prop :=
  length encoded = (e * e)%nat /\
  forall rho texel, encoded !! rho = Some texel ->
    exists previous,
      main FIX_RESOLUTION encodedFlagsNone
        (pass_uniforms u (tile_of u (position_of (Z.of_nat e) rho)) previous)
        (position_of (Z.of_nat e) rho)
      = Some texel.

(** Modelled from the spec: one dispatch of the shader, which "causes the
    fragment program to execute once per output pixel" of the render target
    of [encoderLength] by [encoderLength] pixels. *)
Definition dispatch (u : Uniforms) : option (list vec4) :=
  let e := Z.to_nat (encoderLength u) in
  mapM (fun rho => main FIX_RESOLUTION encodedFlagsNone u (position_of (Z.of_nat e) rho))
       (seq 0 (e * e)).

(** What the decoder finds of a keypoint pixel of the image: its score
    under the flags byte, its scale as the level of detail, the orientation
    of the byte 0, and zeros for the descriptor and the extra bytes. *)
Definition carried (descriptorSize extraSize : nat)
    (pixel : vec4) (keypoint : KeypointSink.SpeedyKeypoint) : Prop :=
  KeypointSink.score keypoint = Z.lor (Z.shiftl encodedFlagsNone 8) (r pixel) /\
  KeypointSink.lod keypoint
  = KeypointSink.decode_lod LOG2_PYRAMID_MAX_SCALE PYRAMID_MAX_LEVELS (Some (a pixel)) /\
  KeypointSink.rotation keypoint = KeypointSink.TimesPiOver255 (-255) /\
  KeypointSink.descriptorBytes keypoint = replicate descriptorSize 0 /\
  KeypointSink.extraBytes keypoint = replicate extraSize 0.

Lemma readPixels_length (texture : list vec4) :
  length (readPixels texture) = (4 * length texture)%nat.
Proof.
  unfold readPixels. induction texture as [|t l IH]; [reflexivity|].
  cbn [fmap list_fmap concat]. rewrite length_app, IH. cbn [length]. lia.
Qed.

Lemma readPixels_lookup (texture : list vec4) (rho k : nat) :
  (k < 4)%nat ->
  readPixels texture !! (4 * rho + k)%nat = channel k <$> (texture !! rho).
Proof.
  intros Hk. unfold readPixels. revert rho.
  induction texture as [|t l IH]; intros rho.
  - reflexivity.
  - cbn [fmap list_fmap concat]. destruct rho as [|rho].
    + rewrite lookup_app_l by (cbn; lia).
      destruct k as [|[|[|[|k]]]]; try reflexivity. lia.
    + rewrite lookup_app_r by (cbn; lia). cbn [length].
      replace (4 * S rho + k - 4)%nat with (4 * rho + k)%nat by lia.
      apply IH.
Qed.

(** *** The bytes of an encoded texture *)

Section Roundtrip.

Variables (u : Uniforms) (ds es e : nat) (encoded : list vec4).

Hypothesis image_is_ok : image_ok (image u).
Hypothesis image_size : imageSize u = size (image u).
Hypothesis hints_are_valid : valid_hints (image u).
Hypothesis descriptor_size : descriptorSize u = Z.of_nat ds.
Hypothesis extra_size : extraSize u = Z.of_nat es.
Hypothesis encoder_length : encoderLength u = Z.of_nat e.
Hypothesis encoded_texture : encoded_by_shader u e encoded.

Abbreviation ppk := (KeypointSink.pixelsPerKeypoint ds es).
Abbreviation bpk := (KeypointSink.bytesPerKeypoint ds es).
Abbreviation img := (image u).
Abbreviation pixels := (readPixels encoded).
Abbreviation packed := (packed_texel FIX_RESOLUTION encodedFlagsNone (image u)
                      (KeypointSink.pixelsPerKeypoint ds es)).

Lemma encoded_lookup (rho : nat) :
  (rho < e * e)%nat -> encoded !! rho = Some (packed rho).
Proof.
  intros Hrho. destruct encoded_texture as [Hlen Hmain].
  destruct (lookup_lt_is_Some_2 encoded rho ltac:(lia)) as [texel Htexel].
  rewrite Htexel. f_equal.
  destruct (Hmain rho texel Htexel) as [previous Hrun].
  rewrite main_in_tile in Hrun by reflexivity.
  rewrite (cell_color_spec FIX_RESOLUTION encodedFlagsNone _ ds es e rho) in Hrun;
    try assumption.
  - inversion Hrun. reflexivity.
  - nia.
Qed.

Lemma encoded_byte (rho k : nat) :
  (rho < e * e)%nat -> (k < 4)%nat ->
  pixels !! (4 * rho + k)%nat = Some (channel k (packed rho)).
Proof.
  intros Hrho Hk. rewrite readPixels_lookup by exact Hk.
  rewrite encoded_lookup by exact Hrho. reflexivity.
Qed.

Lemma cell_pixel_div_mod (c o : nat) :
  (o < ppk)%nat -> ((c * ppk + o) / ppk = c /\ (c * ppk + o) mod ppk = o)%nat.
Proof.
  intros Ho. split.
  - symmetry. apply (Nat.div_unique _ _ _ o); lia.
  - symmetry. apply (Nat.mod_unique _ _ c); lia.
Qed.

(** The three kinds of pixels of the cell of the keypoint [n], the [c]-th of
    the image. *)
Lemma packed_pixel_0 (c n : nat) :
  keypoint_indices img !! c = Some n ->
  packed (c * ppk)
  = encodeKeypointPosition FIX_RESOLUTION
      (position_of (x (size img)) (after_keypoint img n)).
Proof.
  intros Hn. pose proof (KeypointSink.pixelsPerKeypoint_ge ds es) as Hppk.
  destruct (cell_pixel_div_mod c 0 ltac:(lia)) as [Hd Hm].
  rewrite Nat.add_0_r in Hd, Hm.
  unfold packed_texel. cbv zeta. rewrite Hd, Hm, Hn. reflexivity.
Qed.

Lemma packed_pixel_1 (c n : nat) :
  keypoint_indices img !! c = Some n ->
  packed (c * ppk + 1)
  = {| r := a (texel_at img n); g := 0; b := r (texel_at img n);
       a := encodedFlagsNone |}.
Proof.
  intros Hn. pose proof (KeypointSink.pixelsPerKeypoint_ge ds es) as Hppk.
  destruct (cell_pixel_div_mod c 1 ltac:(lia)) as [Hd Hm].
  unfold packed_texel. cbv zeta. rewrite Hd, Hm, Hn. reflexivity.
Qed.

Lemma packed_pixel_rest (c o : nat) :
  (2 <= o < ppk)%nat -> packed (c * ppk + o) = zero4.
Proof.
  intros Ho. destruct (cell_pixel_div_mod c o ltac:(lia)) as [Hd Hm].
  unfold packed_texel. cbv zeta. rewrite Hm.
  destruct (Nat.ltb_spec 1 o); [reflexivity|lia].
Qed.

Lemma packed_null (c : nat) :
  keypoint_indices img !! c = None -> packed (c * ppk) = encodeNullKeypoint.
Proof.
  intros Hn. pose proof (KeypointSink.pixelsPerKeypoint_ge ds es) as Hppk.
  destruct (cell_pixel_div_mod c 0 ltac:(lia)) as [Hd Hm].
  rewrite Nat.add_0_r in Hd, Hm.
  unfold packed_texel. cbv zeta. rewrite Hd, Hm, Hn. reflexivity.
Qed.

Hypothesis fix_positive : 0 < FIX_RESOLUTION.
Hypothesis position_fits : x (imageSize u) * FIX_RESOLUTION <= 0xFFFF.
Hypothesis within_capacity : (length (keypoint_indices img) * ppk <= e * e)%nat.

(** The byte [4 * o + k] of the cell [c]: the channel [k] of its pixel [o]. *)
Lemma cell_byte (c o k : nat) :
  (c * ppk + o < e * e)%nat -> (k < 4)%nat ->
  pixels !! (c * bpk + (4 * o + k))%nat = Some (channel k (packed (c * ppk + o))).
Proof.
  intros Hrho Hk. rewrite <- (encoded_byte (c * ppk + o) k Hrho Hk).
  f_equal. unfold KeypointSink.bytesPerKeypoint. lia.
Qed.

(** The cells of the keypoints lie inside the texture. *)
Lemma keypoint_cell_inside (c n o : nat) :
  keypoint_indices img !! c = Some n -> (o < ppk)%nat -> (c * ppk + o < e * e)%nat.
Proof.
  intros Hn Ho. apply lookup_lt_Some in Hn. nia.
Qed.

Lemma word16_encoded (f : Z) :
  0 <= f < 0xFFFF ->
  KeypointSink.word16 (Some (Z.land (Z.shiftr f 8) 255)) (Some (Z.land f 255)) = f.
Proof.
  intros Hf. unfold KeypointSink.word16, KeypointSink.ToInt32. cbn [default from_option id].
  change 255 with (Z.ones 8). rewrite !Z.land_ones by lia.
  rewrite Z.shiftr_div_pow2 by lia. change (2 ^ 8) with 256.
  pose proof (Z.mod_pos_bound f 256 ltac:(lia)) as Hm.
  rewrite KeypointSink.lor_shiftl_byte by lia.
  assert (0 <= f / 256 < 256) as Hq
    by (split; [apply Z.div_pos; lia | apply Z.div_lt_upper_bound; lia]).
  rewrite (Z.mod_small (f / 256)) by exact Hq.
  pose proof (Z.div_mod f 256 ltac:(lia)). lia.
Qed.

(** A stretch of zero bytes, as [subarray] returns it. *)
Lemma subarray_zeros (l : list Z) (start len : nat) :
  (forall k, (k < len)%nat -> l !! (start + k)%nat = Some 0) ->
  KeypointSink.subarray l start (start + len) = replicate len 0.
Proof.
  intros Hz. unfold KeypointSink.subarray. apply list_eq. intros k.
  rewrite lookup_drop.
  destruct (decide (k < len)%nat) as [Hk|Hk].
  - rewrite lookup_take_lt by lia. rewrite Hz by exact Hk.
    symmetry. apply lookup_replicate_2. exact Hk.
  - rewrite lookup_take_ge by lia. symmetry. apply lookup_replicate_None. lia.
Qed.

(** The bytes after the header of the cell of a keypoint are zeros. *)
Lemma cell_zero_bytes (c n j : nat) :
  keypoint_indices img !! c = Some n -> (8 <= j < bpk)%nat ->
  pixels !! (c * bpk + j)%nat = Some 0.
Proof.
  intros Hn Hj. unfold KeypointSink.bytesPerKeypoint in Hj.
  pose proof (Nat.div_mod_eq j 4) as Hdm.
  pose proof (Nat.mod_upper_bound j 4 ltac:(lia)) as Hm.
  assert (2 <= j / 4 < ppk)%nat as Ho by (split; nia).
  rewrite Hdm at 1.
  rewrite cell_byte; [| apply (keypoint_cell_inside c n); [exact Hn|lia] | exact Hm].
  rewrite packed_pixel_rest by exact Ho.
  f_equal. destruct (j mod 4)%nat as [|[|[|k]]]; reflexivity.
Qed.

(** What the decoder makes of the cell of the keypoint of raster index [n]. *)
Definition decoded_keypoint (n : nat) : KeypointSink.SpeedyKeypoint :=
  let position :=
    encodeKeypointPosition FIX_RESOLUTION
      (position_of (x (size img)) (after_keypoint img n)) in
  {| KeypointSink.x :=
       (inject_Z (x (position_of (x (size img)) (after_keypoint img n)) * FIX_RESOLUTION)
        / inject_Z FIX_RESOLUTION)%Q;
     KeypointSink.y :=
       (inject_Z (KeypointSink.word16 (Some (a position)) (Some (b position)))
        / inject_Z FIX_RESOLUTION)%Q;
     KeypointSink.lod :=
       KeypointSink.decode_lod LOG2_PYRAMID_MAX_SCALE PYRAMID_MAX_LEVELS
         (Some (a (texel_at img n)));
     KeypointSink.rotation := KeypointSink.TimesPiOver255 (-255);
     KeypointSink.score :=
       KeypointSink.word16 (Some encodedFlagsNone) (Some (r (texel_at img n)));
     KeypointSink.descriptorBytes := replicate ds 0;
     KeypointSink.extraBytes := replicate es 0 |}.


(** The cell of a keypoint decodes to that keypoint. *)
Lemma decode_keypoint_cell (c n : nat) :
  keypoint_indices img !! c = Some n ->
  KeypointSink.decode_cell FIX_RESOLUTION LOG2_PYRAMID_MAX_SCALE PYRAMID_MAX_LEVELS
    pixels ds es (c * bpk)
  = KeypointSink.Push (decoded_keypoint n).
Proof.
  intros Hn.
  pose proof (KeypointSink.pixelsPerKeypoint_ge ds es) as Hppk.
  pose proof (KeypointSink.pixelsPerKeypoint_covers ds es) as Hcover.
  pose proof image_is_ok as [Hw Hh Hlen Hbytes].
  set (i := (c * bpk)%nat).
  set (pos := position_of (x (size img)) (after_keypoint img n)).
  (* the keypoint pixel *)
  assert (is_keypoint img n = true) as Hkp.
  { apply list_elem_of_lookup_2 in Hn. unfold keypoint_indices in Hn.
    apply list_elem_of_filter in Hn. destruct Hn as [Hn _].
    destruct (is_keypoint img n); [reflexivity|destruct Hn]. }
  assert (0 < r (texel_at img n)) as Hscore
    by (unfold is_keypoint in Hkp; apply Z.gtb_lt in Hkp; exact Hkp).
  (* the header *)
  assert (forall k, (k < 4)%nat ->
            pixels !! (i + k)%nat
            = Some (channel k (encodeKeypointPosition FIX_RESOLUTION pos))) as Hpixel0.
  { intros k Hk. unfold pos. rewrite <- (packed_pixel_0 c n Hn).
    pose proof (cell_byte c 0 k) as Hb. rewrite Nat.add_0_r in Hb.
    replace (i + k)%nat with (c * bpk + (4 * 0 + k))%nat by (unfold i; lia).
    apply Hb; [|exact Hk].
    pose proof (keypoint_cell_inside c n 0 Hn ltac:(lia)). lia. }
  assert (forall k, (k < 4)%nat ->
            pixels !! (i + (4 + k))%nat
            = Some (channel k {| r := a (texel_at img n); g := 0;
                                 b := r (texel_at img n); a := encodedFlagsNone |}))
    as Hpixel1.
  { intros k Hk. rewrite <- (packed_pixel_1 c n Hn).
    replace (i + (4 + k))%nat with (c * bpk + (4 * 1 + k))%nat by (unfold i; lia).
    apply cell_byte; [|exact Hk]. apply (keypoint_cell_inside c n); [exact Hn|lia]. }
  pose proof (Hpixel0 0%nat ltac:(lia)) as H0. rewrite Nat.add_0_r in H0.
  pose proof (Hpixel0 1%nat ltac:(lia)) as H1.
  pose proof (Hpixel0 2%nat ltac:(lia)) as H2.
  pose proof (Hpixel0 3%nat ltac:(lia)) as H3.
  pose proof (Hpixel1 0%nat ltac:(lia)) as H4.
  pose proof (Hpixel1 1%nat ltac:(lia)) as H5.
  pose proof (Hpixel1 2%nat ltac:(lia)) as H6.
  pose proof (Hpixel1 3%nat ltac:(lia)) as H7.
  cbn [Nat.add channel r g b a] in H0, H1, H2, H3, H4, H5, H6, H7.
  (* the bytes after the header *)
  assert (KeypointSink.subarray pixels (8 + i) (8 + i + es) = replicate es 0) as Hextra.
  { apply subarray_zeros. intros k Hk.
    replace (8 + i + k)%nat with (i + (8 + k))%nat by lia.
    apply (cell_zero_bytes c n); [exact Hn|].
    unfold KeypointSink.bytesPerKeypoint. lia. }
  assert (KeypointSink.subarray pixels (8 + i + es) (8 + i + es + ds) = replicate ds 0)
    as Hdesc.
  { apply subarray_zeros. intros k Hk.
    replace (8 + i + es + k)%nat with (i + (8 + es + k))%nat by lia.
    apply (cell_zero_bytes c n); [exact Hn|].
    unfold KeypointSink.bytesPerKeypoint. lia. }
  (* the position *)
  assert (0 <= x pos * FIX_RESOLUTION < 0xFFFF) as Hfx.
  { unfold pos, position_of. cbn [x]. rewrite imod_nonneg by lia.
    pose proof (Z.mod_pos_bound (Z.of_nat (after_keypoint img n)) (x (size img)) Hw).
    rewrite image_size in position_fits. nia. }
  unfold KeypointSink.decode_cell, KeypointSink.raw_x, KeypointSink.raw_y. cbv zeta.
  fold i. rewrite H0, H1, H2, H3, H4, H5, H6, H7, Hextra, Hdesc.
  unfold encodeKeypointPosition. cbv zeta. cbn [r g b a].
  rewrite (word16_encoded (x pos * FIX_RESOLUTION) Hfx).
  replace (x pos * FIX_RESOLUTION >=? 0xFFFF) with false
    by (symmetry; rewrite Z.geb_leb; apply Z.leb_gt; lia).
  cbn [andb].
  replace (KeypointSink.loose_eq_zero (Some (r (texel_at img n)))) with false
    by (symmetry; cbn; apply Z.eqb_neq; lia).
  rewrite andb_false_r, !length_replicate, !Nat.ltb_irrefl. cbn [orb].
  reflexivity.
Qed.

(** The cell after the last keypoint, when the texture has one, starts
    with the sentinel. *)
Lemma decode_sentinel_cell :
  let K := length (keypoint_indices img) in
  (K * ppk < e * e)%nat ->
  KeypointSink.decode_cell FIX_RESOLUTION LOG2_PYRAMID_MAX_SCALE PYRAMID_MAX_LEVELS
    pixels ds es (K * bpk)
  = KeypointSink.Break.
Proof.
  intros K HK. apply KeypointSink.decode_cell_sentinel.
  assert (forall k, (k < 4)%nat -> pixels !! (K * bpk + k)%nat = Some 255) as Hbyte.
  { intros k Hk. replace (K * bpk + k)%nat with (K * bpk + (4 * 0 + k))%nat by lia.
    rewrite cell_byte by (try exact Hk; lia).
    rewrite Nat.add_0_r, packed_null by (apply lookup_ge_None_2; unfold K; lia).
    f_equal. destruct k as [|[|[|k]]]; reflexivity. }
  unfold KeypointSink.is_sentinel.
  rewrite <- (Nat.add_0_r (K * bpk)) at 1.
  repeat split; apply Hbyte; lia.
Qed.


Lemma decode_size_encoded :
  KeypointSink.decode_size pixels ds es e = (4 * (e * e))%nat.
Proof.
  unfold KeypointSink.decode_size. cbv zeta.
  rewrite readPixels_length. destruct encoded_texture as [-> _].
  pose proof (KeypointSink.pixelsPerKeypoint_ge ds es). nia.
Qed.

Lemma carried_decoded_keypoint (n : nat) :
  carried ds es (texel_at img n) (decoded_keypoint n).
Proof. repeat split. Qed.

(** The decoder on an encoded texture: the keypoints of the image, as
    [decoded_keypoint] reads them off their cells. *)
Lemma decode_of_encoded :
  KeypointSink._decode FIX_RESOLUTION LOG2_PYRAMID_MAX_SCALE PYRAMID_MAX_LEVELS
    (readPixels encoded) ds es e
  = Some (decoded_keypoint <$> keypoint_indices img).
Proof.
  rewrite (KeypointSink.decode_first_cells _ _ _ _ _ _ _ (length (keypoint_indices img))).
  - f_equal.
    rewrite (KeypointSink.keypoints_before_all _ _ _ _ _ _ _ _
               (fun m => decoded_keypoint (nth m (keypoint_indices img) 0%nat))).
    + apply list_eq. intros m. rewrite !list_lookup_fmap.
      destruct (decide (m < length (keypoint_indices img))%nat) as [Hm|Hm].
      * rewrite lookup_seq_lt by exact Hm. cbn [fmap option_fmap option_map].
        destruct (lookup_lt_is_Some_2 _ _ Hm) as [n Hn]. rewrite Hn.
        cbn [fmap option_fmap option_map]. do 2 f_equal.
        apply nth_lookup_Some with (d := 0%nat) in Hn. exact Hn.
      * rewrite lookup_seq_ge by lia. rewrite (lookup_ge_None_2 _ m) by lia.
        reflexivity.
    + intros m Hm. destruct (lookup_lt_is_Some_2 _ _ Hm) as [n Hn].
      rewrite (nth_lookup_Some _ _ 0%nat _ Hn). apply decode_keypoint_cell, Hn.
  - intros m Hm. destruct (lookup_lt_is_Some_2 _ _ Hm) as [n Hn].
    rewrite (decode_keypoint_cell m n Hn). discriminate.
  - cbv zeta. rewrite decode_size_encoded.
    destruct (decide (length (keypoint_indices img) * ppk < e * e)%nat) as [Hlt|Hge].
    + left. split; [unfold KeypointSink.bytesPerKeypoint; lia|].
      apply decode_sentinel_cell, Hlt.
    + right. unfold KeypointSink.bytesPerKeypoint. lia.
Qed.

Lemma carried_by_decoded (l : list nat) :
  Forall2 (carried ds es) (texel_at img <$> l) (decoded_keypoint <$> l).
Proof.
  induction l as [|n l IH]; constructor.
  - apply carried_decoded_keypoint.
  - exact IH.
Qed.

(** C1, as far as the shader goes by design: a texture that the passes of
    the shader have encoded from an image with valid skip offsets and at
    most as many keypoints as the texture has whole cells decodes to one
    keypoint per keypoint pixel of the image, in row-major order, each with
    the score and the scale of its pixel, the orientation byte 0, and a
    descriptor and extra bytes that are all zeros. *)
Theorem encode_then_decode :
  exists keypoints,
    KeypointSink._decode FIX_RESOLUTION LOG2_PYRAMID_MAX_SCALE PYRAMID_MAX_LEVELS
      (readPixels encoded) ds es e = Some keypoints /\
    Forall2 (carried ds es) (texel_at img <$> keypoint_indices img) keypoints.
Proof.
  exists (decoded_keypoint <$> keypoint_indices img).
  split; [apply decode_of_encoded | apply carried_by_decoded].
Qed.

End Roundtrip.


(** *** One dispatch over a single tile *)

(** With one tile that covers the texture, one dispatch encodes it. *)
Lemma dispatch_single_tile (u : Uniforms) (e : nat) (encoded : list vec4) :
  (0 < e)%nat -> encoderLength u = Z.of_nat e -> tileSize u = Z.of_nat e ->
  tileIndex u = 0 ->
  dispatch u = Some encoded -> encoded_by_shader u e encoded.
Proof.
  intros He Hlen Hts Hti Hrun. unfold dispatch in Hrun. cbv zeta in Hrun.
  rewrite Hlen, Nat2Z.id in Hrun. apply mapM_Some in Hrun.
  split.
  - apply Forall2_length in Hrun. rewrite length_seq in Hrun. lia.
  - intros rho texel Htexel.
    destruct (Forall2_lookup_r _ _ _ _ _ Hrun Htexel) as (rho' & Hseq & Hmain).
    apply lookup_seq in Hseq. destruct Hseq as [-> Hrho]. cbn [Nat.add] in *.
    exists (encodedKeypoints u).
    assert (tile_of u (position_of (Z.of_nat e) rho) = 0) as Htile.
    { unfold tile_of, position_of. cbn [x y]. rewrite Hts, Hlen.
      pose proof (Z.mod_pos_bound (Z.of_nat rho) (Z.of_nat e) ltac:(lia)) as Hm.
      assert (0 <= Z.of_nat rho / Z.of_nat e < Z.of_nat e) as Hq
        by (split; [apply Z.div_pos; lia|apply Z.div_lt_upper_bound; lia]).
      rewrite (imod_nonneg (Z.of_nat rho)), (idiv_nonneg (Z.of_nat rho)) by lia.
      rewrite !idiv_nonneg by lia.
      rewrite (Z.div_small (Z.of_nat rho mod Z.of_nat e)) by exact Hm.
      rewrite (Z.div_small (Z.of_nat rho / Z.of_nat e)) by exact Hq. lia. }
    rewrite Htile, <- Hti.
    replace (pass_uniforms u (tileIndex u) (encodedKeypoints u)) with u
      by (destruct u; reflexivity).
    exact Hmain.
Qed.


(** *** One dispatch per tile *)

(** Modelled from the spec: the passes of the encoder node, which is not
    among the sources. "The work is tiled (via a tileIndex uniform) so each
    invocation handles a subrange of q": one dispatch per tile, in the order
    of the tiles, each reading the texture that the one before it wrote. *)
Definition encode_tiles (u : Uniforms) (tiles : nat) (initial : list vec4)
  : option (list vec4) :=
  for_loop tiles
    (fun k previous =>
       previous ≫= fun texture =>
         dispatch (pass_uniforms u (Z.of_nat k)
                     {| size := {| x := encoderLength u; y := encoderLength u |};
                        texels := texture |}))
    (Some initial).

Lemma tile_of_range (u : Uniforms) (e m ts rho : nat) :
  (0 < ts)%nat -> e = (m * ts)%nat ->
  encoderLength u = Z.of_nat e -> tileSize u = Z.of_nat ts ->
  (rho < e * e)%nat ->
  0 <= tile_of u (position_of (Z.of_nat e) rho) < Z.of_nat (m * m).
Proof.
  intros Hts He Hlen Htile Hrho.
  assert (0 < e)%nat as Hepos by nia.
  unfold tile_of, position_of. cbn [x y]. rewrite Hlen, Htile.
  pose proof (Z.mod_pos_bound (Z.of_nat rho) (Z.of_nat e) ltac:(lia)) as Hx.
  assert (0 <= Z.of_nat rho / Z.of_nat e < Z.of_nat e) as Hy
    by (split; [apply Z.div_pos; lia|apply Z.div_lt_upper_bound; lia]).
  rewrite (imod_nonneg (Z.of_nat rho)), (idiv_nonneg (Z.of_nat rho)) by lia.
  rewrite !idiv_nonneg by lia.
  assert (Z.of_nat e / Z.of_nat ts = Z.of_nat m) as ->.
  { rewrite He, Nat2Z.inj_mul. apply Z.div_mul. lia. }
  assert (forall v, 0 <= v < Z.of_nat e -> 0 <= v / Z.of_nat ts < Z.of_nat m) as Hdiv.
  { intros v Hv. split; [apply Z.div_pos; lia|].
    apply Z.div_lt_upper_bound; [lia|]. rewrite He in Hv. lia. }
  pose proof (Hdiv _ Hx). pose proof (Hdiv _ Hy). nia.
Qed.

(** The passes over all the tiles of a texture whose side is a multiple of
    the tile size encode it. *)
Lemma encode_tiles_encoded (u : Uniforms) (e m ts : nat) (initial encoded : list vec4) :
  (0 < ts)%nat -> e = (m * ts)%nat ->
  encoderLength u = Z.of_nat e -> tileSize u = Z.of_nat ts ->
  length initial = (e * e)%nat ->
  encode_tiles u (m * m) initial = Some encoded ->
  encoded_by_shader u e encoded.
Proof.
  intros Hts He Hlen Htile Hinit Hrun.
  set (thread := position_of (Z.of_nat e)).
  set (P := fun (k : nat) (state : option (list vec4)) =>
    forall texture, state = Some texture ->
      length texture = (e * e)%nat /\
      forall rho texel, tile_of u (thread rho) < Z.of_nat k ->
        texture !! rho = Some texel ->
        exists previous,
          main FIX_RESOLUTION encodedFlagsNone
            (pass_uniforms u (tile_of u (thread rho)) previous) (thread rho)
          = Some texel).
  assert (P (m * m)%nat (Some encoded)) as Hall.
  { rewrite <- Hrun. unfold encode_tiles. apply (for_loop_inv P).
    - intros texture [= <-]. split; [exact Hinit|].
      intros rho texel Hlt Hlook. apply lookup_lt_Some in Hlook.
      pose proof (tile_of_range u e m ts rho Hts He Hlen Htile ltac:(lia)) as Hrange.
      fold thread in Hrange. lia.
    - intros k state Hk IH texture' Hstep.
      destruct state as [texture|]; [|discriminate Hstep]. cbn [mbind option_bind] in Hstep.
      destruct (IH texture eq_refl) as [Hlt IHtex].
      unfold dispatch in Hstep. cbv zeta in Hstep. cbn [encoderLength pass_uniforms] in Hstep.
      rewrite Hlen, Nat2Z.id in Hstep. apply mapM_Some in Hstep.
      split.
      + apply Forall2_length in Hstep. rewrite length_seq in Hstep. lia.
      + intros rho texel Htile' Hlook.
        destruct (Forall2_lookup_r _ _ _ _ _ Hstep Hlook) as (rho' & Hseq & Hmain).
        apply lookup_seq in Hseq. destruct Hseq as [-> Hrho]. cbn [Nat.add] in *.
        fold thread in Hmain.
        destruct (decide (tile_of u (thread rho) = Z.of_nat k)) as [Heq|Hne].
        * rewrite Heq. eexists. exact Hmain.
        * rewrite main_outside_tile in Hmain by exact Hne.
          unfold threadPixel in Hmain.
          cbn [encodedKeypoints pass_uniforms] in Hmain.
          unfold thread in Hmain.
          pose proof (texelFetch_raster
                        {| size := {| x := Z.of_nat e; y := Z.of_nat e |};
                           texels := texture |} rho) as Hfetch.
          cbn [size texels x y] in Hfetch.
          rewrite Hfetch in Hmain by lia. clear Hfetch.
          apply (IHtex rho texel); [lia|].
          inversion Hmain as [Htexel]. unfold texel_at. cbn [texels].
          destruct (lookup_lt_is_Some_2 texture rho ltac:(lia)) as [t ->]. reflexivity. }
  destruct (Hall encoded eq_refl) as [Hlength Htexels].
  split; [exact Hlength|].
  intros rho texel Hlook. apply (Htexels rho texel); [|exact Hlook].
  apply lookup_lt_Some in Hlook.
  apply (tile_of_range u e m ts rho Hts He Hlen Htile). lia.
Qed.


End Codec.

(** *** The codec on a concrete image *)

(** The image of the example of the shader, encoded in one dispatch into a
    texture of 2 by 2 pixels, and read back. *)
Definition C1_encoded : list vec4 :=
  [ {| r := 0; g := 0; b := 8; a := 0 |};
    {| r := 128; g := 0; b := 200; a := 0 |};
    encodeNullKeypoint; encodeNullKeypoint ].

Example C1_dispatch : dispatch 8 0 C2_uniforms = Some C1_encoded.
Proof. reflexivity. Qed.

Example C1_readPixels :
  readPixels C1_encoded
  = [0; 0; 8; 0; 128; 0; 200; 0; 255; 255; 255; 255; 255; 255; 255; 255].
Proof. reflexivity. Qed.

(** The keypoint of the image is at (1, 0); the decoded keypoint is at
    (0, 1), with the score 200 and the orientation of the byte 0. *)
Example C1_decode :
  KeypointSink._decode 8 0 8 (readPixels C1_encoded) 0 0 2
  = Some [ {| KeypointSink.x := (0 # 8)%Q; KeypointSink.y := (8 # 8)%Q;
              KeypointSink.lod := (1024 # 255)%Q;
              KeypointSink.rotation := KeypointSink.TimesPiOver255 (-255);
              KeypointSink.score := 200;
              KeypointSink.descriptorBytes := [];
              KeypointSink.extraBytes := [] |} ].
Proof. reflexivity. Qed.

(** The same texture, encoded in four passes over tiles of one pixel. *)
Example C1_encode_tiles :
  encode_tiles 8 0
    {| image := C2_image; encodedKeypoints := encodedKeypoints C2_uniforms;
       imageSize := {| x := 4; y := 2 |}; tileSize := 1; tileIndex := 0;
       descriptorSize := 0; extraSize := 0; encoderLength := 2 |}
    4 [zero4; zero4; zero4; zero4]
  = Some C1_encoded.
Proof. reflexivity. Qed.


Lemma C1_encoded_by_shader : encoded_by_shader 8 0 C2_uniforms 2 C1_encoded.
Proof.
  apply dispatch_single_tile; try reflexivity. lia.
Defined.

Lemma encode_then_decode_witness :
  exists keypoints,
    KeypointSink._decode 8 0 8 (readPixels C1_encoded) 0 0 2 = Some keypoints /\
    Forall2 (carried 0 0 8 0 0)
      (texel_at (image C2_uniforms) <$> keypoint_indices (image C2_uniforms)) keypoints.
Proof.
  apply (encode_then_decode 8 0 0 8 C2_uniforms 0 0 2 C1_encoded).
  - exact C2_image_ok.
  - reflexivity.
  - exact C2_valid_hints.
  - reflexivity.
  - reflexivity.
  - reflexivity.
  - exact C1_encoded_by_shader.
  - lia.
  - vm_compute. discriminate.
  - vm_compute. lia.
Defined.

(** A keypoint whose descriptor is 1 2 3 4. *)
Definition C1_keypoint : KeypointSink.SpeedyKeypoint := {|
  KeypointSink.x := 1%Q; KeypointSink.y := 0%Q; KeypointSink.lod := 0%Q;
  KeypointSink.rotation := KeypointSink.TimesPiOver255 1;
  KeypointSink.score := 200;
  KeypointSink.descriptorBytes := [1; 2; 3; 4];
  KeypointSink.extraBytes := [] |}.

(** C1 as stated fails at the list of that one keypoint: no texture that
    the shader has encoded, from any image, decodes to a list whose
    descriptors are those of that list. The shader has no input for a
    descriptor, for extra bytes or for an orientation, and it writes zeros
    in their place. *)
Lemma descriptors_do_not_round_trip :
  ~ exists (u : Uniforms) (e : nat) (encoded : list vec4)
      (keypoints : list KeypointSink.SpeedyKeypoint),
      image_ok (image u) /\ imageSize u = size (image u) /\ valid_hints (image u) /\
      descriptorSize u = 4 /\ extraSize u = 0 /\ encoderLength u = Z.of_nat e /\
      encoded_by_shader 8 0 u e encoded /\
      x (imageSize u) * 8 <= 0xFFFF /\
      (length (keypoint_indices (image u)) * KeypointSink.pixelsPerKeypoint 4 0
       <= e * e)%nat /\
      KeypointSink._decode 8 0 8 (readPixels encoded) 4 0 e = Some keypoints /\
      Forall2 (fun original decoded =>
                 KeypointSink.descriptorBytes decoded
                 = KeypointSink.descriptorBytes original)
        [C1_keypoint] keypoints.
Proof.
  intros (u & e & encoded & keypoints & Hok & Hsize & Hhints & Hds & Hes & He & Henc
          & Hfit & Hcap & Hdec & Hsame).
  rewrite (decode_of_encoded 8 0 0 8 u 4 0 e encoded Hok Hsize Hhints Hds Hes He Henc
             ltac:(lia) Hfit Hcap) in Hdec.
  inversion Hdec as [Hk]; clear Hdec. subst keypoints.
  destruct (keypoint_indices (image u)) as [|n l]; cbn [fmap list_fmap] in Hsame.
  - inversion Hsame.
  - inversion Hsame as [|? ? ? ? Hd _]; subst. cbn in Hd. discriminate Hd.
Qed.


(** *** The decoder on a texture with an incomplete last cell *)

(** An image of 3 by 2 pixels with five keypoints, of scores 10 to 50 and
    scale 128, and an encoder texture of 3 by 3 pixels: with cells of two
    pixels, the ninth pixel of the texture is the first pixel of a fifth
    cell, whose second pixel the texture does not have. *)
Definition C9_image : sampler2D := {|
  size := {| x := 3; y := 2 |};
  texels := [ {| r := 10; g := 0; b := 0; a := 128 |};
              {| r := 20; g := 0; b := 0; a := 128 |};
              {| r := 30; g := 0; b := 0; a := 128 |};
              {| r := 40; g := 0; b := 0; a := 128 |};
              {| r := 50; g := 0; b := 0; a := 128 |}; zero4 ] |}.

Definition C9_uniforms : Uniforms := {|
  image := C9_image;
  encodedKeypoints := {| size := {| x := 3; y := 3 |}; texels := replicate 9 zero4 |};
  imageSize := {| x := 3; y := 2 |};
  tileSize := 3; tileIndex := 0;
  descriptorSize := 0; extraSize := 0; encoderLength := 3 |}.

(** The 36 bytes of that texture. *)
Definition C9_pixels : list Z :=
  [ 8; 0; 0; 0; 128; 0; 10; 0;  16; 0; 0; 0; 128; 0; 20; 0;
    0; 0; 8; 0; 128; 0; 30; 0;  8; 0; 8; 0; 128; 0; 40; 0;
    16; 0; 8; 0 ].

(** C9, at the bytes that the shader encodes from that image with
    [encoderLength = 3] and no descriptor: the loop of [_decode] visits the
    cell that starts at byte 32 of the 36, reads the bytes 36 to 39 of its
    header past the end of the buffer, where JavaScript yields [undefined],
    and returns a fifth keypoint made of them: its orientation is NaN and
    its score 0, where the image has the score 50. *)
Theorem decode_reads_past_the_texture :
  readPixels <$> dispatch 8 0 C9_uniforms = Some C9_pixels /\
  length C9_pixels = 36%nat /\
  KeypointSink.decode_size C9_pixels 0 0 3 = 36%nat /\
  exists keypoints reads,
    KeypointSink.decode_traced 8 0 8 C9_pixels 0 0 3 = Some (keypoints, reads) /\
    drop 36 reads = [33; 32; 35; 34; 36; 37; 39; 38]%nat /\
    ~ Forall (fun k => (k < length C9_pixels)%nat) reads /\
    KeypointSink._decode 8 0 8 C9_pixels 0 0 3 = Some keypoints /\
    length keypoints = 5%nat /\
    keypoints !! 4%nat
    = Some {| KeypointSink.x := (16 # 8)%Q; KeypointSink.y := (8 # 8)%Q;
              KeypointSink.lod := 0%Q; KeypointSink.rotation := KeypointSink.NaN;
              KeypointSink.score := 0;
              KeypointSink.descriptorBytes := []; KeypointSink.extraBytes := [] |}.
Proof.
  split; [reflexivity|]. split; [reflexivity|]. split; [reflexivity|].
  eexists _, _. split; [reflexivity|]. split; [reflexivity|].
  split; [|repeat split].
  intros Hall. apply (proj1 (Forall_lookup _ _)) with (i := 40%nat) (x := 36%nat) in Hall.
  - cbn in Hall. lia.
  - reflexivity.
Qed.


End KeypointCodec.
